(** * C-Common-Data-Structures: vector, hash map and singly linked list

    A shallow embedding of [array/vector.c], [map/hash_map.c] and
    [List/SinglyLinkedList/singly_linked_list.c], the properties of the
    three containers that the specification states about them, and
    further properties that the code of their operations shows.

    Conventions of the embedding:
    - a C function becomes a Rocq function from its arguments and the
      memory it reads to an [exec] result carrying what it returns and the
      memory it leaves; [Fault] stands for an execution with undefined
      behaviour (a null or dangling dereference, an access outside an
      allocated block, a read of an indeterminate value);
    - a value that C leaves indeterminate (the result of a non-void
      function that ends without [return], a field that was never
      assigned) is [Indeterminate];
    - whether the allocator ([malloc], [realloc]) answers with a block or
      with the null pointer is an argument of the function that calls it;
      a new node is placed at an address that is not allocated;
    - a call through a destroy function pointer is recorded as an event of
      the trace the function produces. *)

From Stdlib Require Import ZArith Lia Strings.Byte.
From stdpp Require Import base option list gmap.

Open Scope Z_scope.

(** ** Shared vocabulary *)

(** Modelled from the spec: [util.h], which defines the return codes as
    integer macros, is not among the sources.  The codes are taken by
    name, as the kinds of section 7 of the specification: pairwise
    distinct, [SUCC] the success marker, [NOKEY] and [END] the two
    signals that are not hard errors. *)
Inductive RtnCode : Set :=
| SUCC | ERR_NOINIT | ERR_NOMEM | ERR_IDX | ERR_KEYSIZE | ERR_GET
| ERR_NODATA | NOKEY | END.

#[global] Instance RtnCode_eq_dec : EqDecision RtnCode.
Proof. solve_decision. Defined.

(** An [int32_t] result that is either a return code or a count. *)
Inductive int32_ret : Set :=
| Code (c : RtnCode)
| Count (n : Z).

(** Modelled from the spec: the typedefs of [util.h] are not among the
    sources.  An [Item] is an opaque reference (section 3 of the
    specification), kept as the integer value of the pointer; [NULL] is
    0. *)
Definition Item := Z.
Definition NULL : Z := 0.

(** A value C may leave indeterminate. *)
Inductive ret (A : Type) : Type :=
| Val (a : A)
| Indeterminate.
Arguments Val {A} a.
Arguments Indeterminate {A}.

(** The result of running a C function.  Loops over linked nodes are
    run with a bound on the number of iterations (the fuel): [OutOfFuel]
    says that the bound was reached before the loop ended. *)
Inductive exec (A : Type) : Type :=
| Ok (a : A)
| Fault
| OutOfFuel.
Arguments Ok {A} a.
Arguments Fault {A}.
Arguments OutOfFuel {A}.

Definition exec_bind {A B} (m : exec A) (k : A -> exec B) : exec B :=
  match m with
  | Ok a => k a
  | Fault => Fault
  | OutOfFuel => OutOfFuel
  end.

Notation "x <- m ;; k" := (exec_bind m (fun x => k))
  (at level 100, m at next level, right associativity).

(** A function pointer to a destroy routine, named by what it points to. *)
Inductive callback : Set :=
| default_destroy
| user_destroy (id : nat).

#[global] Instance callback_eq_dec : EqDecision callback.
Proof. solve_decision. Defined.

(** Addresses of heap blocks; a pointer is an address or null ([None]). *)
Definition addr := positive.
Definition ptr := option addr.

(** Reading a field that may never have been assigned. *)
Definition load {A} (x : ret A) : exec A :=
  match x with
  | Val a => Ok a
  | Indeterminate => Fault
  end.

(** [chain next h p l]: following the [next] field from the pointer [p]
    through the blocks of [h] visits exactly the addresses [l], in this
    order, and then reaches the null pointer. *)
Section Chain.
Context {N : Type} (next : N -> ptr).

Inductive chain (h : gmap addr N) : ptr -> list addr -> Prop :=
| chain_nil : chain h None []
| chain_cons a n l :
    h !! a = Some n -> chain h (next n) l -> chain h (Some a) (a :: l).

End Chain.

(** [int32_t] arithmetic.  C leaves the overflow of a signed operation
    undefined; the model gives the operation the two's complement result
    that the usual targets compute. *)
Definition INT32_MAX : Z := 2147483647.
Definition wrap32 (z : Z) : Z := (z + 2147483648) mod 4294967296 - 2147483648.

(** ** The vector, [array/vector.c] *)

Module Vector.

(** One call [pDestroy_(item)]. *)
Inductive event : Set :=
| Destroyed (f : callback) (item : Item).

(** [struct _VectorData].  A slot of the item array that was allocated
    and never written holds [None]. *)
Record VectorData : Type := mkVectorData {
  iSize_ : Z;
  iCapacity_ : Z;
  aItem_ : list (option Item);
  pDestroy_ : option callback
}.

(** A [Vector*] handle: [None] is the null pointer. *)
Definition Vector := option VectorData.

Definition DEFAULT_CAPACITY : Z := 1.

(** [_VectorItemDestroy], the default clean method, which does nothing. *)
Definition _VectorItemDestroy : callback := default_destroy.

Definition set_size (d : VectorData) (n : Z) : VectorData :=
  mkVectorData n (iCapacity_ d) (aItem_ d) (pDestroy_ d).
Definition set_items (d : VectorData) (a : list (option Item)) : VectorData :=
  mkVectorData (iSize_ d) (iCapacity_ d) a (pDestroy_ d).
Definition set_block (d : VectorData) (a : list (option Item)) (c : Z) : VectorData :=
  mkVectorData (iSize_ d) c a (pDestroy_ d).
Definition set_destroy (d : VectorData) (f : option callback) : VectorData :=
  mkVectorData (iSize_ d) (iCapacity_ d) (aItem_ d) f.

(** [aItem[i]] as an rvalue. *)
Definition read (a : list (option Item)) (i : Z) : exec Item :=
  if i <? 0 then Fault
  else match a !! Z.to_nat i with
       | Some (Some x) => Ok x
       | _ => Fault
       end.

(** [aItem[i] = item]. *)
Definition write (a : list (option Item)) (i : Z) (item : Item)
  : exec (list (option Item)) :=
  if (i <? 0) || (Z.of_nat (length a) <=? i) then Fault
  else Ok (<[Z.to_nat i := Some item]> a).

(** [memmove(aItem + dst, aItem + src, sizeof(Item) * n)]. *)
Definition memmove (a : list (option Item)) (dst src n : Z)
  : exec (list (option Item)) :=
  if (dst <? 0) || (src <? 0) || (n <? 0)
     || (Z.of_nat (length a) <? dst + n) || (Z.of_nat (length a) <? src + n)
  then Fault
  else Ok (take (Z.to_nat dst) a
           ++ take (Z.to_nat n) (drop (Z.to_nat src) a)
           ++ drop (Z.to_nat (dst + n)) a).

(** [pData->pDestroy_(item)]. *)
Definition call_destroy (d : VectorData) (item : Item) : exec (list event) :=
  match pDestroy_ d with
  | Some f => Ok [Destroyed f item]
  | None => Fault
  end.

(** [realloc(aItem_, iSizeNew * sizeof(Item))].  A negative [iSizeNew]
    becomes a byte count beyond any block and the call fails; otherwise
    the allocator decides ([ok]).  The block that comes back keeps the
    old content up to the shorter of the two lengths, and its new slots
    are not written.  (What [realloc] does for a size of 0 depends on
    the C library; [_VectorReisze] asks for a capacity above zero.) *)
Definition realloc (a : list (option Item)) (iSizeNew : Z) (ok : bool)
  : option (list (option Item)) :=
  if (iSizeNew <? 0) || negb ok then None
  else Some (take (Z.to_nat iSizeNew) a
             ++ replicate (Z.to_nat iSizeNew - length a) None).

(** The loop of [_VectorReisze]:
    [while (iIdx < iSize_) { pDestroy_(aItem_[iIdx]); iIdx++; }],
    by recursion on the number [n] of indices left below [iSize_]. *)
Fixpoint destroy_from (d : VectorData) (n : nat) (iIdx : Z) : exec (list event) :=
  match n with
  | O => Ok []
  | S n' =>
      item <- read (aItem_ d) iIdx ;;
      e <- call_destroy d item ;;
      es <- destroy_from d n' (iIdx + 1) ;;
      Ok (e ++ es)
  end.

Definition _VectorReisze (pData : VectorData) (iSizeNew : Z) (bClean : bool)
    (realloc_ok : bool) : exec (RtnCode * VectorData * list event) :=
  cleaned <-
    (if (iSizeNew <? iSize_ pData) && bClean then
       es <- destroy_from pData (Z.to_nat (iSize_ pData - iSizeNew)) iSizeNew ;;
       Ok (set_size pData iSizeNew, es)
     else Ok (pData, [])) ;;
  let '(pData, es) := cleaned in
  match realloc (aItem_ pData) iSizeNew realloc_ok with
  | Some aItemNew => Ok (SUCC, set_block pData aItemNew iSizeNew, es)
  | None => Ok (ERR_NOMEM, pData, es)
  end.

(** [VectorInit]; the three booleans are the answers of the three
    [malloc] calls. *)
Definition VectorInit (m_obj m_data m_items : bool) : RtnCode * Vector :=
  if negb m_obj then (ERR_NOMEM, None)
  else if negb m_data then (ERR_NOMEM, None)
  else if negb m_items then (ERR_NOMEM, None)
  else (SUCC, Some (mkVectorData 0 DEFAULT_CAPACITY
                      (replicate (Z.to_nat DEFAULT_CAPACITY) None)
                      (Some _VectorItemDestroy))).

(** What a vector operation hands back: the [int32_t] it returns, the
    handle's data afterwards and the destroy calls it made. *)
Definition vresult : Type := ret RtnCode * Vector * list event.

(** The growth step shared by [VectorPushBack] and [VectorInsert]. *)
Definition grow_if_full (pData : VectorData) (realloc_ok : bool)
  : exec (RtnCode * VectorData * list event) :=
  if iSize_ pData =? iCapacity_ pData
  then _VectorReisze pData (wrap32 (iCapacity_ pData * 2)) false realloc_ok
  else Ok (SUCC, pData, []).

Definition VectorPushBack (self : Vector) (item : Item) (realloc_ok : bool)
  : exec vresult :=
  match self with
  | None => Ok (Val ERR_NOINIT, None, [])
  | Some pData =>
      g <- grow_if_full pData realloc_ok ;;
      let '(iRtnCode, pData, es) := g in
      if decide (iRtnCode <> SUCC) then Ok (Val iRtnCode, Some pData, es)
      else
        a <- write (aItem_ pData) (iSize_ pData) item ;;
        let pData := set_items pData a in
        Ok (Val SUCC, Some (set_size pData (wrap32 (iSize_ pData + 1))), es)
  end.

Definition VectorInsert (self : Vector) (item : Item) (iIdx : Z)
    (realloc_ok : bool) : exec vresult :=
  match self with
  | None => Ok (Val ERR_NOINIT, None, [])
  | Some pData =>
      if (iIdx <? 0) || (iSize_ pData <? iIdx)
      then Ok (Val ERR_IDX, Some pData, [])
      else
        g <- grow_if_full pData realloc_ok ;;
        let '(iRtnCode, pData, es) := g in
        if decide (iRtnCode <> SUCC) then Ok (Val iRtnCode, Some pData, es)
        else
          let iShftSize := wrap32 (iSize_ pData - iIdx) in
          a <- (if 0 <? iShftSize
                then memmove (aItem_ pData) (iIdx + 1) iIdx iShftSize
                else Ok (aItem_ pData)) ;;
          a <- write a iIdx item ;;
          let pData := set_items pData a in
          Ok (Val SUCC, Some (set_size pData (wrap32 (iSize_ pData + 1))), es)
  end.

Definition VectorPopBack (self : Vector) (bClean : bool) : exec vresult :=
  match self with
  | None => Ok (Val ERR_NOINIT, None, [])
  | Some pData =>
      if iSize_ pData =? 0 then Ok (Val ERR_IDX, Some pData, [])
      else
        let pData := set_size pData (wrap32 (iSize_ pData - 1)) in
        es <- (if bClean
               then item <- read (aItem_ pData) (iSize_ pData) ;;
                    call_destroy pData item
               else Ok []) ;;
        Ok (Val SUCC, Some pData, es)
  end.

Definition VectorDelete (self : Vector) (iIdx : Z) (bClean : bool)
  : exec vresult :=
  match self with
  | None => Ok (Val ERR_NOINIT, None, [])
  | Some pData =>
      if (iIdx <? 0) || (iSize_ pData <=? iIdx)
      then Ok (Val ERR_IDX, Some pData, [])
      else
        es <- (if bClean
               then item <- read (aItem_ pData) iIdx ;; call_destroy pData item
               else Ok []) ;;
        let iShftSize := wrap32 (wrap32 (iSize_ pData - iIdx) - 1) in
        a <- (if 0 <? iShftSize
              then memmove (aItem_ pData) iIdx (iIdx + 1) iShftSize
              else Ok (aItem_ pData)) ;;
        let pData := set_items pData a in
        Ok (Val SUCC, Some (set_size pData (wrap32 (iSize_ pData - 1))), es)
  end.

Definition VectorResize (self : Vector) (iSize : Z) (bClean : bool)
    (realloc_ok : bool) : exec vresult :=
  match self with
  | None => Ok (Val ERR_NOINIT, None, [])
  | Some pData =>
      r <- _VectorReisze pData iSize bClean realloc_ok ;;
      let '(rc, pData, es) := r in
      Ok (Val rc, Some pData, es)
  end.

Definition VectorSize (self : Vector) : int32_ret :=
  match self with
  | None => Code ERR_NOINIT
  | Some pData => Count (iSize_ pData)
  end.

Definition VectorCapacity (self : Vector) : int32_ret :=
  match self with
  | None => Code ERR_NOINIT
  | Some pData => Count (iCapacity_ pData)
  end.

Definition VectorSet (self : Vector) (item : Item) (iIdx : Z) (bClean : bool)
  : exec vresult :=
  match self with
  | None => Ok (Val ERR_NOINIT, None, [])
  | Some pData =>
      if (iIdx <? 0) || (iSize_ pData <=? iIdx)
      then Ok (Val ERR_IDX, Some pData, [])
      else
        es <- (if bClean
               then old <- read (aItem_ pData) iIdx ;; call_destroy pData old
               else Ok []) ;;
        a <- write (aItem_ pData) iIdx item ;;
        Ok (Val SUCC, Some (set_items pData a), es)
  end.

(** [VectorGet]; [pItem] is a valid pointer (the function does not test
    it), and the second component of the result is what was stored
    through it, [None] when nothing was. *)
Definition VectorGet (self : Vector) (iIdx : Z) : exec (RtnCode * option Item) :=
  match self with
  | None => Ok (ERR_NOINIT, None)
  | Some pData =>
      if (iIdx <? 0) || (iSize_ pData <=? iIdx) then Ok (ERR_IDX, None)
      else
        item <- read (aItem_ pData) iIdx ;;
        Ok (SUCC, Some item)
  end.

(** [VectorSetDestroy]: the body ends after the assignment, without a
    [return] statement. *)
Definition VectorSetDestroy (self : Vector) (pFunc : option callback)
  : exec vresult :=
  match self with
  | None => Ok (Val ERR_NOINIT, None, [])
  | Some pData => Ok (Indeterminate, Some (set_destroy pData pFunc), [])
  end.

(** [VectorDeinit]: with [bClean], the clean method runs on the items at
    [0 .. iSize_ - 1]; then the three blocks are freed and the handle is
    set to null.  The result is the handle afterwards and the destroy
    calls. *)
Definition VectorDeinit (self : Vector) (bClean : bool)
  : exec (Vector * list event) :=
  match self with
  | None => Ok (None, [])
  | Some pData =>
      es <- (if bClean
             then destroy_from pData (Z.to_nat (iSize_ pData)) 0
             else Ok []) ;;
      Ok (None, es)
  end.

(** A run of [push_back] calls, every [realloc] answered; it stops at the
    first call that does not return [SUCC]. *)
Fixpoint push_all (self : Vector) (xs : list Item) : exec (ret RtnCode * Vector) :=
  match xs with
  | [] => Ok (Val SUCC, self)
  | x :: xs =>
      r <- VectorPushBack self x true ;;
      let '(rc, self, _) := r in
      match rc with
      | Val SUCC => push_all self xs
      | _ => Ok (rc, self)
      end
  end.

(** *** What the specification says of a vector *)

(** An initialized vector (section 3 of the specification): the size is
    within the capacity, the item array has exactly [iCapacity_] slots of
    which the first [iSize_] were written, and a clean method is
    installed.  The capacity is positive, as [_VectorReisze] asks of
    its caller. *)
Definition vec_ok (d : VectorData) : Prop :=
  0 <= iSize_ d <= iCapacity_ d /\
  0 < iCapacity_ d <= INT32_MAX /\
  Z.of_nat (length (aItem_ d)) = iCapacity_ d /\
  Forall is_Some (take (Z.to_nat (iSize_ d)) (aItem_ d)) /\
  is_Some (pDestroy_ d).

(** The stored items, in order. *)
Definition items (d : VectorData) : list (option Item) :=
  take (Z.to_nat (iSize_ d)) (aItem_ d).

(** The vector after its capacity was doubled. *)
Definition grown (d : VectorData) : VectorData :=
  set_block d (aItem_ d ++ replicate (Z.to_nat (iCapacity_ d)) None)
    (iCapacity_ d * 2).

(** Vectors used as concrete inputs. *)
Definition vec_full : VectorData :=
  mkVectorData 1 1 [Some 7] (Some _VectorItemDestroy).
Definition vec_abc : VectorData :=
  mkVectorData 3 4 [Some 10; Some 20; Some 30; None] (Some (user_destroy 0)).

End Vector.

(** ** The hash map, [map/hash_map.c] *)

Module HashMap.

(** Modelled from the spec: [hash_map.h], which declares [Key], [Value]
    and [Pair], is not among the sources.  A key is a range of raw bytes
    compared over a length the caller supplies (section 3 of the
    specification): the model keeps the bytes the [Key] points to.  A
    [Value] is an opaque reference.  A [Pair] has the two fields the code
    uses, [pPair->key] and [pPair->value]. *)
Definition Key := list byte.
Definition Value := Z.
Record Pair : Set := mkPair { key : Key; value : Value }.

(** One call [pDestroy_(pPair)]. *)
Inductive event : Set :=
| Destroyed (f : callback) (p : Pair).

Definition aMagicPrimes : list Z :=
  [769; 1543; 3079; 6151; 12289; 24593; 49157; 98317; 196613; 393241; 786433;
   1572869; 3145739; 6291469; 12582917; 25165843; 50331653; 100663319;
   201326611; 402653189; 805306457; 1610612741].
Definition iCountPrime_ : Z := Z.of_nat (length aMagicPrimes).

Record SlotNode : Set := mkSlotNode {
  pPair : Pair;
  pNext : ptr
}.

(** A hash routine, from a key and its size to a [uint32_t]. *)
Definition hash_fn : Type := Key -> N -> Z.

(** [struct _HashMapData], together with the [SlotNode] blocks that are
    allocated ([nodes]).  [bEnd_], [iIterIdx_] and [pIterNode_] are the
    fields no constructor assigns. *)
Record HashMapData : Type := mkHashMapData {
  bEnd_ : ret bool;
  iSize_ : Z;
  iIdxPrime_ : Z;
  iCountSlot_ : Z;
  iIterIdx_ : ret Z;
  aSlot_ : list ptr;
  pIterNode_ : ret ptr;
  pHash_ : hash_fn;
  pDestroy_ : option callback;
  nodes : gmap addr SlotNode
}.

(** A [HashMap*] handle.  [HashMapInit] either builds the three blocks or
    unwinds and hands back null, so the three tests of [CHECK_INIT] fail
    together: [None] is the handle they reject. *)
Definition HashMap := option HashMapData.

Definition set_iSize (d : HashMapData) (n : Z) : HashMapData :=
  mkHashMapData (bEnd_ d) n (iIdxPrime_ d) (iCountSlot_ d) (iIterIdx_ d)
    (aSlot_ d) (pIterNode_ d) (pHash_ d) (pDestroy_ d) (nodes d).
Definition set_aSlot (d : HashMapData) (a : list ptr) : HashMapData :=
  mkHashMapData (bEnd_ d) (iSize_ d) (iIdxPrime_ d) (iCountSlot_ d) (iIterIdx_ d)
    a (pIterNode_ d) (pHash_ d) (pDestroy_ d) (nodes d).
Definition set_nodes (d : HashMapData) (h : gmap addr SlotNode) : HashMapData :=
  mkHashMapData (bEnd_ d) (iSize_ d) (iIdxPrime_ d) (iCountSlot_ d) (iIterIdx_ d)
    (aSlot_ d) (pIterNode_ d) (pHash_ d) (pDestroy_ d) h.
Definition set_bEnd (d : HashMapData) (b : bool) : HashMapData :=
  mkHashMapData (Val b) (iSize_ d) (iIdxPrime_ d) (iCountSlot_ d) (iIterIdx_ d)
    (aSlot_ d) (pIterNode_ d) (pHash_ d) (pDestroy_ d) (nodes d).
Definition set_iIterIdx (d : HashMapData) (i : Z) : HashMapData :=
  mkHashMapData (bEnd_ d) (iSize_ d) (iIdxPrime_ d) (iCountSlot_ d) (Val i)
    (aSlot_ d) (pIterNode_ d) (pHash_ d) (pDestroy_ d) (nodes d).
Definition set_pIterNode (d : HashMapData) (p : ptr) : HashMapData :=
  mkHashMapData (bEnd_ d) (iSize_ d) (iIdxPrime_ d) (iCountSlot_ d) (iIterIdx_ d)
    (aSlot_ d) (Val p) (pHash_ d) (pDestroy_ d) (nodes d).
Definition set_pDestroy (d : HashMapData) (f : option callback) : HashMapData :=
  mkHashMapData (bEnd_ d) (iSize_ d) (iIdxPrime_ d) (iCountSlot_ d) (iIterIdx_ d)
    (aSlot_ d) (pIterNode_ d) (pHash_ d) f (nodes d).
Definition set_pHash (d : HashMapData) (f : hash_fn) : HashMapData :=
  mkHashMapData (bEnd_ d) (iSize_ d) (iIdxPrime_ d) (iCountSlot_ d) (iIterIdx_ d)
    (aSlot_ d) (pIterNode_ d) f (pDestroy_ d) (nodes d).

(** [memcmp(a, b, n)]: the difference at the first of the [n] positions
    where the two byte ranges differ, 0 when there is none.  The model
    does not record where a key's buffer ends beyond the bytes it keeps: a
    range that stops before [n] bytes compares as the shorter string. *)
Fixpoint memcmp (a b : list byte) (n : nat) {struct n} : Z :=
  match n with
  | O => 0
  | S n' =>
      match a, b with
      | x :: a', y :: b' =>
          if Byte.eqb x y then memcmp a' b' n'
          else Z.of_N (Byte.to_N x) - Z.of_N (Byte.to_N y)
      | [], [] => 0
      | [], _ :: _ => -1
      | _ :: _, [] => 1
      end
  end.

(** [uiValue = pHash_(key, size); uiValue = uiValue % iCountSlot_;] in
    [uint32_t] arithmetic. *)
Definition slot_index (d : HashMapData) (k : Key) (size : N) : exec Z :=
  let uiValue := pHash_ d k size mod 4294967296 in
  let count := iCountSlot_ d mod 4294967296 in
  if count =? 0 then Fault else Ok (uiValue mod count).

(** [aSlot[i]] as an rvalue and [aSlot[i] = p]. *)
Definition slot_read (a : list ptr) (i : Z) : exec ptr :=
  if i <? 0 then Fault
  else match a !! Z.to_nat i with
       | Some p => Ok p
       | None => Fault
       end.
Definition slot_write (a : list ptr) (i : Z) (p : ptr) : exec (list ptr) :=
  if (i <? 0) || (Z.of_nat (length a) <=? i) then Fault
  else Ok (<[Z.to_nat i := p]> a).

(** The chain walk of [HashMapPut], [HashMapGet], [HashMapFind] and
    [HashMapRemove]:
    [while (pCurr) { if (memcmp(pCurr->pPair->key, key, size) == 0) ...;
                     pPred = pCurr; pCurr = pCurr->pNext; }].
    It stops at the first node whose key compares equal and hands back
    that node with its predecessor, or [None] at the end of the chain. *)
Fixpoint scan (fuel : nat) (h : gmap addr SlotNode) (pPred pCurr : ptr)
    (k : Key) (size : N) : exec (option (ptr * addr * SlotNode)) :=
  match fuel with
  | O => OutOfFuel
  | S fuel' =>
      match pCurr with
      | None => Ok None
      | Some c =>
          match h !! c with
          | None => Fault
          | Some n =>
              if memcmp (key (pPair n)) k (N.to_nat size) =? 0
              then Ok (Some (pPred, c, n))
              else scan fuel' h (Some c) (pNext n) k size
          end
      end
  end.

(** [if (pData->pDestroy_) pData->pDestroy_(pPair);] *)
Definition destroy_if_set (d : HashMapData) (p : Pair) : list event :=
  match pDestroy_ d with
  | Some f => [Destroyed f p]
  | None => []
  end.

(** [HashMapInit]; [HashMurMur32] (from [math/hash.h], not among the
    sources) is the routine installed as the default hash, and the three
    booleans are the answers of the three [malloc] calls. *)
Definition HashMapInit (HashMurMur32 : hash_fn) (m_obj m_data m_slots : bool)
  : RtnCode * HashMap :=
  if negb m_obj then (ERR_NOMEM, None)
  else if negb m_data then (ERR_NOMEM, None)
  else if negb m_slots then (ERR_NOMEM, None)
  else
    let count := nth 0 aMagicPrimes 0 in
    (SUCC, Some (mkHashMapData Indeterminate 0 0 count Indeterminate
                   (replicate (Z.to_nat count) None) Indeterminate
                   HashMurMur32 None ∅)).

Definition mresult : Type := RtnCode * HashMap * list event.

Definition HashMapPut (fuel : nat) (self : HashMap) (pPair_ : Pair) (size : N)
    (malloc_ok : bool) : exec mresult :=
  match self with
  | None => Ok (ERR_NOINIT, None, [])
  | Some pData =>
      if (size =? 0)%N then Ok (ERR_KEYSIZE, Some pData, [])
      else
        uiValue <- slot_index pData (key pPair_) size ;;
        head <- slot_read (aSlot_ pData) uiValue ;;
        found <- scan fuel (nodes pData) None head (key pPair_) size ;;
        match found with
        | Some (_, c, n) =>
            let es := destroy_if_set pData (pPair n) in
            Ok (SUCC,
                Some (set_nodes pData
                        (<[c := mkSlotNode pPair_ (pNext n)]> (nodes pData))),
                es)
        | None =>
            if negb malloc_ok then Fault
            else
              let pNew := fresh (dom (nodes pData)) in
              a <- slot_write (aSlot_ pData) uiValue (Some pNew) ;;
              let pData := set_nodes pData
                             (<[pNew := mkSlotNode pPair_ head]> (nodes pData)) in
              let pData := set_aSlot pData a in
              Ok (SUCC, Some (set_iSize pData (wrap32 (iSize_ pData + 1))), [])
        end
  end.

(** [HashMapGet]; [pValue] says whether the output pointer is non-null,
    and the last component of the result is what was stored through it
    ([None]: nothing). *)
Definition HashMapGet (fuel : nat) (self : HashMap) (k : Key) (size : N)
    (pValue : bool) : exec (RtnCode * option Value) :=
  match self with
  | None => Ok (ERR_NOINIT, None)
  | Some pData =>
      if negb pValue then Ok (ERR_GET, None)
      else if (size =? 0)%N then Ok (ERR_KEYSIZE, None)
      else
        uiValue <- slot_index pData k size ;;
        head <- slot_read (aSlot_ pData) uiValue ;;
        found <- scan fuel (nodes pData) None head k size ;;
        match found with
        | Some (_, _, n) => Ok (SUCC, Some (value (pPair n)))
        | None => Ok (NOKEY, Some NULL)
        end
  end.

Definition HashMapFind (fuel : nat) (self : HashMap) (k : Key) (size : N)
  : exec RtnCode :=
  match self with
  | None => Ok ERR_NOINIT
  | Some pData =>
      if (size =? 0)%N then Ok ERR_KEYSIZE
      else
        uiValue <- slot_index pData k size ;;
        head <- slot_read (aSlot_ pData) uiValue ;;
        found <- scan fuel (nodes pData) None head k size ;;
        match found with
        | Some _ => Ok SUCC
        | None => Ok NOKEY
        end
  end.

(** [HashMapRemove]: the found node is unlinked and freed; no statement
    of the function assigns [iSize_]. *)
Definition HashMapRemove (fuel : nat) (self : HashMap) (k : Key) (size : N)
  : exec mresult :=
  match self with
  | None => Ok (ERR_NOINIT, None, [])
  | Some pData =>
      if (size =? 0)%N then Ok (ERR_KEYSIZE, Some pData, [])
      else
        uiValue <- slot_index pData k size ;;
        head <- slot_read (aSlot_ pData) uiValue ;;
        found <- scan fuel (nodes pData) None head k size ;;
        match found with
        | Some (pPred, c, n) =>
            let es := destroy_if_set pData (pPair n) in
            unlinked <-
              match pPred with
              | None =>
                  a <- slot_write (aSlot_ pData) uiValue (pNext n) ;;
                  Ok (set_aSlot pData a)
              | Some p =>
                  match nodes pData !! p with
                  | None => Fault
                  | Some np =>
                      Ok (set_nodes pData
                            (<[p := mkSlotNode (pPair np) (pNext n)]> (nodes pData)))
                  end
              end ;;
            Ok (SUCC, Some (set_nodes unlinked (delete c (nodes unlinked))), es)
        | None => Ok (ERR_NODATA, Some pData, [])
        end
  end.

Definition HashMapSize (self : HashMap) : int32_ret :=
  match self with
  | None => Code ERR_NOINIT
  | Some pData => Count (iSize_ pData)
  end.

(** The [do { ... } while (true)] loop of [HashMapIterate]; the last
    component is what was stored through [ppPair]. *)
Fixpoint iterate_loop (fuel : nat) (pData : HashMapData)
  : exec (RtnCode * HashMapData * option (option Pair)) :=
  match fuel with
  | O => OutOfFuel
  | S fuel' =>
      pIterNode <- load (pIterNode_ pData) ;;
      match pIterNode with
      | Some c =>
          match nodes pData !! c with
          | None => Fault
          | Some n => Ok (SUCC, set_pIterNode pData (pNext n), Some (Some (pPair n)))
          end
      | None =>
          iIterIdx <- load (iIterIdx_ pData) ;;
          let pData := set_iIterIdx pData (wrap32 (iIterIdx + 1)) in
          if wrap32 (iIterIdx + 1) =? iCountSlot_ pData
          then Ok (END, set_bEnd pData true, Some None)
          else
            p <- slot_read (aSlot_ pData) (wrap32 (iIterIdx + 1)) ;;
            iterate_loop fuel' (set_pIterNode pData p)
      end
  end.

(** [HashMapIterate]; [ppPair] says whether the output pointer is
    non-null. *)
Definition HashMapIterate (fuel : nat) (self : HashMap) (bReset : bool)
    (ppPair : bool) : exec (RtnCode * HashMap * option (option Pair)) :=
  match self with
  | None => Ok (ERR_NOINIT, None, None)
  | Some pData =>
      if bReset then
        p <- slot_read (aSlot_ pData) 0 ;;
        let pData := set_iIterIdx pData 0 in
        let pData := set_pIterNode pData p in
        Ok (SUCC, Some (set_bEnd pData false), None)
      else if negb ppPair then Ok (ERR_GET, Some pData, None)
      else
        bEnd <- load (bEnd_ pData) ;;
        if (bEnd : bool) then Ok (END, Some pData, Some None)
        else
          r <- iterate_loop fuel pData ;;
          let '(rc, pData, out) := r in
          Ok (rc, Some pData, out)
  end.

Definition HashMapSetDestroy (self : HashMap) (pFunc : option callback)
  : RtnCode * HashMap :=
  match self with
  | None => (ERR_NOINIT, None)
  | Some pData => (SUCC, Some (set_pDestroy pData pFunc))
  end.

Definition HashMapSetHash (self : HashMap) (pFunc : hash_fn)
  : RtnCode * HashMap :=
  match self with
  | None => (ERR_NOINIT, None)
  | Some pData => (SUCC, Some (set_pHash pData pFunc))
  end.

(** *** What the specification says of a hash map *)

(** An initialized hash map: as many slots as [iCountSlot_] says, each
    the head of a chain of allocated nodes that ends in null. *)
Definition map_ok (d : HashMapData) : Prop :=
  0 < iCountSlot_ d <= INT32_MAX /\
  Z.of_nat (length (aSlot_ d)) = iCountSlot_ d /\
  Forall (fun p => exists l, chain pNext (nodes d) p l) (aSlot_ d).

(** No stored pair has a key byte-equal to [k] over [size] bytes. *)
Definition absent (d : HashMapData) (k : Key) (size : N) : Prop :=
  forall a n, nodes d !! a = Some n ->
              memcmp (key (pPair n)) k (N.to_nat size) <> 0.

(** The cursor of [d] stands in slot [i], on a node from which the rest
    [l] of the slot's chain starts, and the end was not reached. *)
Definition cursor_at (d : HashMapData) (i : Z) (l : list addr) : Prop :=
  exists p, bEnd_ d = Val false /\ iIterIdx_ d = Val i /\ pIterNode_ d = Val p
            /\ chain pNext (nodes d) p l.

(** What one call changes is the cursor only. *)
Definition same_table (d d' : HashMapData) : Prop :=
  nodes d' = nodes d /\ aSlot_ d' = aSlot_ d /\ iCountSlot_ d' = iCountSlot_ d
  /\ iSize_ d' = iSize_ d.

(** [iSize_] counts the nodes on the chains [ls] of the slots. *)
Definition counted (d : HashMapData) (ls : list (list addr)) : Prop :=
  Forall2 (chain pNext (nodes d)) (aSlot_ d) ls
  /\ iSize_ d = Z.of_nat (length (concat ls)).

(** Hash routines used in concrete runs: the sum of the key bytes, and a
    routine that sends every key to slot 0. *)
Definition byte_sum_hash : hash_fn := fun k size =>
  fold_right (fun b acc => Z.of_N (Byte.to_N b) + acc) 0 (take (N.to_nat size) k).
Definition zero_hash : hash_fn := fun _ _ => 0.

(** The map that a successful [HashMapInit] builds. *)
Definition fresh_map (hash : hash_fn) : HashMapData :=
  mkHashMapData Indeterminate 0 0 769 Indeterminate (replicate 769%nat None)
    Indeterminate hash None ∅.

(** A run of [put] calls with one-byte keys, every [malloc] answered. *)
Fixpoint put_all (fuel : nat) (self : HashMap) (ps : list Pair) : exec HashMap :=
  match ps with
  | [] => Ok self
  | p :: ps =>
      r <- HashMapPut fuel self p 1 true ;;
      put_all fuel (snd (fst r)) ps
  end.

(** [n] successive calls [iterate(false, &pair)], with what each call
    returned and stored. *)
Fixpoint iterate_n (n fuel : nat) (self : HashMap)
  : exec (list (RtnCode * option (option Pair))) :=
  match n with
  | O => Ok []
  | S n' =>
      r <- HashMapIterate fuel self false true ;;
      let '(rc, self, out) := r in
      rest <- iterate_n n' fuel self ;;
      Ok ((rc, out) :: rest)
  end.

(** One pass over the map: [iterate(true, ...)], then [iterate(false,
    &pair)] until a call does not return [SUCC], at most [calls] times.
    The result is the pairs stored through [ppPair], in the order of the
    calls, and the map after the last call. *)
Fixpoint drain (calls fuel : nat) (self : HashMap) : exec (list Pair * HashMap) :=
  match calls with
  | O => OutOfFuel
  | S calls' =>
      r <- HashMapIterate fuel self false true ;;
      let '(rc, self, out) := r in
      match rc, out with
      | SUCC, Some (Some p) =>
          rest <- drain calls' fuel self ;;
          Ok (p :: fst rest, snd rest)
      | _, _ => Ok ([], self)
      end
  end.

Definition pass (calls fuel : nat) (self : HashMap) : exec (list Pair * HashMap) :=
  r <- HashMapIterate fuel self true true ;;
  drain calls fuel (snd (fst r)).

(** The pairs of the nodes at the addresses [l]. *)
Definition pairs_at (h : gmap addr SlotNode) (l : list addr) : list Pair :=
  omap (fun a => pPair <$> h !! a) l.

Definition key_a : Key := ["a"%byte].
Definition key_b : Key := ["b"%byte].
Definition key_c : Key := ["c"%byte].
Definition key_d : Key := ["d"%byte].

(** The map [{a:1, b:2, c:3, d:4}] of the concrete scenario of section 8
    of the specification, built under the hash routine [hash]. *)
Definition map_abcd (hash : hash_fn) : exec HashMap :=
  put_all 8 (snd (HashMapInit hash true true true))
    [mkPair key_a 1; mkPair key_b 2; mkPair key_c 3; mkPair key_d 4].

(** *** The buckets of a map *)

(** The slots head the chains [ls], and no node lies on two chains. *)
Definition linked (d : HashMapData) (ls : list (list addr)) : Prop :=
  map_ok d /\ Forall2 (chain pNext (nodes d)) (aSlot_ d) ls /\ NoDup (concat ls).

(** The pairs of the chains [ls], slot by slot, in chain order. *)
Definition buckets (d : HashMapData) (ls : list (list addr)) : list (list Pair) :=
  pairs_at (nodes d) <$> ls.

(** The first pair of [ps] whose key is byte-equal to [k] over [size]
    bytes. *)
Fixpoint first_match (ps : list Pair) (k : Key) (size : N) : option Pair :=
  match ps with
  | [] => None
  | q :: ps =>
      if memcmp (key q) k (N.to_nat size) =? 0 then Some q
      else first_match ps k size
  end.

(** [ps] with the first pair whose key is byte-equal to [k] taken out. *)
Fixpoint bucket_remove (ps : list Pair) (k : Key) (size : N) : list Pair :=
  match ps with
  | [] => []
  | q :: ps =>
      if memcmp (key q) k (N.to_nat size) =? 0 then ps
      else q :: bucket_remove ps k size
  end.

(** [ps] with the first pair whose key is byte-equal to the key of [p]
    replaced by [p]. *)
Fixpoint bucket_replace (ps : list Pair) (p : Pair) (size : N) : list Pair :=
  match ps with
  | [] => []
  | q :: ps =>
      if memcmp (key q) (key p) (N.to_nat size) =? 0 then p :: ps
      else q :: bucket_replace ps p size
  end.

Definition bucket_put (ps : list Pair) (p : Pair) (size : N) : list Pair :=
  match first_match ps (key p) size with
  | Some _ => bucket_replace ps p size
  | None => p :: ps
  end.

(** The map after [put] of the pair (a, 1) into the map that
    [HashMapInit] builds, under the hash routine that sends every key to
    slot 0. *)
Definition map_a : HashMapData :=
  mkHashMapData Indeterminate 1 0 769 Indeterminate
    (<[0%nat := Some 1%positive]> (replicate 769%nat None)) Indeterminate
    zero_hash None {[1%positive := mkSlotNode (mkPair key_a 1) None]}.

(** The chains of [map_a]: the node of a under slot 0. *)
Definition chains_a : list (list addr) :=
  <[0%nat := [1%positive]]> (replicate 769%nat []).

(** [map_a] with the cursor of a started pass on the node of a. *)
Definition map_a_iterating : HashMapData :=
  set_bEnd (set_pIterNode (set_iIterIdx map_a 0) (Some 1%positive)) false.

End HashMap.

(** ** The singly linked list, [List/SinglyLinkedList/singly_linked_list.c] *)

Module SLList.

(** Modelled from the spec: [singly_linked_list.h], which declares the
    two structures, is not among the sources.  A node has the fields the
    code uses, [pItem] and [pNext]; the list has [pHead], [pTail],
    [iSize], [compare] and [destroy] (section 3 of the specification:
    head, tail, size, compare callback, destroy callback), its remaining
    members being the function pointers to the operations below.
    [iSize] is kept as an integer without a width. *)
Record SinglyLinkedNode : Set := mkNode {
  pItem : Item;
  pNext : ptr
}.

Definition compare_fn : Type := Item -> Item -> Z.

Record SinglyLinkedList : Type := mkList {
  pHead : ptr;
  pTail : ptr;
  iSize : Z;
  compare : compare_fn;
  destroy : callback
}.

(** The allocated node blocks. *)
Abbreviation heap := (gmap addr SinglyLinkedNode).

(** One call [self->destroy(item)]. *)
Inductive event : Set :=
| Destroyed (f : callback) (item : Item).

Definition set_pHead (l : SinglyLinkedList) (p : ptr) : SinglyLinkedList :=
  mkList p (pTail l) (iSize l) (compare l) (destroy l).
Definition set_pTail (l : SinglyLinkedList) (p : ptr) : SinglyLinkedList :=
  mkList (pHead l) p (iSize l) (compare l) (destroy l).
Definition set_iSize (l : SinglyLinkedList) (n : Z) : SinglyLinkedList :=
  mkList (pHead l) (pTail l) n (compare l) (destroy l).

(** [p->pNext = q]. *)
Definition store_next (h : heap) (p : ptr) (q : ptr) : exec heap :=
  match p with
  | None => Fault
  | Some a =>
      match h !! a with
      | None => Fault
      | Some n => Ok (<[a := mkNode (pItem n) q]> h)
      end
  end.

(** [_SLListCompare]: the two items compared as [size_t] values. *)
Definition _SLListCompare : compare_fn := fun pSrc pTge =>
  if pSrc =? pTge then 0
  else if pTge <? pSrc then 1 else -1.

(** [_SLListDestroy], which does nothing. *)
Definition _SLListDestroy : callback := default_destroy.

Definition SLListInit : SinglyLinkedList :=
  mkList None None 0 _SLListCompare _SLListDestroy.

(** The loop of [SLListDeinit]. *)
Fixpoint deinit_loop (fuel : nat) (h : heap) (self : SinglyLinkedList)
  : exec (heap * SinglyLinkedList * list event) :=
  match fuel with
  | O => OutOfFuel
  | S fuel' =>
      match pHead self with
      | None => Ok (h, self, [])
      | Some c =>
          match h !! c with
          | None => Fault
          | Some n =>
              r <- deinit_loop fuel' (delete c h) (set_pHead self (pNext n)) ;;
              let '(h, self, es) := r in
              Ok (h, self, Destroyed (destroy self) (pItem n) :: es)
          end
      end
  end.

Definition SLListDeinit (fuel : nat) (h : heap) (self : SinglyLinkedList)
  : exec (heap * SinglyLinkedList * list event) :=
  deinit_loop fuel h self.

(** [SLListAppend]; the result is the pointer it returns. *)
Definition SLListAppend (h : heap) (self : SinglyLinkedList) (item : Item)
    (malloc_ok : bool) : exec (ptr * heap * SinglyLinkedList) :=
  if negb malloc_ok then Ok (None, h, self)
  else
    let new := fresh (dom h) in
    let h := <[new := mkNode item None]> h in
    linked <-
      match pHead self with
      | None => Ok (h, set_pTail (set_pHead self (Some new)) (Some new))
      | Some _ =>
          h <- store_next h (pTail self) (Some new) ;;
          Ok (h, set_pTail self (Some new))
      end ;;
    let '(h, self) := linked in
    Ok (Some new, h, set_iSize self (iSize self + 1)).

(** [for (i = 0 ; i < idx ; i++) { pred = succ; succ = succ->pNext; }],
    by recursion on the number of iterations left (the counter [i]
    itself, an [int], is not kept). *)
Fixpoint walk (h : heap) (n : nat) (pred succ : ptr) : exec (ptr * ptr) :=
  match n with
  | O => Ok (pred, succ)
  | S n' =>
      match succ with
      | None => Fault
      | Some c =>
          match h !! c with
          | None => Fault
          | Some nd => walk h n' (Some c) (pNext nd)
          end
      end
  end.

Definition SLListInsert (h : heap) (self : SinglyLinkedList) (idx : N)
    (item : Item) (malloc_ok : bool) : exec (ptr * heap * SinglyLinkedList) :=
  if Z.of_N idx <=? iSize self then
    w <- walk h (N.to_nat idx) None (pHead self) ;;
    let '(pred, succ) := w in
    if negb malloc_ok then Ok (None, h, self)
    else
      let new := fresh (dom h) in
      let h := <[new := mkNode item succ]> h in
      linked <-
        match pred with
        | Some _ => h <- store_next h pred (Some new) ;; Ok (h, self)
        | None => Ok (h, set_pHead self (Some new))
        end ;;
      let '(h, self) := linked in
      Ok (Some new, h, set_iSize self (iSize self + 1))
  else Ok (None, h, self).

(** [free(curr)] followed by the relinking of [SLListRemove] and
    [SLListPop]:
    [if (pred != NULL) pred->pNext = succ; else self->pHead = succ; self->iSize--;] *)
Definition unlink (h : heap) (self : SinglyLinkedList) (pred : ptr) (curr : addr)
    (succ : ptr) : exec (heap * SinglyLinkedList) :=
  let h := delete curr h in
  linked <-
    match pred with
    | Some _ => h <- store_next h pred succ ;; Ok (h, self)
    | None => Ok (h, set_pHead self succ)
    end ;;
  let '(h, self) := linked in
  Ok (h, set_iSize self (iSize self - 1)).

(** The [while (curr != NULL)] loop of [SLListRemove]. *)
Fixpoint remove_loop (fuel : nat) (h : heap) (self : SinglyLinkedList)
    (item : Item) (pred curr : ptr) : exec (Item * heap * SinglyLinkedList) :=
  match fuel with
  | O => OutOfFuel
  | S fuel' =>
      match curr with
      | None => Ok (NULL, h, self)
      | Some c =>
          match h !! c with
          | None => Fault
          | Some n =>
              if compare self item (pItem n) =? 0 then
                r <- unlink h self pred c (pNext n) ;;
                let '(h, self) := r in
                Ok (pItem n, h, self)
              else remove_loop fuel' h self item (Some c) (pNext n)
          end
      end
  end.

(** [SLListRemove]; the result is the item it returns, [NULL] when no
    node compares equal. *)
Definition SLListRemove (fuel : nat) (h : heap) (self : SinglyLinkedList)
    (item : Item) : exec (Item * heap * SinglyLinkedList) :=
  remove_loop fuel h self item None (pHead self).

Definition SLListPop (h : heap) (self : SinglyLinkedList) (idx : N)
  : exec (Item * heap * SinglyLinkedList) :=
  if Z.of_N idx <? iSize self then
    w <- walk h (N.to_nat idx) None (pHead self) ;;
    let '(pred, curr) := w in
    match curr with
    | None => Fault
    | Some c =>
        match h !! c with
        | None => Fault
        | Some n =>
            r <- unlink h self pred c (pNext n) ;;
            let '(h, self) := r in
            Ok (pItem n, h, self)
        end
    end
  else Ok (NULL, h, self).

Fixpoint search_loop (fuel : nat) (h : heap) (self : SinglyLinkedList)
    (item : Item) (curr : ptr) : exec bool :=
  match fuel with
  | O => OutOfFuel
  | S fuel' =>
      match curr with
      | None => Ok false
      | Some c =>
          match h !! c with
          | None => Fault
          | Some n =>
              if compare self item (pItem n) =? 0 then Ok true
              else search_loop fuel' h self item (pNext n)
          end
      end
  end.

Definition SLListSearch (fuel : nat) (h : heap) (self : SinglyLinkedList)
    (item : Item) : exec bool :=
  search_loop fuel h self item (pHead self).

(** The loop of [SLListReverse]:
    [while (self->pHead != NULL) { succ = self->pHead->pNext;
       self->pHead->pNext = pred; pred = self->pHead; self->pHead = succ; }] *)
Fixpoint reverse_loop (fuel : nat) (h : heap) (head pred : ptr)
  : exec (heap * ptr) :=
  match fuel with
  | O => OutOfFuel
  | S fuel' =>
      match head with
      | None => Ok (h, pred)
      | Some c =>
          match h !! c with
          | None => Fault
          | Some n =>
              reverse_loop fuel' (<[c := mkNode (pItem n) pred]> h) (pNext n) (Some c)
          end
      end
  end.

(** [SLListReverse]: after the loop, [self->pHead = pred]; [pTail] is not
    assigned. *)
Definition SLListReverse (fuel : nat) (h : heap) (self : SinglyLinkedList)
  : exec (heap * SinglyLinkedList) :=
  r <- reverse_loop fuel h (pHead self) None ;;
  let '(h, pred) := r in
  Ok (h, set_pHead self pred).

(** *** What the specification says of a list *)

(** The invariant of section 3 of the specification: [iSize] is the
    number of nodes reachable from [pHead], and [pTail] is the last of
    them, or null when there is none. *)
Definition invariant (h : heap) (self : SinglyLinkedList) : Prop :=
  exists l, chain pNext h (pHead self) l
            /\ iSize self = Z.of_nat (length l)
            /\ pTail self = last l.

(** The four operations that unlink or relink nodes leave [pTail] as
    they found it. *)
Definition tail_untouched (h : heap) (self : SinglyLinkedList) : Prop :=
  (forall idx item ok,
     match SLListInsert h self idx item ok with
     | Ok (_, _, self') => pTail self' = pTail self
     | _ => True
     end)
  /\ (forall fuel item,
        match SLListRemove fuel h self item with
        | Ok (_, _, self') => pTail self' = pTail self
        | _ => True
        end)
  /\ (forall idx,
        match SLListPop h self idx with
        | Ok (_, _, self') => pTail self' = pTail self
        | _ => True
        end)
  /\ (forall fuel,
        match SLListReverse fuel h self with
        | Ok (_, self') => pTail self' = pTail self
        | _ => True
        end).

(** The items of the nodes at the addresses [l]. *)
Definition items_at (h : heap) (l : list addr) : list (option Item) :=
  (fun a => pItem <$> h !! a) <$> l.

(** A run of [append] calls, every [malloc] answered. *)
Fixpoint append_all (h : heap) (self : SinglyLinkedList) (xs : list Item)
  : exec (heap * SinglyLinkedList) :=
  match xs with
  | [] => Ok (h, self)
  | x :: xs =>
      r <- SLListAppend h self x true ;;
      let '(_, h, self) := r in
      append_all h self xs
  end.

(** The list of the items 10 and 20, built on an empty heap, and the
    states that the operations lead to from it. *)
Definition list_10_20 : exec (heap * SinglyLinkedList) :=
  append_all ∅ SLListInit [10; 20].

Definition list_with (head tail : ptr) (size : Z) : SinglyLinkedList :=
  mkList head tail size _SLListCompare _SLListDestroy.

Definition heap_two : heap :=
  list_to_map [(1%positive, mkNode 10 (Some 2%positive));
               (2%positive, mkNode 20 None)].
Definition self_two : SinglyLinkedList :=
  list_with (Some 1%positive) (Some 2%positive) 2.

Definition heap_popped : heap := list_to_map [(1%positive, mkNode 10 None)].
Definition self_popped : SinglyLinkedList :=
  list_with (Some 1%positive) (Some 2%positive) 1.

Definition heap_reversed : heap :=
  list_to_map [(1%positive, mkNode 10 None);
               (2%positive, mkNode 20 (Some 1%positive))].
Definition self_reversed : SinglyLinkedList :=
  list_with (Some 2%positive) (Some 2%positive) 2.

Definition heap_inserted : heap :=
  list_to_map [(1%positive, mkNode 10 (Some 2%positive));
               (2%positive, mkNode 20 (Some 3%positive));
               (3%positive, mkNode 30 None)].
Definition self_inserted : SinglyLinkedList :=
  list_with (Some 1%positive) (Some 2%positive) 3.

Definition heap_reversed_appended : heap :=
  list_to_map [(1%positive, mkNode 10 None);
               (2%positive, mkNode 20 (Some 3%positive));
               (3%positive, mkNode 30 None)].
Definition self_reversed_appended : SinglyLinkedList :=
  list_with (Some 2%positive) (Some 3%positive) 3.

(** The nodes reachable from [pHead] are [l], and [iSize] counts them;
    nothing is said of [pTail]. *)
Definition listed (h : heap) (self : SinglyLinkedList) (l : list addr) : Prop :=
  chain pNext h (pHead self) l /\ iSize self = Z.of_nat (length l).

End SLList.

(** * Properties *)

(** ** Arithmetic and list facts shared by the proofs *)

Lemma wrap32_id z : -2147483648 <= z <= INT32_MAX -> wrap32 z = z.
Proof.
  unfold wrap32, INT32_MAX. intros H.
  rewrite Z.mod_small by lia. lia.
Qed.

(** ** Chains of linked nodes *)

Section ChainFacts.
Context {N : Type} (next : N -> ptr).
Implicit Types (h : gmap addr N) (p : ptr) (l : list addr).

Lemma chain_functional h p l l' :
  chain next h p l -> chain next h p l' -> l = l'.
Proof.
  intros H. revert l'. induction H as [|a n l Ha _ IH]; intros l' H'.
  - by inversion H'.
  - inversion H' as [|a' n' l'' Ha' Hc']; subst.
    rewrite Ha in Ha'. injection Ha' as <-. f_equal. by apply IH.
Qed.

Lemma chain_allocated h p l a :
  chain next h p l -> a ∈ l -> is_Some (h !! a).
Proof.
  induction 1 as [|b n l Hb _ IH]; intros Hin.
  - by apply elem_of_nil in Hin.
  - apply elem_of_cons in Hin as [->|Hin]; [by eexists|by apply IH].
Qed.

Lemma chain_suffix h p l1 a l2 :
  chain next h p (l1 ++ a :: l2) -> chain next h (Some a) (a :: l2).
Proof.
  revert p. induction l1 as [|b l1 IH]; intros p H; simpl in H.
  - inversion H; subst. by econstructor.
  - inversion H; subst. by eapply IH.
Qed.

Lemma chain_NoDup h p l : chain next h p l -> NoDup l.
Proof.
  induction 1 as [|a n l Ha Hc IH]; [constructor|].
  constructor; [|done]. intros Hin.
  apply list_elem_of_split in Hin as (l1 & l2 & ->).
  pose proof (chain_suffix _ _ _ _ _ Hc) as Hs.
  pose proof (chain_functional _ _ _ _ (chain_cons next h a n _ Ha Hc) Hs) as Heq.
  apply (f_equal length) in Heq. simpl in Heq. rewrite length_app in Heq.
  simpl in Heq. lia.
Qed.

Lemma chain_length h p l : chain next h p l -> (length l <= size h)%nat.
Proof.
  intros H. rewrite <- size_dom.
  change (size (dom h)) with (length (elements (dom h))).
  apply submseteq_length, NoDup_submseteq; [by eapply chain_NoDup|].
  intros a Ha. apply elem_of_elements, elem_of_dom. by eapply chain_allocated.
Qed.

(** Writing a block that the chain does not visit leaves the chain. *)
Lemma chain_insert_off h p l a n :
  a ∉ l -> chain next h p l -> chain next (<[a := n]> h) p l.
Proof.
  intros Hna H. induction H as [|b m l Hb _ IH]; [constructor|].
  apply not_elem_of_cons in Hna as [Hab Hna].
  econstructor; [by rewrite lookup_insert_ne|by apply IH].
Qed.

Lemma chain_insert_fresh h p l a n :
  h !! a = None -> chain next h p l -> chain next (<[a := n]> h) p l.
Proof.
  intros Hf H. apply chain_insert_off; [|done].
  intros Hin. destruct (chain_allocated _ _ _ _ H Hin) as [? ?]. congruence.
Qed.

(** Writing a block without changing its [next] field leaves every chain. *)
Lemma chain_insert_same_next h p l a n n' :
  h !! a = Some n -> next n' = next n ->
  chain next h p l -> chain next (<[a := n']> h) p l.
Proof.
  intros Ha Hn H. induction H as [|b m l Hb Hc IH]; [constructor|].
  destruct (decide (a = b)) as [->|Hne].
  - rewrite Ha in Hb. injection Hb as <-.
    econstructor; [by rewrite lookup_insert_eq|]. by rewrite Hn.
  - econstructor; [by rewrite lookup_insert_ne|done].
Qed.

Lemma chain_delete_off h p l a :
  a ∉ l -> chain next h p l -> chain next (delete a h) p l.
Proof.
  intros Hna H. induction H as [|b m l Hb _ IH]; [constructor|].
  apply not_elem_of_cons in Hna as [Hab Hna].
  econstructor; [by rewrite lookup_delete_ne|by apply IH].
Qed.
End ChainFacts.

(** ** The vector *)

Module VectorSpec.
Import Vector.

Lemma vec_ok_read d i :
  vec_ok d -> 0 <= i < iSize_ d ->
  exists x, read (aItem_ d) i = Ok x /\ aItem_ d !! Z.to_nat i = Some (Some x).
Proof.
  intros (Hs & Hc & Hl & Hall & _) Hi.
  unfold read. destruct (Z.ltb_spec i 0); [lia|].
  assert (Hlt : (Z.to_nat i < length (take (Z.to_nat (iSize_ d)) (aItem_ d)))%nat).
  { rewrite length_take. lia. }
  apply lookup_lt_is_Some_2 in Hlt as [o Ho].
  pose proof (Forall_lookup_1 _ _ _ _ Hall Ho) as [x ->].
  rewrite lookup_take_lt in Ho by lia.
  exists x. by rewrite Ho.
Qed.

Lemma open_gap (a : list (option Item)) (i s : nat) v :
  (i <= s)%nat -> (s < length a)%nat ->
  take (S s) (<[i := v]> (take (S i) a ++ take (s - i) (drop i a)
                          ++ drop (S i + (s - i)) a))
  = take i (take s a) ++ v :: drop i (take s a).
Proof.
  intros Hi Hs.
  destruct (lookup_lt_is_Some_2 a i) as [y Hy]; [lia|].
  rewrite (take_S_r _ _ _ Hy), <- app_assoc.
  rewrite insert_app_r_alt by (rewrite length_take; lia).
  rewrite length_take, Nat.min_l by lia.
  replace (i - i)%nat with 0%nat by lia. simpl.
  rewrite take_take, Nat.min_l by lia.
  rewrite skipn_firstn_comm.
  change (take i a ++ v :: ?t ++ ?d) with (take i a ++ (v :: t) ++ d).
  rewrite app_assoc. apply take_app_length'.
  rewrite length_app, length_take. simpl. rewrite length_take, length_drop. lia.
Qed.

Lemma close_gap (a : list (option Item)) (i s : nat) :
  (i < s)%nat -> (s <= length a)%nat ->
  take (s - 1) (take i a ++ take (s - i - 1) (drop (S i) a)
                ++ drop (i + (s - i - 1)) a)
  = take i (take s a) ++ drop (S i) (take s a).
Proof.
  intros Hi Hs.
  rewrite take_take, Nat.min_l by lia.
  rewrite skipn_firstn_comm.
  replace (s - S i)%nat with (s - i - 1)%nat by lia.
  rewrite app_assoc. apply take_app_length'.
  rewrite length_app, length_take, length_take, length_drop. lia.
Qed.

Lemma grown_ok d :
  vec_ok d -> iCapacity_ d * 2 <= INT32_MAX ->
  vec_ok (grown d) /\ iSize_ (grown d) = iSize_ d /\ items (grown d) = items d
  /\ pDestroy_ (grown d) = pDestroy_ d.
Proof.
  intros (Hs & Hc & Hl & Hall & Hd) Hmax. unfold grown, vec_ok, items. simpl.
  assert (Ht : take (Z.to_nat (iSize_ d))
                 (aItem_ d ++ replicate (Z.to_nat (iCapacity_ d)) None)
               = take (Z.to_nat (iSize_ d)) (aItem_ d)).
  { apply take_app_le. lia. }
  rewrite Ht, length_app, length_replicate. repeat split; try done; lia.
Qed.

Lemma grow_if_full_cases d ok :
  vec_ok d ->
  (iSize_ d < iCapacity_ d /\ grow_if_full d ok = Ok (SUCC, d, []))
  \/ (iSize_ d = iCapacity_ d /\ ok = true /\ iCapacity_ d * 2 <= INT32_MAX
      /\ grow_if_full d ok = Ok (SUCC, grown d, []))
  \/ (iSize_ d = iCapacity_ d /\ (ok = false \/ INT32_MAX < iCapacity_ d * 2)
      /\ grow_if_full d ok = Ok (ERR_NOMEM, d, [])).
Proof.
  intros (Hs & Hc & Hl & Hall & Hd). unfold grow_if_full.
  destruct (Z.eqb_spec (iSize_ d) (iCapacity_ d)) as [Heq|Hne]; [|left; split; [lia|done]].
  right. unfold _VectorReisze. rewrite andb_false_r. simpl.
  destruct (Z.le_gt_cases (iCapacity_ d * 2) INT32_MAX) as [Hle|Hgt].
  - rewrite wrap32_id by (unfold INT32_MAX in *; lia).
    destruct ok.
    + left. split; [lia|]. split; [done|]. split; [done|]. unfold realloc.
      destruct (Z.ltb_spec (iCapacity_ d * 2) 0); [lia|]. simpl.
      rewrite take_ge by lia. unfold grown. repeat f_equal. lia.
    + right. split; [lia|]. split; [by left|]. unfold realloc. by rewrite orb_true_r.
  - right. split; [lia|]. split; [right; lia|]. unfold realloc.
    assert (wrap32 (iCapacity_ d * 2) < 0) as Hneg.
    { unfold wrap32, INT32_MAX in *.
      replace (iCapacity_ d * 2 + 2147483648)
        with ((iCapacity_ d * 2 - 2147483648) + 1 * 4294967296) by lia.
      rewrite Z_mod_plus_full, Z.mod_small by lia. lia. }
    destruct (Z.ltb_spec (wrap32 (iCapacity_ d * 2)) 0); [done|lia].
Qed.

(** What an insertion without growth does to the item array. *)
Lemma insert_room d x i ok :
  vec_ok d -> iSize_ d < iCapacity_ d -> 0 <= i <= iSize_ d ->
  exists d', VectorInsert (Some d) x i ok = Ok (Val SUCC, Some d', [])
    /\ vec_ok d' /\ iSize_ d' = iSize_ d + 1 /\ iCapacity_ d' = iCapacity_ d
    /\ pDestroy_ d' = pDestroy_ d
    /\ items d' = take (Z.to_nat i) (items d) ++ Some x :: drop (Z.to_nat i) (items d).
Proof.
  intros Hok Hroom Hi. pose proof Hok as (Hs & Hc & Hl & Hall & Hd).
  unfold VectorInsert, grow_if_full.
  destruct (Z.ltb_spec i 0); [lia|]. destruct (Z.ltb_spec (iSize_ d) i); [lia|].
  destruct (Z.eqb_spec (iSize_ d) (iCapacity_ d)); [lia|]. simpl.
  rewrite !wrap32_id by (unfold INT32_MAX in *; lia).
  set (ns := Z.to_nat (iSize_ d)). set (ni := Z.to_nat i).
  assert (Hgap : forall a', 
     (if 0 <? iSize_ d - i then memmove (aItem_ d) (i + 1) i (iSize_ d - i) else Ok (aItem_ d)) = Ok a' ->
     take (S ns) (<[ni := Some x]> a') = take ni (take ns (aItem_ d)) ++ Some x :: drop ni (take ns (aItem_ d))
     /\ length a' = length (aItem_ d)).
  { intros a'. destruct (Z.ltb_spec 0 (iSize_ d - i)).
    - unfold memmove.
      destruct (Z.ltb_spec (i+1) 0); [lia|]. destruct (Z.ltb_spec i 0); [lia|].
      destruct (Z.ltb_spec (iSize_ d - i) 0); [lia|].
      destruct (Z.ltb_spec (Z.of_nat (length (aItem_ d))) (i + 1 + (iSize_ d - i))); [lia|].
      destruct (Z.ltb_spec (Z.of_nat (length (aItem_ d))) (i + (iSize_ d - i))); [lia|].
      simpl. intros [= <-]. split.
      + replace (Z.to_nat (i + 1)) with (S ni) by lia.
        replace (Z.to_nat (iSize_ d - i)) with (ns - ni)%nat by lia.
        replace (Z.to_nat (i + 1 + (iSize_ d - i))) with (S ni + (ns - ni))%nat by lia.
        apply open_gap; lia.
      + rewrite !length_app, !length_take, !length_drop. lia.
    - intros [= <-]. split; [|done]. assert (ni = ns) as -> by lia.
      destruct (lookup_lt_is_Some_2 (aItem_ d) ns) as [y Hy]; [lia|].
      rewrite take_take, Nat.min_id, drop_ge by (rewrite length_take; lia).
      erewrite take_S_r by (rewrite list_lookup_insert_eq; [done|lia]).
      by rewrite take_insert_ge by lia. }
  destruct (if 0 <? iSize_ d - i then _ else _) as [a'| |] eqn:Hmv.
  2,3: exfalso; destruct (Z.ltb_spec 0 (iSize_ d - i)); [|done];
       unfold memmove in Hmv;
       repeat (match type of Hmv with context [?x <? ?y] => destruct (Z.ltb_spec x y); try lia end);
       simpl in Hmv; done.
  destruct (Hgap a' eq_refl) as [Hitems Hlen]. simpl.
  unfold write. rewrite Hlen.
  destruct (Z.ltb_spec i 0); [lia|].
  destruct (Z.leb_spec (Z.of_nat (length (aItem_ d))) i); [lia|]. simpl.
  eexists. split; [reflexivity|].
  unfold vec_ok, items; simpl.
  replace (Z.to_nat (iSize_ d + 1)) with (S ns) by lia. fold ni ns.
  rewrite Hitems, length_insert, Hlen.
  repeat split; try lia; try done.
  apply Forall_app. split.
  - apply Forall_take. done.
  - constructor; [by eexists|]. by apply Forall_drop.
Qed.

Lemma insert_cases d x i ok :
  vec_ok d -> 0 <= i <= iSize_ d ->
  (exists d', VectorInsert (Some d) x i ok = Ok (Val SUCC, Some d', [])
     /\ vec_ok d' /\ iSize_ d' = iSize_ d + 1 /\ pDestroy_ d' = pDestroy_ d
     /\ items d' = take (Z.to_nat i) (items d) ++ Some x :: drop (Z.to_nat i) (items d))
  \/ (iSize_ d = iCapacity_ d /\ (ok = false \/ INT32_MAX < iCapacity_ d * 2)
      /\ VectorInsert (Some d) x i ok = Ok (Val ERR_NOMEM, Some d, [])).
Proof.
  intros Hok Hi.
  destruct (grow_if_full_cases d ok Hok) as [[Hlt Hg]|[(Heq & -> & Hmax & Hg)|(Heq & Hwhy & Hg)]].
  - left. destruct (insert_room d x i ok Hok Hlt Hi) as (d' & H1 & H2 & H3 & H4 & H5 & H6).
    exists d'. done.
  - left. destruct (grown_ok d Hok Hmax) as (Hok' & Hsz & Hit & Hds).
    destruct (insert_room (grown d) x i true Hok') as (d' & H1 & H2 & H3 & H4 & H5 & H6).
    { pose proof Hok as (? & ? & ? & ?). unfold grown; simpl. lia. }
    { lia. }
    exists d'. rewrite <- Hit, <- Hds, <- Hsz.
    split; [|split; [exact H2|split; [done|split; done]]].
    rewrite <- H1. unfold VectorInsert. rewrite Hg, Hsz.
    destruct (Z.ltb_spec i 0); [lia|]. destruct (Z.ltb_spec (iSize_ d) i); [lia|].
    simpl. unfold grow_if_full.
    destruct (Z.eqb_spec (iSize_ (grown d)) (iCapacity_ (grown d))) as [E|_]; [|done].
    exfalso. pose proof Hok as (? & ? & ? & ?). unfold grown in E; simpl in E. lia.
  - right. repeat split; try done. unfold VectorInsert. rewrite Hg.
    destruct (Z.ltb_spec i 0); [lia|]. destruct (Z.ltb_spec (iSize_ d) i); [lia|].
    done.
Qed.

Lemma insert_out_of_range d x i ok :
  ~ (0 <= i <= iSize_ d) ->
  VectorInsert (Some d) x i ok = Ok (Val ERR_IDX, Some d, []).
Proof.
  intros Hi. unfold VectorInsert.
  destruct (Z.ltb_spec i 0); [done|]. destruct (Z.ltb_spec (iSize_ d) i); [done|lia].
Qed.

Lemma get_in_range d i :
  vec_ok d -> 0 <= i < iSize_ d ->
  exists x, VectorGet (Some d) i = Ok (SUCC, Some x)
            /\ items d !! Z.to_nat i = Some (Some x).
Proof.
  intros Hok Hi. destruct (vec_ok_read d i Hok Hi) as (x & Hr & Hl).
  exists x. unfold VectorGet, items. rewrite Hr.
  destruct (Z.ltb_spec i 0); [lia|]. destruct (Z.leb_spec (iSize_ d) i); [lia|].
  split; [done|]. rewrite lookup_take_lt by lia. done.
Qed.

Lemma get_out_of_range d i :
  ~ (0 <= i < iSize_ d) -> VectorGet (Some d) i = Ok (ERR_IDX, None).
Proof.
  intros Hi. unfold VectorGet.
  destruct (Z.ltb_spec i 0); [done|]. destruct (Z.leb_spec (iSize_ d) i); [done|lia].
Qed.

Lemma delete_in_range d i bClean :
  vec_ok d -> 0 <= i < iSize_ d ->
  exists d' f y,
    pDestroy_ d = Some f /\ items d !! Z.to_nat i = Some (Some y)
    /\ VectorDelete (Some d) i bClean
       = Ok (Val SUCC, Some d', if bClean then [Destroyed f y] else [])
    /\ vec_ok d' /\ iSize_ d' = iSize_ d - 1 /\ iCapacity_ d' = iCapacity_ d
    /\ pDestroy_ d' = pDestroy_ d
    /\ items d' = take (Z.to_nat i) (items d) ++ drop (S (Z.to_nat i)) (items d).
Proof.
  intros Hok Hi. pose proof Hok as (Hs & Hc & Hl & Hall & [f Hf]).
  destruct (vec_ok_read d i Hok Hi) as (y & Hr & Hy).
  unfold VectorDelete.
  destruct (Z.ltb_spec i 0); [lia|]. destruct (Z.leb_spec (iSize_ d) i); [lia|].
  simpl. rewrite (wrap32_id (iSize_ d - i)), (wrap32_id (iSize_ d - i - 1)),
    (wrap32_id (iSize_ d - 1)) by (unfold INT32_MAX in *; lia).
  assert (Hes : (if bClean then item <- read (aItem_ d) i;; call_destroy d item else Ok [])
                = Ok (if bClean then [Destroyed f y] else [])).
  { destruct bClean; [|done]. rewrite Hr. simpl. unfold call_destroy. by rewrite Hf. }
  rewrite Hes. simpl.
  set (ns := Z.to_nat (iSize_ d)). set (ni := Z.to_nat i).
  assert (Hgap : exists a',
    (if 0 <? iSize_ d - i - 1 then memmove (aItem_ d) i (i + 1) (iSize_ d - i - 1)
     else Ok (aItem_ d)) = Ok a'
    /\ take (ns - 1) a' = take ni (take ns (aItem_ d)) ++ drop (S ni) (take ns (aItem_ d))
    /\ length a' = length (aItem_ d)).
  { destruct (Z.ltb_spec 0 (iSize_ d - i - 1)).
    - unfold memmove.
      destruct (Z.ltb_spec i 0); [lia|]. destruct (Z.ltb_spec (i+1) 0); [lia|].
      destruct (Z.ltb_spec (iSize_ d - i - 1) 0); [lia|].
      destruct (Z.ltb_spec (Z.of_nat (length (aItem_ d))) (i + (iSize_ d - i - 1))); [lia|].
      destruct (Z.ltb_spec (Z.of_nat (length (aItem_ d))) (i + 1 + (iSize_ d - i - 1))); [lia|].
      simpl. eexists. split; [reflexivity|]. split.
      + replace (Z.to_nat (i + 1)) with (S ni) by lia.
        replace (Z.to_nat (iSize_ d - i - 1)) with (ns - ni - 1)%nat by lia.
        replace (Z.to_nat (i + (iSize_ d - i - 1))) with (ni + (ns - ni - 1))%nat by lia.
        apply close_gap; lia.
      + rewrite !length_app, !length_take, !length_drop. lia.
    - exists (aItem_ d). split; [done|]. split; [|done].
      assert (ns = S ni) as Hn by lia. rewrite Hn.
      rewrite take_take, Nat.min_l, drop_ge, app_nil_r by (rewrite ?length_take; lia).
      f_equal. lia. }
  destruct Hgap as (a' & -> & Hitems & Hlen). simpl.
  exists (set_size (set_items d a') (iSize_ d - 1)), f, y.
  split; [done|]. split; [unfold items; rewrite lookup_take_lt by lia; done|].
  split; [done|].
  unfold vec_ok, items; simpl.
  replace (Z.to_nat (iSize_ d - 1)) with (ns - 1)%nat by lia. fold ni ns.
  rewrite Hitems, Hlen.
  repeat split; try lia; try done.
  apply Forall_app. split.
  - by apply Forall_take.
  - by apply Forall_drop.
Qed.

Lemma delete_out_of_range d i bClean :
  ~ (0 <= i < iSize_ d) ->
  VectorDelete (Some d) i bClean = Ok (Val ERR_IDX, Some d, []).
Proof.
  intros Hi. unfold VectorDelete.
  destruct (Z.ltb_spec i 0); [done|]. destruct (Z.leb_spec (iSize_ d) i); [done|lia].
Qed.

Lemma set_in_range d x i bClean :
  vec_ok d -> 0 <= i < iSize_ d ->
  exists d' f y,
    pDestroy_ d = Some f /\ items d !! Z.to_nat i = Some (Some y)
    /\ VectorSet (Some d) x i bClean
       = Ok (Val SUCC, Some d', if bClean then [Destroyed f y] else [])
    /\ vec_ok d' /\ iSize_ d' = iSize_ d /\ iCapacity_ d' = iCapacity_ d
    /\ items d' = <[Z.to_nat i := Some x]> (items d).
Proof.
  intros Hok Hi. pose proof Hok as (Hs & Hc & Hl & Hall & [f Hf]).
  destruct (vec_ok_read d i Hok Hi) as (y & Hr & Hy).
  unfold VectorSet.
  destruct (Z.ltb_spec i 0); [lia|]. destruct (Z.leb_spec (iSize_ d) i); [lia|].
  simpl.
  assert (Hes : (if bClean then old <- read (aItem_ d) i;; call_destroy d old else Ok [])
                = Ok (if bClean then [Destroyed f y] else [])).
  { destruct bClean; [|done]. rewrite Hr. simpl. unfold call_destroy. by rewrite Hf. }
  rewrite Hes. simpl. unfold write.
  destruct (Z.ltb_spec i 0); [lia|].
  destruct (Z.leb_spec (Z.of_nat (length (aItem_ d))) i); [lia|]. simpl.
  eexists _, f, y. split; [done|].
  split; [unfold items; rewrite lookup_take_lt by lia; done|].
  split; [reflexivity|].
  unfold vec_ok, items; simpl. rewrite length_insert, take_insert_lt by lia.
  repeat split; try lia; try done.
  apply Forall_insert; [done|by eexists].
Qed.

Lemma set_out_of_range d x i bClean :
  ~ (0 <= i < iSize_ d) ->
  VectorSet (Some d) x i bClean = Ok (Val ERR_IDX, Some d, []).
Proof.
  intros Hi. unfold VectorSet.
  destruct (Z.ltb_spec i 0); [done|]. destruct (Z.leb_spec (iSize_ d) i); [done|lia].
Qed.

Lemma destroy_from_spec d f k :
  pDestroy_ d = Some f ->
  forall i ys, 0 <= i ->
    take k (drop (Z.to_nat i) (aItem_ d)) = Some <$> ys -> length ys = k ->
    destroy_from d k i = Ok (Destroyed f <$> ys).
Proof.
  intros Hf. induction k as [|k IH]; intros i ys Hi Hys Hlen.
  - destruct ys; [done|discriminate].
  - destruct ys as [|y ys]; [discriminate|]. simpl in Hlen.
    destruct (drop (Z.to_nat i) (aItem_ d)) as [|o rest] eqn:Hd; [discriminate|].
    simpl in Hys. injection Hys as -> Hys.
    assert (Hlk : aItem_ d !! Z.to_nat i = Some (Some y)).
    { rewrite <- (Nat.add_0_r (Z.to_nat i)), <- lookup_drop, Hd. done. }
    simpl. unfold read. destruct (Z.ltb_spec i 0); [lia|]. rewrite Hlk. simpl.
    unfold call_destroy. rewrite Hf. simpl.
    rewrite (IH (i + 1) ys); [done|lia| |lia].
    replace (Z.to_nat (i + 1)) with (Z.to_nat i + 1)%nat by lia.
    by rewrite <- drop_drop, Hd.
Qed.

Lemma resize_shrink_clean d n ok :
  vec_ok d -> 0 <= n < iSize_ d ->
  exists f trailing d',
    pDestroy_ d = Some f
    /\ drop (Z.to_nat n) (items d) = Some <$> trailing
    /\ VectorResize (Some d) n true ok
        = Ok (Val (if ok then SUCC else ERR_NOMEM), Some d', Destroyed f <$> trailing)
    /\ iSize_ d' = n
    /\ iCapacity_ d' = (if ok then n else iCapacity_ d)
    /\ items d' = take (Z.to_nat n) (items d).
Proof.
  intros Hok Hn. pose proof Hok as (Hs & Hc & Hl & Hall & [f Hf]).
  assert (Htr : exists trailing,
            drop (Z.to_nat n) (items d) = Some <$> trailing).
  { assert (Forall is_Some (drop (Z.to_nat n) (items d))) as HF
      by (by apply Forall_drop).
    induction HF as [|o l [y ->] _ [tr ->]]; [by exists []|by exists (y :: tr)]. }
  destruct Htr as [trailing Htr]. exists f, trailing.
  assert (Hlen : length trailing = Z.to_nat (iSize_ d - n)).
  { apply (f_equal length) in Htr. unfold items in Htr.
    rewrite length_drop, length_take, length_fmap in Htr. lia. }
  unfold VectorResize, _VectorReisze.
  destruct (Z.ltb_spec n (iSize_ d)); [|lia]. simpl.
  rewrite (destroy_from_spec d f _ Hf n trailing); [|lia| |done].
  2:{ rewrite <- Htr. unfold items. rewrite skipn_firstn_comm. f_equal. lia. }
  simpl. unfold realloc.
  destruct (Z.ltb_spec n 0); [lia|]. destruct ok; simpl.
  - eexists. split; [done|]. split; [done|]. split; [reflexivity|].
    unfold items; simpl. split; [done|]. split; [done|].
    replace (Z.to_nat n - length (aItem_ d))%nat with 0%nat by lia.
    simpl. rewrite app_nil_r, !take_take. f_equal. lia.
  - eexists. split; [done|]. split; [done|]. split; [reflexivity|].
    unfold items; simpl. split; [done|]. split; [done|].
    rewrite take_take. f_equal. lia.
Qed.


Lemma vector_init_ok : exists d, VectorInit true true true = (SUCC, Some d) /\ vec_ok d.
Proof.
  eexists. split; [reflexivity|].
  unfold vec_ok, INT32_MAX, DEFAULT_CAPACITY. simpl. repeat split; try lia; eauto.
Qed.

(** Claim C3.  On a non-null handle [VectorSetDestroy] installs the
    given callback, and its result is not the success marker: the body
    reaches its end without a [return], so the caller receives an
    indeterminate value.  Only the null handle gets a return code. *)
Theorem set_destroy_returns_no_value (d : VectorData) (pFunc : option callback) :
  VectorSetDestroy (Some d) pFunc
  = Ok (Indeterminate, Some (set_destroy d pFunc), [])
  /\ pDestroy_ (set_destroy d pFunc) = pFunc
  /\ VectorSetDestroy None pFunc = Ok (Val ERR_NOINIT, None, []).
Proof. done. Qed.

(** Claim C6 as stated fails: on a full vector whose reallocation is
    refused, an insertion at a valid index does not succeed; it returns
    [ERR_NOMEM]. *)
Lemma insert_in_range_can_fail :
  vec_ok vec_full /\ 0 <= 0 <= iSize_ vec_full
  /\ VectorInsert (Some vec_full) 9 0 false = Ok (Val ERR_NOMEM, Some vec_full, []).
Proof.
  unfold vec_ok, INT32_MAX. simpl. repeat split; try lia; eauto;
    try (repeat constructor; eauto).
Qed.

(** An insertion at a valid index fails exactly when the growth of the
    full vector is refused: it then returns [ERR_NOMEM] and hands back
    the vector as it was. *)
Lemma insert_refused d x i ok :
  vec_ok d -> 0 <= i <= iSize_ d ->
  iSize_ d = iCapacity_ d -> ok = false \/ INT32_MAX < iCapacity_ d * 2 ->
  VectorInsert (Some d) x i ok = Ok (Val ERR_NOMEM, Some d, []).
Proof.
  intros Hok Hi Hfull Hwhy.
  destruct (grow_if_full_cases d ok Hok)
    as [[Hlt _]|[(_ & Htrue & Hmax & _)|(_ & _ & Hg)]].
  - lia.
  - destruct Hwhy as [Hfalse|Hgt]; [congruence|lia].
  - unfold VectorInsert. rewrite Hg.
    destruct (Z.ltb_spec i 0); [lia|]. destruct (Z.ltb_spec (iSize_ d) i); [lia|].
    done.
Qed.

Lemma insert_granted d x i ok :
  vec_ok d -> 0 <= i <= iSize_ d ->
  iSize_ d < iCapacity_ d \/ (ok = true /\ iCapacity_ d * 2 <= INT32_MAX) ->
  exists d', VectorInsert (Some d) x i ok = Ok (Val SUCC, Some d', [])
             /\ iSize_ d' = iSize_ d + 1.
Proof.
  intros Hok Hi Hroom.
  destruct (insert_cases d x i ok Hok Hi)
    as [(d' & H & _ & Hsz & _)|(Hfull & Hwhy & _)]; [by exists d'|].
  exfalso. destruct Hroom as [Hlt|[Htrue Hmax]]; [lia|].
  destruct Hwhy as [Hfalse|Hgt]; [congruence|lia].
Qed.

Lemma vec_full_ok : vec_ok vec_full.
Proof.
  unfold vec_ok, INT32_MAX. simpl. repeat split; try lia; eauto;
    try (repeat constructor; eauto).
Defined.

(** Claim C6, amended.  On an initialized vector, insertion returns
    [ERR_IDX] exactly when the index is outside [0 <= idx <= size].  At a
    valid index it returns [SUCC], with the size one more, whenever the
    vector has room or its capacity can be doubled ([realloc] answers and
    twice the capacity is within [INT32_MAX]); and whenever the vector is
    full and its capacity cannot be doubled it returns [ERR_NOMEM].  The
    two conditions exclude each other and one of them holds.  Get, set
    and delete succeed exactly when [0 <= idx < size].  Every failing
    call hands back the vector as it was, with no destroy call made. *)
Theorem index_bounds (d : VectorData) (item : Item) (iIdx : Z)
    (bClean realloc_ok : bool) :
  vec_ok d ->
  (* insert: 0 <= idx <= size *)
  (0 <= iIdx <= iSize_ d ->
     (iSize_ d < iCapacity_ d
      \/ (realloc_ok = true /\ iCapacity_ d * 2 <= INT32_MAX) ->
        exists d', VectorInsert (Some d) item iIdx realloc_ok
                   = Ok (Val SUCC, Some d', [])
                   /\ iSize_ d' = iSize_ d + 1)
     /\ (iSize_ d = iCapacity_ d
         /\ (realloc_ok = false \/ INT32_MAX < iCapacity_ d * 2) ->
           VectorInsert (Some d) item iIdx realloc_ok
           = Ok (Val ERR_NOMEM, Some d, []))
     /\ ((iSize_ d < iCapacity_ d
          \/ (realloc_ok = true /\ iCapacity_ d * 2 <= INT32_MAX))
         \/ (iSize_ d = iCapacity_ d
             /\ (realloc_ok = false \/ INT32_MAX < iCapacity_ d * 2))))
  /\ (~ (0 <= iIdx <= iSize_ d) ->
        VectorInsert (Some d) item iIdx realloc_ok = Ok (Val ERR_IDX, Some d, []))
  (* get, set, delete: 0 <= idx < size *)
  /\ (0 <= iIdx < iSize_ d ->
        (exists x, VectorGet (Some d) iIdx = Ok (SUCC, Some x))
        /\ (exists d' es, VectorSet (Some d) item iIdx bClean = Ok (Val SUCC, Some d', es))
        /\ (exists d' es, VectorDelete (Some d) iIdx bClean = Ok (Val SUCC, Some d', es)))
  /\ (~ (0 <= iIdx < iSize_ d) ->
        VectorGet (Some d) iIdx = Ok (ERR_IDX, None)
        /\ VectorSet (Some d) item iIdx bClean = Ok (Val ERR_IDX, Some d, [])
        /\ VectorDelete (Some d) iIdx bClean = Ok (Val ERR_IDX, Some d, [])).
Proof.
  intros Hok. split; [|split; [|split]].
  - intros Hi. split; [|split].
    + by apply insert_granted.
    + intros [Hfull Hwhy]. by apply insert_refused.
    + pose proof Hok as (Hs & _).
      destruct (Z.lt_ge_cases (iSize_ d) (iCapacity_ d)) as [Hlt|Hge];
        [left; by left|].
      destruct realloc_ok; [|right; split; [lia|by left]].
      destruct (Z.le_gt_cases (iCapacity_ d * 2) INT32_MAX) as [Hle|Hgt].
      * left. right. done.
      * right. split; [lia|]. right. lia.
  - apply insert_out_of_range.
  - intros Hi. split; [|split].
    + destruct (get_in_range d iIdx Hok Hi) as (x & H & _). eauto.
    + destruct (set_in_range d item iIdx bClean Hok Hi) as (d' & f & y & _ & _ & H & _).
      eauto.
    + destruct (delete_in_range d iIdx bClean Hok Hi) as (d' & f & y & _ & _ & H & _).
      eauto.
  - intros Hi. split; [|split].
    + by apply get_out_of_range.
    + by apply set_out_of_range.
    + by apply delete_out_of_range.
Qed.

Lemma vec_abc_ok : vec_ok vec_abc.
Proof.
  unfold vec_ok, INT32_MAX. simpl. repeat split; try lia; eauto;
    try (repeat constructor; eauto).
Defined.

Lemma index_bounds_witness :
  vec_ok vec_full
  /\ 0 <= 0 <= iSize_ vec_full
  /\ VectorInsert (Some vec_full) 9 0 false = Ok (Val ERR_NOMEM, Some vec_full, [])
  /\ (exists d', VectorInsert (Some vec_full) 9 0 true = Ok (Val SUCC, Some d', [])
                 /\ iSize_ d' = iSize_ vec_full + 1)
  /\ VectorInsert (Some vec_full) 9 2 true = Ok (Val ERR_IDX, Some vec_full, [])
  /\ VectorGet (Some vec_full) 1 = Ok (ERR_IDX, None).
Proof.
  assert (Hi : 0 <= 0 <= iSize_ vec_full) by (simpl; lia).
  split; [exact vec_full_ok|]. split; [exact Hi|]. split; [|split; [|split]].
  - apply (index_bounds vec_full 9 0 true false vec_full_ok); [exact Hi|].
    split; [reflexivity|]. by left.
  - apply (index_bounds vec_full 9 0 true true vec_full_ok); [exact Hi|].
    right. split; [reflexivity|]. unfold INT32_MAX. simpl. lia.
  - apply (index_bounds vec_full 9 2 true true vec_full_ok). simpl. lia.
  - apply (index_bounds vec_full 9 1 true false vec_full_ok). simpl. lia.
Defined.





End VectorSpec.

(** ** The singly linked list *)

Module SLListSpec.
Import SLList.

Lemma node_eta (n : SinglyLinkedNode) : mkNode (pItem n) (pNext n) = n.
Proof. by destruct n. Qed.

(** Running the loop of [SLListReverse] on its own result, with the two
    pointers exchanged, takes every step back. *)
Lemma reverse_loop_undo fuel : forall h head pred h1 p1,
  reverse_loop fuel h head pred = Ok (h1, p1) ->
  exists n, (n < fuel)%nat /\
    forall f, reverse_loop (n + f) h1 p1 None = reverse_loop f h pred head.
Proof.
  induction fuel as [|fuel IH]; intros h head pred h1 p1 H; [discriminate|].
  simpl in H. destruct head as [c|].
  - destruct (h !! c) as [nd|] eqn:Hc; [|discriminate].
    apply IH in H as (n & Hn & Hrun). exists (S n). split; [lia|].
    intros f. replace (S n + f)%nat with (n + S f)%nat by lia.
    rewrite Hrun. simpl. rewrite lookup_insert_eq. simpl.
    rewrite insert_insert_eq, node_eta, insert_id by done. done.
  - injection H as <- <-. exists 0%nat. split; [lia|]. done.
Qed.

Lemma reverse_loop_chain l : forall fuel h head pred done,
  chain pNext h head l -> chain pNext h pred done ->
  (forall a, a ∈ l -> a ∉ done) -> (length l < fuel)%nat ->
  exists h1 p1,
    reverse_loop fuel h head pred = Ok (h1, p1)
    /\ chain pNext h1 p1 (rev l ++ done)
    /\ p1 = (if l is [] then pred else last l)
    /\ dom h1 = dom h
    /\ (forall a, pItem <$> h1 !! a = pItem <$> h !! a)
    /\ (forall a, a ∉ l -> h1 !! a = h !! a)
    /\ (forall i a, l !! i = Some a ->
          pNext <$> h1 !! a = Some (if i is S j then l !! j else pred)).
Proof.
  induction l as [|c l IH]; intros fuel h head pred done Hl Hd Hdisj Hfuel.
  - inversion Hl; subst. destruct fuel; [simpl in Hfuel; lia|].
    exists h, pred. simpl. repeat split; try done.
  - inversion Hl as [|c' nd l' Hc Hrest]; subst.
    destruct fuel as [|fuel]; [simpl in Hfuel; lia|]. simpl. rewrite Hc.
    pose proof (chain_NoDup _ _ _ _ Hl) as Hnd.
    apply NoDup_cons in Hnd as [Hcl Hnd].
    assert (Hcd : c ∉ done) by (apply Hdisj; left).
    set (h' := <[c := mkNode (pItem nd) pred]> h).
    destruct (IH fuel h' (pNext nd) (Some c) (c :: done))
      as (h1 & p1 & Hrun & Hch & Hp1 & Hdom & Hitem & Hoff & Hnext).
    + by apply chain_insert_off.
    + econstructor; [apply lookup_insert_eq|]. simpl. by apply chain_insert_off.
    + intros a Ha. apply not_elem_of_cons. split.
      * intros ->. done.
      * apply Hdisj. by right.
    + simpl in Hfuel. lia.
    + exists h1, p1. split; [done|]. split; [|split; [|split; [|split; [|split]]]].
      * simpl. by rewrite <- app_assoc.
      * rewrite Hp1. destruct l; [done|]. done.
      * rewrite Hdom. unfold h'. apply dom_insert_lookup_L. by eexists.
      * intros a. rewrite Hitem. unfold h'.
        destruct (decide (a = c)) as [->|Hne].
        -- by rewrite lookup_insert_eq, Hc.
        -- by rewrite lookup_insert_ne.
      * intros a Ha. apply not_elem_of_cons in Ha as [Hac Ha].
        rewrite Hoff by done. unfold h'. by rewrite lookup_insert_ne.
      * intros i a Hi. destruct i as [|i]; simpl in Hi.
        -- injection Hi as <-. rewrite Hoff by done.
           unfold h'. by rewrite lookup_insert_eq.
        -- rewrite (Hnext i a Hi). destruct i; done.
Qed.

Lemma fmap_rev {A B} (f : A -> B) (l : list A) : f <$> rev l = rev (f <$> l).
Proof.
  induction l as [|x l IH]; [done|]. simpl. by rewrite fmap_app, IH.
Qed.

Lemma list_eta (self : SinglyLinkedList) p :
  set_pHead (set_pHead self p) (pHead self) = self.
Proof. by destruct self. Qed.

(** Claim C9.  On a list whose nodes form a chain from [pHead] to null,
    [reverse()] returns; it leaves the same blocks allocated, with the
    same items, and gives every node the [pNext] that points to its
    predecessor (null for the old first node), so that the chain from the
    new head visits the same nodes and items in the opposite order; and
    a second [reverse()] gives back the heap and the list exactly as they
    were. *)
Theorem reverse_twice_restores (h : heap) (self : SinglyLinkedList)
    (l : list addr) (fuel : nat) :
  chain pNext h (pHead self) l -> (length l < fuel)%nat ->
  exists h1 self1,
    SLListReverse fuel h self = Ok (h1, self1)
    /\ chain pNext h1 (pHead self1) (rev l)
    /\ items_at h1 (rev l) = rev (items_at h l)
    /\ dom h1 = dom h
    /\ (forall a, pItem <$> h1 !! a = pItem <$> h !! a)
    /\ (forall a, a ∉ l -> h1 !! a = h !! a)
    /\ (forall i a, l !! i = Some a ->
          pNext <$> h1 !! a = Some (if i is S j then l !! j else None))
    /\ iSize self1 = iSize self
    /\ SLListReverse fuel h1 self1 = Ok (h, self).
Proof.
  intros Hl Hfuel.
  destruct (reverse_loop_chain l fuel h (pHead self) None [] Hl (chain_nil _ _))
    as (h1 & p1 & Hrun & Hch & Hp1 & Hdom & Hitem & Hoff & Hnext);
    [intros a _; apply not_elem_of_nil|done|].
  exists h1, (set_pHead self p1). unfold SLListReverse. rewrite Hrun. simpl.
  rewrite app_nil_r in Hch.
  split; [done|]. split; [done|]. split.
  { unfold items_at. rewrite <- fmap_rev. apply list_fmap_ext.
    intros _ a _. apply Hitem. }
  split; [done|]. split; [done|]. split; [done|]. split; [done|]. split; [done|].
  destruct (reverse_loop_undo _ _ _ _ _ _ Hrun) as (n & Hn & Hundo).
  replace fuel with (n + S (fuel - n - 1))%nat at 1 by lia.
  rewrite Hundo. simpl. by rewrite list_eta.
Qed.

Ltac chain_tac :=
  repeat (first [apply chain_nil | eapply chain_cons; [reflexivity|simpl]]).

Lemma not_invariant h self l :
  chain pNext h (pHead self) l ->
  iSize self <> Z.of_nat (length l) \/ pTail self <> last l ->
  ~ invariant h self.
Proof.
  intros Hl Hbad (l' & Hl' & Hsz & Ht).
  rewrite (chain_functional _ _ _ _ _ Hl' Hl) in Hsz, Ht. by destruct Hbad.
Qed.

Lemma unlink_keeps_tail h self pred c succ :
  match unlink h self pred c succ with
  | Ok (_, self') => pTail self' = pTail self
  | _ => True
  end.
Proof.
  unfold unlink. destruct pred as [q|]; simpl; [|done].
  destruct (delete c h !! q); simpl; done.
Qed.

Lemma remove_loop_keeps_tail fuel : forall h self item pred curr,
  match remove_loop fuel h self item pred curr with
  | Ok (_, _, self') => pTail self' = pTail self
  | _ => True
  end.
Proof.
  induction fuel as [|fuel IH]; intros h self item pred curr; [done|].
  simpl. destruct curr as [c|]; [|done].
  destruct (h !! c) as [n|]; [|done].
  destruct (compare self item (pItem n) =? 0); [|apply IH].
  pose proof (unlink_keeps_tail h self pred c (pNext n)) as H.
  destruct (unlink h self pred c (pNext n)) as [[h' self']| |]; simpl; done.
Qed.

(** [SLListInsert], [SLListRemove], [SLListPop] and [SLListReverse] hand
    back the [pTail] they were given. *)
Lemma tail_never_assigned h self : tail_untouched h self.
Proof.
  split; [|split; [|split]].
  - intros idx item ok. unfold SLListInsert.
    destruct (Z.of_N idx <=? iSize self); [|done].
    destruct (walk h (N.to_nat idx) None (pHead self)) as [[pred succ]| |]; simpl;
      try done.
    destruct ok; simpl; [|done].
    destruct pred as [q|]; simpl; [|done].
    destruct (_ !! q); simpl; done.
  - intros fuel item. apply remove_loop_keeps_tail.
  - intros idx. unfold SLListPop.
    destruct (Z.of_N idx <? iSize self); [|done].
    destruct (walk h (N.to_nat idx) None (pHead self)) as [[pred curr]| |]; simpl;
      try done.
    destruct curr as [c|]; [|done]. destruct (h !! c) as [n|]; [|done].
    pose proof (unlink_keeps_tail h self pred c (pNext n)) as H.
    destruct (unlink h self pred c (pNext n)) as [[h' self']| |]; simpl; done.
  - intros fuel. unfold SLListReverse.
    destruct (reverse_loop fuel h (pHead self) None) as [[h' p]| |]; simpl; done.
Qed.

(** Claim C2 fails on the code.  No call of [insert], [remove], [pop] or
    [reverse] changes [pTail].  From the list of 10 and 20, built with
    [append] and satisfying the invariant: [pop(1)] and [remove(20)] free
    the last node and leave [pTail] pointing to the freed block;
    [reverse()] leaves [pTail] on the node that has become the first;
    [insert] at the end leaves [pTail] on the node before the new last
    one.  None of the four states satisfies the invariant.  [append]
    after [reverse()] then links the new node behind the stale tail, and
    the node of item 10 is no longer reachable although [iSize] is 3. *)
Theorem tail_is_not_maintained :
  (forall h self, tail_untouched h self)
  /\ list_10_20 = Ok (heap_two, self_two)
  /\ invariant heap_two self_two
  /\ SLListPop heap_two self_two 1 = Ok (20, heap_popped, self_popped)
  /\ SLListRemove 3 heap_two self_two 20 = Ok (20, heap_popped, self_popped)
  /\ heap_popped !! 2%positive = None
  /\ ~ invariant heap_popped self_popped
  /\ SLListReverse 3 heap_two self_two = Ok (heap_reversed, self_reversed)
  /\ chain pNext heap_reversed (pHead self_reversed) [2%positive; 1%positive]
  /\ ~ invariant heap_reversed self_reversed
  /\ SLListInsert heap_two self_two 2 30 true
     = Ok (Some 3%positive, heap_inserted, self_inserted)
  /\ chain pNext heap_inserted (pHead self_inserted)
       [1%positive; 2%positive; 3%positive]
  /\ ~ invariant heap_inserted self_inserted
  /\ SLListAppend heap_reversed self_reversed 30 true
     = Ok (Some 3%positive, heap_reversed_appended, self_reversed_appended)
  /\ chain pNext heap_reversed_appended (pHead self_reversed_appended)
       [2%positive; 3%positive]
  /\ ~ invariant heap_reversed_appended self_reversed_appended.
Proof.
  split; [apply tail_never_assigned|].
  split; [by vm_compute|].
  split; [exists [1%positive; 2%positive]; split; [chain_tac|done]|].
  split; [by vm_compute|]. split; [by vm_compute|]. split; [done|].
  split; [apply (not_invariant _ _ [1%positive]); [chain_tac|by right]|].
  split; [by vm_compute|]. split; [chain_tac|].
  split; [apply (not_invariant _ _ [2%positive; 1%positive]); [chain_tac|by right]|].
  split; [by vm_compute|]. split; [chain_tac|].
  split; [apply (not_invariant _ _ [1%positive; 2%positive; 3%positive]);
          [chain_tac|by right]|].
  split; [by vm_compute|]. split; [chain_tac|].
  apply (not_invariant _ _ [2%positive; 3%positive]); [chain_tac|by left].
Qed.

Lemma chain_head_nil h p : chain pNext h p [] -> p = None.
Proof. by inversion 1. Qed.

Lemma chain_snoc h p l :
  chain pNext h p l ->
  forall t nt new x,
    last l = Some t -> h !! t = Some nt -> h !! new = None ->
    chain pNext (<[t := mkNode (pItem nt) (Some new)]> (<[new := mkNode x None]> h))
      p (l ++ [new]).
Proof.
  intros Hl. pose proof (chain_NoDup _ _ _ _ Hl) as Hnd.
  induction Hl as [|a n l Ha Hl IH]; intros t nt new x Hlast Ht Hnew; [done|].
  assert (Hane : a <> new) by congruence.
  apply NoDup_cons in Hnd as [Hal Hnd].
  destruct l as [|b l].
  - simpl in Hlast. injection Hlast as <-. rewrite Ha in Ht. injection Ht as <-.
    simpl. econstructor; [apply lookup_insert_eq|]. simpl.
    econstructor.
    + rewrite lookup_insert_ne, lookup_insert_eq by done. done.
    + constructor.
  - assert (Hta : t <> a).
    { intros ->. apply Hal. change (last (a :: b :: l)) with (last (b :: l)) in Hlast.
      by apply last_Some_elem_of. }
    simpl. econstructor.
    + rewrite !lookup_insert_ne by done. exact Ha.
    + apply (IH Hnd t nt new x); done.
Qed.

(** [SLListAppend] keeps the invariant: it is the operation that assigns
    [pTail]. *)
Lemma append_preserves_invariant h self x :
  invariant h self ->
  exists new h' self',
    SLListAppend h self x true = Ok (Some new, h', self')
    /\ h !! new = None /\ invariant h' self'.
Proof.
  intros (l & Hl & Hsz & Htail).
  assert (Hnew : h !! fresh (dom h) = None).
  { apply not_elem_of_dom, is_fresh. }
  unfold SLListAppend. simpl.
  destruct l as [|a l].
  - rewrite (chain_head_nil _ _ Hl). simpl.
    eexists _, _, _. split; [reflexivity|]. split; [done|].
    exists [fresh (dom h)]. simpl. split.
    + econstructor; [apply lookup_insert_eq|constructor].
    + simpl in Hsz. split; [lia|done].
  - assert (Hhead : pHead self = Some a) by (by inversion Hl).
    rewrite Hhead.
    destruct (last (a :: l)) as [t|] eqn:Hlast.
    2:{ by apply last_None in Hlast. }
    destruct (chain_allocated _ _ _ _ t Hl) as [nt Ht].
    { by apply last_Some_elem_of. }
    rewrite Htail. simpl.
    rewrite lookup_insert_ne, Ht by congruence. simpl.
    eexists _, _, _. split; [reflexivity|]. split; [done|].
    exists ((a :: l) ++ [fresh (dom h)]). simpl. split.
    + apply (chain_snoc _ _ (a :: l) Hl t nt); done.
    + rewrite length_app. simpl in *. split; [lia|].
      change (a :: l ++ [fresh (dom h)]) with ((a :: l) ++ [fresh (dom h)]).
      by rewrite last_snoc.
Qed.

Lemma reverse_twice_restores_witness :
  chain pNext heap_two (pHead self_two) [1%positive; 2%positive]
  /\ (length [1%positive; 2%positive] < 3)%nat
  /\ exists h1 self1,
       SLListReverse 3 heap_two self_two = Ok (h1, self1)
       /\ SLListReverse 3 h1 self1 = Ok (heap_two, self_two).
Proof.
  assert (Hl : chain pNext heap_two (pHead self_two) [1%positive; 2%positive])
    by chain_tac.
  assert (Hf : (length [1%positive; 2%positive] < 3)%nat) by (simpl; lia).
  split; [exact Hl|]. split; [exact Hf|].
  destruct (reverse_twice_restores heap_two self_two _ 3 Hl Hf)
    as (h1 & self1 & H1 & _ & _ & _ & _ & _ & _ & _ & H2).
  exists h1, self1. split; assumption.
Defined.

End SLListSpec.

(** ** The hash map *)

Module HashMapSpec.
Import HashMap.

Lemma to_N_inj (x y : byte) : Byte.to_N x = Byte.to_N y -> x = y.
Proof.
  intros H. pose proof (Byte.of_to_N x) as Hx. rewrite H, Byte.of_to_N in Hx.
  by injection Hx.
Qed.

(** [memcmp] answers 0 exactly when the two ranges agree on their first
    [n] bytes. *)
Lemma memcmp_eq_iff a b n : memcmp a b n = 0 <-> take n a = take n b.
Proof.
  revert a b. induction n as [|n IH]; intros a b; [by split|].
  destruct a as [|x a], b as [|y b]; simpl; try (by split).
  destruct (Byte.eqb x y) eqn:E.
  - apply Byte.byte_dec_bl in E as ->. rewrite IH. split; [by intros ->|].
    by intros [= ->].
  - apply Byte.eqb_false in E. split.
    + intros H. exfalso. apply E, to_N_inj. lia.
    + intros [= ? _]. done.
Qed.

Lemma memcmp_same_key x k k' n :
  memcmp k k' n = 0 -> (memcmp x k n = 0 <-> memcmp x k' n = 0).
Proof. rewrite !memcmp_eq_iff. intros ->. done. Qed.

Lemma scan_found fuel : forall h pred p k size pp c n,
  scan fuel h pred p k size = Ok (Some (pp, c, n)) ->
  h !! c = Some n /\ memcmp (key (pPair n)) k (N.to_nat size) = 0.
Proof.
  induction fuel as [|fuel IH]; intros h pred p k size pp c n H; [discriminate|].
  simpl in H. destruct p as [a|]; [|discriminate].
  destruct (h !! a) as [na|] eqn:Ha; [|discriminate].
  destruct (Z.eqb_spec (memcmp (key (pPair na)) k (N.to_nat size)) 0) as [E|E].
  - injection H as <- <- <-. done.
  - by eapply IH.
Qed.

Lemma scan_mono fuel : forall fuel' h pred p k size r,
  scan fuel h pred p k size = Ok r -> (fuel <= fuel')%nat ->
  scan fuel' h pred p k size = Ok r.
Proof.
  induction fuel as [|fuel IH]; intros fuel' h pred p k size r H Hle; [discriminate|].
  destruct fuel' as [|fuel']; [lia|]. simpl in *.
  destruct p as [a|]; [|done]. destruct (h !! a) as [na|]; [|done].
  destruct (memcmp _ _ _ =? 0); [done|]. apply IH; [done|lia].
Qed.

(** On a chain, the walk ends within as many steps as the chain has
    nodes, and it finds nothing when no node of the heap has the key. *)
Lemma scan_chain h p l : chain pNext h p l ->
  forall fuel pred k size, (length l < fuel)%nat ->
  exists r, scan fuel h pred p k size = Ok r
    /\ ((forall a n, h !! a = Some n -> memcmp (key (pPair n)) k (N.to_nat size) <> 0)
        -> r = None).
Proof.
  induction 1 as [|a n l Ha _ IH]; intros fuel pred k size Hfuel.
  - destruct fuel; [lia|]. by exists None.
  - destruct fuel as [|fuel]; [lia|]. simpl in *. rewrite Ha.
    destruct (Z.eqb_spec (memcmp (key (pPair n)) k (N.to_nat size)) 0) as [E|E].
    + eexists. split; [done|]. intros Habs. by destruct (Habs a n Ha).
    + apply IH. lia.
Qed.

(** After the found node has received a pair whose key is byte-equal to
    the key searched, the same walk finds that node for every key
    byte-equal to it. *)
Lemma scan_replaced fuel : forall h pred p k size pp c n P k',
  scan fuel h pred p k size = Ok (Some (pp, c, n)) ->
  memcmp k k' (N.to_nat size) = 0 ->
  memcmp (key P) k' (N.to_nat size) = 0 ->
  scan fuel (<[c := mkSlotNode P (pNext n)]> h) pred p k' size
  = Ok (Some (pp, c, mkSlotNode P (pNext n))).
Proof.
  induction fuel as [|fuel IH]; intros h pred p k size pp c n P k' H Hk HP;
    [discriminate|].
  pose proof (scan_found _ _ _ _ _ _ _ _ _ H) as [Hc Hm].
  simpl in *. destruct p as [a|]; [|discriminate].
  destruct (h !! a) as [na|] eqn:Ha; [|discriminate].
  destruct (Z.eqb_spec (memcmp (key (pPair na)) k (N.to_nat size)) 0) as [E|E].
  - injection H as <- <- <-. rewrite lookup_insert_eq. simpl.
    by rewrite HP.
  - assert (a <> c) as Hac by (intros ->; congruence).
    rewrite lookup_insert_ne, Ha by done.
    destruct (Z.eqb_spec (memcmp (key (pPair na)) k' (N.to_nat size)) 0) as [E'|E'].
    + by apply (memcmp_same_key _ _ _ _ Hk) in E'.
    + by eapply IH.
Qed.

Lemma map_ok_slot d k size :
  map_ok d ->
  exists u head l,
    slot_index d k size = Ok u /\ 0 <= u < iCountSlot_ d
    /\ slot_read (aSlot_ d) u = Ok head
    /\ aSlot_ d !! Z.to_nat u = Some head
    /\ chain pNext (nodes d) head l.
Proof.
  intros (Hc & Hlen & Hall). unfold INT32_MAX in Hc.
  unfold slot_index. rewrite (Z.mod_small (iCountSlot_ d)) by lia.
  destruct (Z.eqb_spec (iCountSlot_ d) 0); [lia|].
  set (u := (pHash_ d k size mod 4294967296) mod iCountSlot_ d).
  assert (Hu : 0 <= u < iCountSlot_ d) by (apply Z.mod_pos_bound; lia).
  destruct (lookup_lt_is_Some_2 (aSlot_ d) (Z.to_nat u)) as [head Hh]; [lia|].
  destruct (Forall_lookup_1 _ _ _ _ Hall Hh) as [l Hl].
  exists u, head, l. unfold slot_read. destruct (Z.ltb_spec u 0); [lia|].
  rewrite Hh. done.
Qed.

Lemma map_init_ok hash :
  exists d, HashMapInit hash true true true = (SUCC, Some d) /\ map_ok d
            /\ nodes d = ∅ /\ iSize_ d = 0.
Proof.
  eexists. split; [reflexivity|]. split; [|done].
  unfold map_ok. cbn [iCountSlot_ aSlot_ nodes].
  change (nth 0 aMagicPrimes 0) with 769.
  split; [unfold INT32_MAX; lia|]. split; [rewrite length_replicate; lia|].
  apply Forall_replicate. exists []. constructor.
Qed.

(** [HashMapPut] keeps a map initialized. *)
Lemma put_map_ok fuel d p size ok rc d' es :
  map_ok d -> HashMapPut fuel (Some d) p size ok = Ok (rc, Some d', es) -> map_ok d'.
Proof.
  intros Hok H. pose proof Hok as (Hc & Hlen & Hall).
  unfold HashMapPut in H. destruct (size =? 0)%N; [by injection H as _ <- _|].
  destruct (slot_index d (key p) size) as [u| |] eqn:Hu; try discriminate.
  simpl in H.
  destruct (slot_read (aSlot_ d) u) as [head| |] eqn:Hr; try discriminate.
  simpl in H.
  destruct (scan fuel (nodes d) None head (key p) size)
    as [[[[pp c] n]|]| |] eqn:Hs; try discriminate; simpl in H.
  - injection H as _ <- _. apply scan_found in Hs as [Hcn _].
    split; [done|]. split; [done|]. simpl.
    eapply Forall_impl; [exact Hall|]. intros q [l Hl]. exists l.
    by apply (chain_insert_same_next _ _ _ _ _ n).
  - destruct ok; [|discriminate]. simpl in H.
    unfold slot_write in H.
    destruct ((u <? 0) || (Z.of_nat (length (aSlot_ d)) <=? u)) eqn:Hb;
      [discriminate|].
    simpl in H. injection H as _ <- _.
    assert (Hnew : nodes d !! fresh (dom (nodes d)) = None)
      by apply not_elem_of_dom, is_fresh.
    split; [done|]. split; [simpl; by rewrite length_insert|]. simpl.
    unfold slot_read in Hr. destruct (u <? 0); [discriminate|].
    destruct (aSlot_ d !! Z.to_nat u) as [q|] eqn:Hq; [|discriminate].
    injection Hr as ->.
    destruct (Forall_lookup_1 _ _ _ _ Hall Hq) as [l Hl].
    apply Forall_insert.
    + eapply Forall_impl; [exact Hall|]. intros q [l' Hl']. exists l'.
      by apply chain_insert_fresh.
    + exists (fresh (dom (nodes d)) :: l).
      econstructor; [apply lookup_insert_eq|]. simpl.
      by apply chain_insert_fresh.
Qed.

(** Claim C4.  On an initialized map, with a nonzero key size and enough
    fuel for the chain walk: [put] of a pair succeeds when its [malloc] is
    answered; after any [put] of the pair [(k, v)] that returned, a [get]
    with a key byte-equal to [k] over the same size (hashed like [k])
    returns [SUCC] and stores [v]; and a [get] of a key that no stored
    pair has returns [NOKEY], which is not an error code, and stores
    null. *)
Theorem put_then_get (d : HashMapData) (p : Pair) (size : N) (fuel : nat) :
  map_ok d -> size <> 0%N -> (base.size (nodes d) < fuel)%nat ->
  (exists d' es, HashMapPut fuel (Some d) p size true = Ok (SUCC, Some d', es))
  /\ (forall malloc_ok rc d' es,
        HashMapPut fuel (Some d) p size malloc_ok = Ok (rc, Some d', es) ->
        rc = SUCC
        /\ forall k' fuel',
             memcmp (key p) k' (N.to_nat size) = 0 ->
             pHash_ d k' size = pHash_ d (key p) size ->
             (fuel <= fuel')%nat ->
             HashMapGet fuel' (Some d') k' size true = Ok (SUCC, Some (value p)))
  /\ (forall k, absent d k size ->
        HashMapGet fuel (Some d) k size true = Ok (NOKEY, Some NULL)).
Proof.
  intros Hok Hsize Hfuel. apply N.eqb_neq in Hsize. split; [|split].
  - destruct (map_ok_slot d (key p) size Hok) as (u & head & l & Hu & Hur & Hr & Hlk & Hl).
    unfold HashMapPut. rewrite Hsize, Hu. simpl. rewrite Hr. simpl.
    destruct (scan_chain _ _ _ Hl fuel None (key p) size) as (r & Hs & _).
    { pose proof (chain_length _ _ _ _ Hl). lia. }
    rewrite Hs. simpl. destruct r as [[[pp c] n]|]; [by eexists _, _|].
    simpl. unfold slot_write. pose proof Hok as (_ & Hlen & _).
    destruct (Z.ltb_spec u 0); [lia|].
    destruct (Z.leb_spec (Z.of_nat (length (aSlot_ d))) u); [lia|].
    simpl. by eexists _, _.
  - intros ok rc d' es H. unfold HashMapPut in H. rewrite Hsize in H.
    destruct (slot_index d (key p) size) as [u| |] eqn:Hu; try discriminate.
    simpl in H.
    destruct (slot_read (aSlot_ d) u) as [head| |] eqn:Hr; try discriminate.
    simpl in H.
    assert (Hidx : forall d1 k', pHash_ d1 = pHash_ d -> iCountSlot_ d1 = iCountSlot_ d ->
              pHash_ d k' size = pHash_ d (key p) size ->
              slot_index d1 k' size = Ok u).
    { intros d1 k' Hh Hcnt Heq. unfold slot_index in *. by rewrite Hh, Hcnt, Heq. }
    destruct (scan fuel (nodes d) None head (key p) size)
      as [[[[pp c] n]|]| |] eqn:Hs; try discriminate; simpl in H.
    + injection H as <- <- _. split; [done|]. intros k' fuel' Hk Hh Hle.
      unfold HashMapGet. simpl. rewrite Hsize.
      rewrite (Hidx _ k') by done. simpl. rewrite Hr. simpl.
      rewrite (scan_mono fuel fuel' _ _ _ _ _ _
                 (scan_replaced fuel _ _ _ _ _ _ _ _ p k' Hs
                    ltac:(apply memcmp_eq_iff; apply memcmp_eq_iff in Hk; done) Hk) Hle).
      done.
    + destruct ok; [|discriminate]. simpl in H. unfold slot_write in H.
      destruct ((u <? 0) || (Z.of_nat (length (aSlot_ d)) <=? u)) eqn:Hb;
        [discriminate|].
      simpl in H. injection H as <- <- _. split; [done|].
      intros k' fuel' Hk Hh Hle.
      apply orb_false_iff in Hb as [Hb1 Hb2].
      apply Z.ltb_ge in Hb1. apply Z.leb_gt in Hb2.
      unfold HashMapGet. simpl. rewrite Hsize.
      rewrite (Hidx _ k') by done. simpl.
      unfold slot_read. destruct (Z.ltb_spec u 0); [lia|].
      rewrite list_lookup_insert_eq by lia. simpl.
      destruct fuel as [|fuel]; [discriminate|].
      destruct fuel' as [|fuel']; [lia|]. simpl.
      rewrite lookup_insert_eq. simpl. by rewrite Hk.
  - intros k Habs.
    destruct (map_ok_slot d k size Hok) as (u & head & l & Hu & Hur & Hr & Hlk & Hl).
    unfold HashMapGet. simpl. rewrite Hsize, Hu. simpl. rewrite Hr. simpl.
    destruct (scan_chain _ _ _ Hl fuel None k size) as (r & Hs & Hnone).
    { pose proof (chain_length _ _ _ _ Hl). lia. }
    rewrite Hs, (Hnone Habs). done.
Qed.

Lemma init_fresh_map hash :
  HashMapInit hash true true true = (SUCC, Some (fresh_map hash)).
Proof. reflexivity. Qed.

Lemma fresh_map_ok hash : map_ok (fresh_map hash).
Proof.
  destruct (map_init_ok hash) as (d & Hd & Hok & _).
  rewrite init_fresh_map in Hd. by injection Hd as <-.
Qed.

Lemma put_then_get_witness :
  map_ok (fresh_map byte_sum_hash) /\ 1%N <> 0%N
  /\ (base.size (nodes (fresh_map byte_sum_hash)) < 2)%nat
  /\ (exists d' es,
        HashMapPut 2 (Some (fresh_map byte_sum_hash)) (mkPair key_a 1) 1 true
        = Ok (SUCC, Some d', es)
        /\ HashMapGet 2 (Some d') key_a 1 true = Ok (SUCC, Some 1))
  /\ HashMapGet 2 (Some (fresh_map byte_sum_hash)) key_b 1 true
     = Ok (NOKEY, Some NULL).
Proof.
  assert (Hok : map_ok (fresh_map byte_sum_hash)) by apply fresh_map_ok.
  assert (Hs : 1%N <> 0%N) by discriminate.
  assert (Hf : (base.size (nodes (fresh_map byte_sum_hash)) < 2)%nat)
    by (vm_compute; lia).
  pose proof (put_then_get (fresh_map byte_sum_hash) (mkPair key_a 1) 1 2 Hok Hs Hf)
    as (Hput & Hafter & Hget).
  split; [exact Hok|]. split; [exact Hs|]. split; [exact Hf|]. split.
  - destruct Hput as (d' & es & Hput). exists d', es. split; [exact Hput|].
    destruct (Hafter true SUCC d' es Hput) as [_ Hg].
    apply (Hg key_a 2%nat); [reflexivity|reflexivity|lia].
  - apply Hget. intros a n Hn. simpl in Hn. by rewrite lookup_empty in Hn.
Defined.

(** Claim C1 fails on the code.  [HashMapRemove] never changes what
    [HashMapSize] reports, whatever it returns.  In the map of the four
    one-byte keys a, b, c, d, [remove(b)] returns [SUCC], unlinks and
    frees the node of b (a later [get(b)] answers [NOKEY], [get(a)] still
    yields 1), and [size()] still returns 4, not 3. *)
Theorem remove_keeps_size :
  (forall fuel self k size,
     match HashMapRemove fuel self k size with
     | Ok (_, self', _) => HashMapSize self' = HashMapSize self
     | _ => True
     end)
  /\ exists d d',
       map_abcd byte_sum_hash = Ok (Some d)
       /\ HashMapSize (Some d) = Count 4
       /\ HashMapRemove 8 (Some d) key_b 1 = Ok (SUCC, Some d', [])
       /\ nodes d' = delete 2%positive (nodes d)
       /\ nodes d !! 2%positive = Some (mkSlotNode (mkPair key_b 2) None)
       /\ HashMapSize (Some d') = Count 4
       /\ HashMapGet 8 (Some d') key_b 1 true = Ok (NOKEY, Some NULL)
       /\ HashMapGet 8 (Some d') key_a 1 true = Ok (SUCC, Some 1)
       (* the same run when the four keys share one chain *)
       /\ exists c c',
            map_abcd zero_hash = Ok (Some c)
            /\ chain pNext (nodes c) (Some 4%positive)
                 [4%positive; 3%positive; 2%positive; 1%positive]
            /\ HashMapRemove 8 (Some c) key_b 1 = Ok (SUCC, Some c', [])
            /\ chain pNext (nodes c') (Some 4%positive)
                 [4%positive; 3%positive; 1%positive]
            /\ nodes c' !! 2%positive = None
            /\ HashMapSize (Some c') = Count 4.
Proof.
  split.
  - intros fuel self k size. unfold HashMapRemove.
    destruct self as [d|]; [|done].
    destruct (size =? 0)%N; [done|].
    destruct (slot_index d k size) as [u| |]; simpl; try done.
    destruct (slot_read (aSlot_ d) u) as [head| |]; simpl; try done.
    destruct (scan fuel (nodes d) None head k size) as [[[[pp c] n]|]| |];
      simpl; try done.
    destruct pp as [q|]; simpl.
    + destruct (nodes d !! q); simpl; done.
    + destruct (slot_write (aSlot_ d) u (pNext n)); simpl; done.
  - eexists _, _. split; [vm_compute; reflexivity|].
    split; [reflexivity|]. split; [vm_compute; reflexivity|].
    split; [vm_compute; reflexivity|]. split; [vm_compute; reflexivity|].
    split; [reflexivity|]. split; [vm_compute; reflexivity|].
    split; [vm_compute; reflexivity|].
    eexists _, _. split; [vm_compute; reflexivity|].
    split; [repeat (eapply chain_cons; [vm_compute; reflexivity|]); apply chain_nil|].
    split; [vm_compute; reflexivity|].
    split; [repeat (eapply chain_cons; [vm_compute; reflexivity|]); apply chain_nil|].
    split; [vm_compute; reflexivity|]. reflexivity.
Qed.

Lemma concat_drop_S {A} (ls : list (list A)) i l :
  ls !! i = Some l -> concat (drop i ls) = l ++ concat (drop (S i) ls).
Proof. intros H. by rewrite (drop_S _ _ _ H). Qed.

Lemma iterate_loop_step (ls : list (list addr)) (k : nat) :
  forall d i l fuel,
    0 < iCountSlot_ d <= INT32_MAX ->
    Forall2 (chain pNext (nodes d)) (aSlot_ d) ls ->
    Z.of_nat (length ls) = iCountSlot_ d ->
    cursor_at d i l -> 0 <= i < iCountSlot_ d ->
    Z.to_nat (iCountSlot_ d - i) = S k -> (S k < fuel)%nat ->
    match l ++ concat (drop (S (Z.to_nat i)) ls) with
    | [] => exists d', iterate_loop fuel d = Ok (END, d', Some None)
                       /\ bEnd_ d' = Val true /\ same_table d d'
    | a :: rest =>
        exists n d' i' l',
          nodes d !! a = Some n
          /\ iterate_loop fuel d = Ok (SUCC, d', Some (Some (pPair n)))
          /\ same_table d d' /\ cursor_at d' i' l' /\ 0 <= i' < iCountSlot_ d
          /\ l' ++ concat (drop (S (Z.to_nat i')) ls) = rest
    end.
Proof.
  induction k as [|k IH]; intros d i l fuel Hcnt Hall Hlen (p & Hend & Hidx & Hp & Hl) Hi Hk Hfuel.
  all: destruct fuel as [|fuel]; [lia|]; simpl; rewrite Hp; simpl.
  all: destruct Hl as [|a n l Ha Hrest]; simpl.
  - (* last slot, at the end of its chain *)
    rewrite Hidx. simpl. rewrite wrap32_id by (unfold INT32_MAX in *; lia).
    destruct (Z.eqb_spec (i + 1) (iCountSlot_ d)) as [E|E]; [|lia].
    rewrite drop_ge by lia. simpl.
    eexists. split; [reflexivity|]. done.
  - rewrite Ha. exists n. eexists _, i, l. split; [done|]. split; [reflexivity|].
    split; [done|]. split; [|done]. exists (pNext n). done.
  - rewrite Hidx. simpl. rewrite wrap32_id by (unfold INT32_MAX in *; lia).
    destruct (Z.eqb_spec (i + 1) (iCountSlot_ d)) as [E|E]; [lia|].
    destruct (lookup_lt_is_Some_2 ls (S (Z.to_nat i))) as [l1 Hl1]; [lia|].
    destruct (Forall2_lookup_r _ _ _ _ _ Hall Hl1) as (q & Hq & Hchain).
    unfold slot_read. destruct (Z.ltb_spec (i + 1) 0); [lia|].
    replace (Z.to_nat (i + 1)) with (S (Z.to_nat i)) by lia. rewrite Hq. simpl.
    rewrite (concat_drop_S _ _ _ Hl1).
    set (d1 := set_pIterNode (set_iIterIdx d (i + 1)) q).
    specialize (IH d1 (i + 1) l1 fuel).
    replace (Z.to_nat (i + 1)) with (S (Z.to_nat i)) in IH by lia.
    destruct (l1 ++ concat (drop (S (S (Z.to_nat i))) ls)) as [|a rest].
    + destruct IH as (d' & Hrun & He & Hsame); try done; try (simpl; lia).
      { by exists q. }
      exists d'. done.
    + destruct IH as (n & d' & i' & l' & Hn & Hrun & Hsame & Hcur & Hi' & Hrest);
        try done; try (simpl; lia).
      { by exists q. }
      exists n, d', i', l'. done.
  - rewrite Ha. exists n. eexists _, i, l. split; [done|]. split; [reflexivity|].
    split; [done|]. split; [|done]. exists (pNext n). done.
Qed.

Lemma drain_spec (ls : list (list addr)) (calls : nat) :
  forall d i l fuel,
    0 < iCountSlot_ d <= INT32_MAX ->
    Forall2 (chain pNext (nodes d)) (aSlot_ d) ls ->
    Z.of_nat (length ls) = iCountSlot_ d ->
    cursor_at d i l -> 0 <= i < iCountSlot_ d ->
    (Z.to_nat (iCountSlot_ d) < fuel)%nat ->
    (length (l ++ concat (drop (S (Z.to_nat i)) ls)) < calls)%nat ->
    exists d',
      drain calls fuel (Some d)
      = Ok (pairs_at (nodes d) (l ++ concat (drop (S (Z.to_nat i)) ls)), Some d')
      /\ bEnd_ d' = Val true /\ same_table d d'.
Proof.
  induction calls as [|calls IH]; intros d i l fuel Hcnt Hall Hlen Hcur Hi Hfuel Hcalls;
    [lia|].
  pose proof Hcur as (p & Hend & _).
  pose proof (iterate_loop_step ls (Z.to_nat (iCountSlot_ d - i) - 1) d i l fuel
                Hcnt Hall Hlen Hcur Hi ltac:(lia) ltac:(lia)) as Hstep.
  simpl. rewrite Hend. simpl.
  destruct (l ++ concat (drop (S (Z.to_nat i)) ls)) as [|a rest].
  - destruct Hstep as (d' & -> & He & Hsame). simpl. by exists d'.
  - destruct Hstep as (n & d' & i' & l' & Hn & -> & Hsame & Hcur' & Hi' & Hrest).
    simpl. pose proof Hsame as (Hnodes & Hslots & Hcount & _).
    destruct (IH d' i' l' fuel) as (d'' & Hrun & He & Hsame'').
    + by rewrite Hcount.
    + by rewrite Hnodes, Hslots.
    + by rewrite Hcount.
    + done.
    + by rewrite Hcount.
    + by rewrite Hcount.
    + rewrite Hrest. simpl in Hcalls. lia.
    + rewrite Hrun. simpl. exists d''. rewrite Hrest, Hnodes.
      unfold pairs_at at 2. simpl. rewrite Hn. simpl.
      split; [done|]. split; [done|].
      destruct Hsame as (? & ? & ? & ?), Hsame'' as (? & ? & ? & ?).
      repeat split; congruence.
Qed.

(** A pass yields the pairs of the chain nodes, slot after slot and each
    chain from its head, one call per node, and then reaches the end,
    where it stays. *)
Lemma pass_yields_every_node_once (d : HashMapData) (ls : list (list addr))
    (calls fuel : nat) :
  map_ok d ->
  Forall2 (chain pNext (nodes d)) (aSlot_ d) ls ->
  (Z.to_nat (iCountSlot_ d) < fuel)%nat ->
  (length (concat ls) < calls)%nat ->
  exists d',
    pass calls fuel (Some d) = Ok (pairs_at (nodes d) (concat ls), Some d')
    /\ same_table d d'
    /\ forall fuel',
         HashMapIterate fuel' (Some d') false true = Ok (END, Some d', Some None).
Proof.
  intros (Hcnt & Hlen & _) Hall Hfuel Hcalls.
  assert (Hlen' : Z.of_nat (length ls) = iCountSlot_ d).
  { by rewrite <- (Forall2_length _ _ _ Hall). }
  destruct (lookup_lt_is_Some_2 ls 0) as [l0 Hl0]; [lia|].
  destruct (Forall2_lookup_r _ _ _ _ _ Hall Hl0) as (q & Hq & Hchain).
  unfold pass, HashMapIterate, slot_read.
  change (0 <? 0) with false. change (Z.to_nat 0) with 0%nat. cbv iota.
  rewrite Hq. cbn [exec_bind fst snd].
  set (d0 := set_bEnd (set_pIterNode (set_iIterIdx d 0) q) false).
  destruct (drain_spec ls calls d0 0 l0 fuel) as (d' & Hrun & He & Hsame);
    try done; try (simpl; lia).
  { by exists q. }
  { change (S (Z.to_nat 0)) with 1%nat.
    rewrite <- (concat_drop_S ls 0 l0 Hl0). by rewrite drop_0. }
  exists d'. change (S (Z.to_nat 0)) with 1%nat in Hrun.
  rewrite <- (concat_drop_S ls 0 l0 Hl0), drop_0 in Hrun.
  split; [done|]. split; [done|].
  intros fuel'. simpl. by rewrite He.
Qed.

Lemma length_concat_insert {A} (ls : list (list A)) u l x :
  ls !! u = Some l ->
  length (concat (<[u := x :: l]> ls)) = S (length (concat ls)).
Proof.
  intros Hu. pose proof (lookup_lt_Some _ _ _ Hu) as Hlt.
  rewrite insert_take_drop by done.
  rewrite <- (take_drop_middle ls u l Hu) at 3.
  rewrite !concat_app, !length_app. simpl. rewrite !length_app. simpl. lia.
Qed.

(** [HashMapPut] keeps [iSize_] equal to the number of chain nodes. *)
Lemma put_counted fuel d ls p size ok rc d' es :
  map_ok d -> counted d ls -> iSize_ d < INT32_MAX ->
  HashMapPut fuel (Some d) p size ok = Ok (rc, Some d', es) ->
  exists ls', counted d' ls'.
Proof.
  intros Hok (Hall & Hsz) Hmax H.
  unfold HashMapPut in H. destruct (size =? 0)%N; [injection H as _ <- _; by exists ls|].
  destruct (slot_index d (key p) size) as [u| |] eqn:Hu; try discriminate.
  simpl in H.
  destruct (slot_read (aSlot_ d) u) as [head| |] eqn:Hr; try discriminate.
  simpl in H.
  destruct (scan fuel (nodes d) None head (key p) size)
    as [[[[pp c] n]|]| |] eqn:Hs; try discriminate; simpl in H.
  - injection H as _ <- _. apply scan_found in Hs as [Hcn _].
    exists ls. split; [|done]. simpl.
    eapply Forall2_impl; [exact Hall|]. intros q l Hl.
    by apply (chain_insert_same_next _ _ _ _ _ n).
  - destruct ok; [|discriminate]. simpl in H. unfold slot_write in H.
    destruct ((u <? 0) || (Z.of_nat (length (aSlot_ d)) <=? u)) eqn:Hb;
      [discriminate|].
    simpl in H. injection H as _ <- _.
    assert (Hnew : nodes d !! fresh (dom (nodes d)) = None)
      by apply not_elem_of_dom, is_fresh.
    unfold slot_read in Hr. destruct (u <? 0); [discriminate|].
    destruct (aSlot_ d !! Z.to_nat u) as [q|] eqn:Hq; [|discriminate].
    injection Hr as ->.
    destruct (Forall2_lookup_l _ _ _ _ _ Hall Hq) as (l & Hl & Hchain).
    exists (<[Z.to_nat u := fresh (dom (nodes d)) :: l]> ls). split; simpl.
    + apply Forall2_insert.
      * eapply Forall2_impl; [exact Hall|]. intros q l' Hl'.
        by apply chain_insert_fresh.
      * econstructor; [apply lookup_insert_eq|]. simpl.
        by apply chain_insert_fresh.
    + rewrite (length_concat_insert _ _ _ _ Hl), wrap32_id.
      * lia.
      * unfold INT32_MAX in *. lia.
Qed.

Lemma chains_allocated (h : gmap addr SlotNode) slots ls :
  Forall2 (chain pNext h) slots ls ->
  Forall (fun a => is_Some (h !! a)) (concat ls).
Proof.
  intros Hall. apply Forall_concat.
  induction Hall as [|q l qs ls' Hl _ IH]; constructor; [|done].
  apply Forall_forall. intros a Ha. by eapply chain_allocated.
Qed.

Lemma length_pairs_at (h : gmap addr SlotNode) l :
  Forall (fun a => is_Some (h !! a)) l -> length (pairs_at h l) = length l.
Proof.
  induction 1 as [|a l [n Hn] _ IH]; [done|].
  unfold pairs_at in *. simpl. rewrite Hn. simpl. f_equal. exact IH.
Qed.

(** On a map whose [iSize_] counts the chain nodes, a pass yields exactly
    [size()] pairs. *)
Lemma pass_yields_size_pairs (d : HashMapData) (ls : list (list addr))
    (calls fuel : nat) :
  map_ok d -> counted d ls ->
  (Z.to_nat (iCountSlot_ d) < fuel)%nat ->
  (length (concat ls) < calls)%nat ->
  exists pairs d',
    pass calls fuel (Some d) = Ok (pairs, Some d')
    /\ HashMapSize (Some d) = Count (Z.of_nat (length pairs)).
Proof.
  intros Hok (Hall & Hsz) Hfuel Hcalls.
  destruct (pass_yields_every_node_once d ls calls fuel Hok Hall Hfuel Hcalls)
    as (d' & Hrun & _).
  eexists _, d'. split; [exact Hrun|]. simpl. rewrite Hsz.
  by rewrite (length_pairs_at _ _ (chains_allocated _ _ _ Hall)).
Qed.

Lemma empty_chains (h : gmap addr SlotNode) n :
  Forall2 (chain pNext h) (replicate n None) (replicate n []).
Proof.
  induction n as [|n IH]; simpl; constructor; [apply chain_nil|exact IH].
Qed.

Lemma concat_replicate_nil {A} n : concat (replicate n (@nil A)) = [].
Proof. by induction n. Qed.

Lemma fresh_map_counted hash : counted (fresh_map hash) (replicate 769%nat []).
Proof.
  split; [apply empty_chains|].
  by rewrite concat_replicate_nil.
Qed.

(** Claim C5 fails on the code.  The end state is sticky: once [bEnd_]
    is set, [iterate] returns [END] and stores null without changing the
    map.  But the number of pairs of a pass is not always [size()]: on
    the map of a, b, c, d a pass yields the four pairs and [size()] is
    4; after [remove(b)] a pass yields the three pairs a, c, d, each once,
    and then [END] again and again, while [size()] is still 4. *)
Theorem iteration_yields_fewer_pairs_than_size :
  (forall fuel d,
     HashMapIterate fuel (Some (set_bEnd d true)) false true
     = Ok (END, Some (set_bEnd d true), Some None))
  /\ exists m m1 m2 e e1,
       map_abcd byte_sum_hash = Ok m
       /\ HashMapSize m = Count 4
       /\ pass 5 770 m
          = Ok ([mkPair key_a 1; mkPair key_b 2; mkPair key_c 3; mkPair key_d 4], e)
       /\ HashMapRemove 8 m key_b 1 = Ok (SUCC, m1, [])
       /\ HashMapSize m1 = Count 4
       /\ pass 5 770 m1 = Ok ([mkPair key_a 1; mkPair key_c 3; mkPair key_d 4], e1)
       /\ HashMapIterate 1 m1 true true = Ok (SUCC, m2, None)
       /\ iterate_n 5 770 m2
          = Ok [(SUCC, Some (Some (mkPair key_a 1)));
                (SUCC, Some (Some (mkPair key_c 3)));
                (SUCC, Some (Some (mkPair key_d 4)));
                (END, Some None); (END, Some None)].
Proof.
  split; [done|].
  eexists _, _, _, _, _. split; [vm_compute; reflexivity|].
  split; [reflexivity|]. split; [vm_compute; reflexivity|].
  split; [vm_compute; reflexivity|]. split; [reflexivity|].
  split; [vm_compute; reflexivity|]. split; [vm_compute; reflexivity|].
  vm_compute. reflexivity.
Qed.

(** Claim C10.  [HashMapInit] leaves [bEnd_], [iIterIdx_] and
    [pIterNode_] unassigned.  On the map it builds, and on any map whose
    [bEnd_] was never assigned, [iterate] with [reset = false] and an
    output slot reads an indeterminate field: the call has no defined
    result.  A first call with [reset = true] assigns the three fields,
    after which [iterate] is defined (on the empty map it returns
    [END]). *)
Theorem cursor_is_not_initialized (hash : hash_fn) :
  HashMapInit hash true true true = (SUCC, Some (fresh_map hash))
  /\ bEnd_ (fresh_map hash) = Indeterminate
  /\ iIterIdx_ (fresh_map hash) = Indeterminate
  /\ pIterNode_ (fresh_map hash) = Indeterminate
  /\ (forall fuel, HashMapIterate fuel (Some (fresh_map hash)) false true = Fault)
  /\ (forall fuel iSize iIdxPrime iCountSlot iIterIdx aSlot pIterNode pHash
             pDestroy nodes,
        HashMapIterate fuel
          (Some (mkHashMapData Indeterminate iSize iIdxPrime iCountSlot iIterIdx
                   aSlot pIterNode pHash pDestroy nodes)) false true = Fault)
  /\ exists d,
       (forall fuel ppPair,
          HashMapIterate fuel (Some (fresh_map hash)) true ppPair
          = Ok (SUCC, Some d, None))
       /\ bEnd_ d = Val false /\ iIterIdx_ d = Val 0 /\ pIterNode_ d = Val None
       /\ HashMapIterate 769 (Some d) false true
          = Ok (END, Some (set_bEnd (set_iIterIdx d 769) true), Some None).
Proof.
  split; [reflexivity|]. split; [reflexivity|]. split; [reflexivity|].
  split; [reflexivity|]. split; [done|]. split; [done|].
  eexists. split; [intros fuel ppPair; reflexivity|].
  split; [reflexivity|]. split; [reflexivity|]. split; [reflexivity|].
  vm_compute. reflexivity.
Qed.

End HashMapSpec.

(** ** Unlinking and linking the nodes of a chain *)

Section ChainSurgery.
Context {N : Type} (next : N -> ptr).
Implicit Types (h : gmap addr N) (p : ptr) (l : list addr).

(** Unlinking the node [c] of a chain: the slot or the predecessor takes
    over the [next] field of [c], and [c] is freed. *)
Lemma chain_unlink h p l1 c l2 nc :
  chain next h p (l1 ++ c :: l2) -> h !! c = Some nc ->
  match last l1 with
  | None => p = Some c /\ chain next (delete c h) (next nc) l2
  | Some a => forall na', next na' = next nc ->
                a <> c /\ chain next (delete c (<[a := na']> h)) p (l1 ++ l2)
  end.
Proof.
  revert p. induction l1 as [|b l1 IH]; intros p H Hc.
  - simpl in *. pose proof (chain_NoDup _ _ _ _ H) as Hnd.
    inversion H as [|? n ? Hn Hrest]; subst. rewrite Hc in Hn. injection Hn as <-.
    split; [done|]. apply chain_delete_off; [|done]. by inversion Hnd.
  - pose proof (chain_NoDup _ _ _ _ H) as Hnd.
    simpl in H. inversion H as [|? nb ? Hb Hrest]; subst.
    specialize (IH _ Hrest Hc). rewrite last_cons.
    simpl in Hnd. apply NoDup_cons in Hnd as [Hbn Hnd].
    assert (Hbc : b <> c) by (intros ->; apply Hbn, elem_of_app; right; left).
    destruct (last l1) as [a|] eqn:Hl.
    + intros na' Hna. destruct (IH na' Hna) as [Hac IH'].
      split; [done|]. simpl.
      assert (Hba : b <> a).
      { intros ->. apply Hbn. apply elem_of_app. left.
        apply last_Some in Hl as [l' ->].
        apply elem_of_app. right. left. }
      econstructor; [|exact IH'].
      by rewrite lookup_delete_ne, lookup_insert_ne.
    + apply last_None in Hl as ->. simpl in *. destruct IH as [Hnb IH].
      intros na' Hna. split; [done|].
      econstructor; [by rewrite lookup_delete_ne, lookup_insert_eq|].
      rewrite Hna. rewrite delete_insert_ne by done.
      apply chain_insert_off; [|done].
      by apply not_elem_of_cons in Hbn as [_ ?].
Qed.

End ChainSurgery.

Section ChainLinking.
Context {N : Type} (next : N -> ptr).
Implicit Types (h : gmap addr N) (p : ptr) (l : list addr).

(** Linking a new node in front of the part [l2] of a chain. *)
Lemma chain_insert_at h p l1 l2 new nn :
  h !! new = None -> chain next h p (l1 ++ l2) -> chain next h (next nn) l2 ->
  match last l1 with
  | None => chain next (<[new := nn]> h) (Some new) (new :: l2)
  | Some a => forall na', next na' = Some new ->
                chain next (<[a := na']> (<[new := nn]> h)) p (l1 ++ new :: l2)
  end.
Proof.
  intros Hnew H Hq. revert p H. induction l1 as [|b l1 IH]; intros p H.
  - simpl. econstructor; [apply lookup_insert_eq|]. by apply chain_insert_fresh.
  - pose proof (chain_NoDup _ _ _ _ H) as Hnd. simpl in H, Hnd.
    inversion H as [|? nb ? Hb Hrest]; subst.
    apply NoDup_cons in Hnd as [Hbn Hnd].
    assert (Hbnew : b <> new) by congruence.
    specialize (IH _ Hrest). rewrite last_cons.
    destruct (last l1) as [a|] eqn:Hl.
    + intros na' Hna. simpl.
      assert (Hba : b <> a).
      { intros ->. apply Hbn. apply elem_of_app. left.
        apply last_Some in Hl as [l' ->]. apply elem_of_app. right. left. }
      econstructor; [|by apply IH].
      by rewrite !lookup_insert_ne.
    + apply last_None in Hl as ->. simpl in *. intros na' Hna.
      econstructor; [apply lookup_insert_eq|]. rewrite Hna.
      econstructor; [by rewrite lookup_insert_ne, lookup_insert_eq|].
      apply chain_insert_off; [done|]. by apply chain_insert_fresh.
Qed.

End ChainLinking.

(** ** Lists of chains *)

Section ConcatFacts.
Context {A : Type}.
Implicit Types (ls : list (list A)) (l : list A).

Lemma concat_lookup_split ls u l :
  ls !! u = Some l ->
  concat ls = concat (take u ls) ++ l ++ concat (drop (S u) ls).
Proof.
  intros Hu. rewrite <- (take_drop_middle ls u l Hu) at 1.
  by rewrite concat_app.
Qed.

Lemma concat_insert_split ls u l l' :
  ls !! u = Some l ->
  concat (<[u := l']> ls) = concat (take u ls) ++ l' ++ concat (drop (S u) ls).
Proof.
  intros Hu. pose proof (lookup_lt_Some _ _ _ Hu) as Hlt.
  rewrite insert_take_drop by done. by rewrite concat_app.
Qed.

Lemma elem_of_concat_lookup ls u l a :
  ls !! u = Some l -> a ∈ l -> a ∈ concat ls.
Proof.
  intros Hu Ha. rewrite (concat_lookup_split ls u l Hu).
  apply elem_of_app. right. apply elem_of_app. by left.
Qed.

Lemma length_concat_lookup ls u l :
  ls !! u = Some l -> (length l <= length (concat ls))%nat.
Proof.
  intros Hu. rewrite (concat_lookup_split ls u l Hu), !length_app. lia.
Qed.

Lemma NoDup_concat_disjoint ls : forall i j l l' a,
  NoDup (concat ls) -> ls !! i = Some l -> ls !! j = Some l' -> i <> j ->
  a ∈ l -> a ∉ l'.
Proof.
  induction ls as [|x ls IH]; intros i j l l' a Hnd Hi Hj Hne Ha; [done|].
  simpl in Hnd. apply NoDup_app in Hnd as (_ & Hdis & Hnd).
  destruct i as [|i], j as [|j]; simpl in *.
  - by destruct Hne.
  - injection Hi as ->. intros Ha'. apply (Hdis a Ha).
    by eapply elem_of_concat_lookup.
  - injection Hj as ->. intros Ha'. apply (Hdis a Ha').
    by eapply elem_of_concat_lookup.
  - apply (IH i j l l' a Hnd Hi Hj); [lia|done].
Qed.

Lemma NoDup_concat_lookup ls u l : NoDup (concat ls) -> ls !! u = Some l -> NoDup l.
Proof.
  intros Hnd Hu. rewrite (concat_lookup_split ls u l Hu) in Hnd.
  apply NoDup_app in Hnd as (_ & _ & Hnd). by apply NoDup_app in Hnd as (? & _).
Qed.

Lemma NoDup_concat_insert ls u l l' :
  NoDup (concat ls) -> ls !! u = Some l -> NoDup l' ->
  (forall a, a ∈ l' -> a ∈ l \/ a ∉ concat ls) ->
  NoDup (concat (<[u := l']> ls)).
Proof.
  intros Hnd Hu Hnd' Hsub. rewrite (concat_insert_split ls u l l' Hu).
  pose proof Hnd as Hnd0.
  rewrite (concat_lookup_split ls u l Hu) in Hnd.
  apply NoDup_app in Hnd as (HA & HAd & Hnd).
  apply NoDup_app in Hnd as (Hl & Hld & HB).
  apply NoDup_app. split; [done|]. split.
  - intros a Ha Hin. apply elem_of_app in Hin as [Hin|Hin].
    + destruct (Hsub a Hin) as [Hal|Hnot].
      * apply (HAd a Ha). apply elem_of_app. by left.
      * apply Hnot. rewrite (concat_lookup_split ls u l Hu).
        apply elem_of_app. by left.
    + apply (HAd a Ha). apply elem_of_app. by right.
  - apply NoDup_app. split; [done|]. split; [|done].
    intros a Ha Hin. destruct (Hsub a Ha) as [Hal|Hnot].
    + by apply (Hld a Hal).
    + apply Hnot. rewrite (concat_lookup_split ls u l Hu).
      apply elem_of_app. right. apply elem_of_app. by right.
Qed.

Lemma length_concat_insert_le ls u l l' :
  ls !! u = Some l -> (length l' <= length l)%nat ->
  (length (concat (<[u := l']> ls)) <= length (concat ls))%nat.
Proof.
  intros Hu Hle. rewrite (concat_insert_split ls u l l' Hu).
  rewrite (concat_lookup_split ls u l Hu), !length_app. lia.
Qed.

End ConcatFacts.

(** ** The vector: further properties *)

Module VectorExtra.
Import Vector VectorSpec.

Lemma grow_if_full_size d ok rc d1 es :
  grow_if_full d ok = Ok (rc, d1, es) -> iSize_ d1 = iSize_ d.
Proof.
  unfold grow_if_full, _VectorReisze. destruct (iSize_ d =? iCapacity_ d).
  - rewrite andb_false_r. simpl.
    destruct (realloc (aItem_ d) (wrap32 (iCapacity_ d * 2)) ok);
      intros [= <- <- <-]; done.
  - by intros [= <- <- <-].
Qed.


Lemma push_back_insert_eq (d : VectorData) (x : Item) (ok : bool) :
  0 <= iSize_ d ->
  VectorPushBack (Some d) x ok = VectorInsert (Some d) x (iSize_ d) ok.
Proof.
  intros Hs. unfold VectorPushBack, VectorInsert.
  destruct (Z.ltb_spec (iSize_ d) 0); [lia|].
  rewrite Z.ltb_irrefl. simpl.
  destruct (grow_if_full d ok) as [[[rc d1] es]| |] eqn:Hg; simpl; try done.
  rewrite (grow_if_full_size _ _ _ _ _ Hg).
  destruct (decide (rc <> SUCC)); [done|].
  rewrite Z.sub_diag. change (wrap32 0) with 0. simpl. done.
Qed.

Lemma items_length d : vec_ok d -> length (items d) = Z.to_nat (iSize_ d).
Proof. intros (Hs & Hc & Hl & _). unfold items. rewrite length_take. lia. Qed.

Lemma insert_capacity d x i ok d' es :
  VectorInsert (Some d) x i ok = Ok (Val SUCC, Some d', es) ->
  iCapacity_ d' = iCapacity_ d
  \/ (iSize_ d = iCapacity_ d /\ iCapacity_ d' = wrap32 (iCapacity_ d * 2)).
Proof.
  unfold VectorInsert. destruct ((i <? 0) || (iSize_ d <? i)); [discriminate|].
  unfold grow_if_full, _VectorReisze.
  destruct (Z.eqb_spec (iSize_ d) (iCapacity_ d)) as [E|E].
  - rewrite andb_false_r. simpl.
    destruct (realloc (aItem_ d) (wrap32 (iCapacity_ d * 2)) ok); simpl;
      [|discriminate].
    destruct (if 0 <? _ then _ else _); simpl; try discriminate.
    destruct (write _ _ _); simpl; try discriminate.
    intros [= <- _]. right. done.
  - simpl. destruct (if 0 <? _ then _ else _); simpl; try discriminate.
    destruct (write _ _ _); simpl; try discriminate.
    intros [= <- _]. left. done.
Qed.

Lemma push_back_cases (d : VectorData) (x : Item) (realloc_ok : bool) :
  vec_ok d ->
  (exists d',
     VectorPushBack (Some d) x realloc_ok = Ok (Val SUCC, Some d', [])
     /\ vec_ok d'
     /\ items d' = items d ++ [Some x]
     /\ iSize_ d' = iSize_ d + 1
     /\ iCapacity_ d' = (if iSize_ d =? iCapacity_ d then iCapacity_ d * 2
                         else iCapacity_ d)
     /\ VectorGet (Some d') (iSize_ d) = Ok (SUCC, Some x))
  \/ (iSize_ d = iCapacity_ d
      /\ (realloc_ok = false \/ INT32_MAX < iCapacity_ d * 2)
      /\ VectorPushBack (Some d) x realloc_ok = Ok (Val ERR_NOMEM, Some d, [])).
Proof.
  intros Hok. pose proof Hok as (Hs & Hc & Hl & _).
  rewrite push_back_insert_eq by lia.
  destruct (insert_cases d x (iSize_ d) realloc_ok Hok ltac:(lia))
    as [(d' & Hins & Hok' & Hsz & Hds & Hit)|H]; [left|right; done].
  exists d'. split; [done|]. split; [done|].
  assert (Hit' : items d' = items d ++ [Some x]).
  { pose proof (items_length d Hok) as Hlen.
    rewrite Hit, take_ge, drop_ge by lia. done. }
  split; [done|]. split; [done|]. split.
  - destruct (insert_capacity _ _ _ _ _ _ Hins) as [E|[E1 E2]].
    + destruct (Z.eqb_spec (iSize_ d) (iCapacity_ d)) as [E'|]; [|done].
      exfalso. pose proof Hok' as (? & ? & _). lia.
    + destruct (Z.eqb_spec (iSize_ d) (iCapacity_ d)); [|lia].
      rewrite E2. pose proof Hok' as (? & ? & _).
      destruct (Z.le_gt_cases (iCapacity_ d * 2) INT32_MAX) as [Hle|Hgt].
      * apply wrap32_id. unfold INT32_MAX in *. lia.
      * exfalso. unfold wrap32, INT32_MAX in *.
        replace (iCapacity_ d * 2 + 2147483648)
          with ((iCapacity_ d * 2 - 2147483648) + 1 * 4294967296) in E2 by lia.
        rewrite Z_mod_plus_full, Z.mod_small in E2 by lia. lia.
  - destruct (get_in_range d' (iSize_ d) Hok' ltac:(lia)) as (y & -> & Hy).
    pose proof (items_length d Hok) as Hlen.
    rewrite Hit', lookup_app_r, Hlen, Nat.sub_diag in Hy by lia.
    simpl in Hy. congruence.
Qed.

(** Extra X1.  On a well-formed vector [push_back(x)] either appends:
    it returns [SUCC] without calling the destroy routine, the items
    become the old items followed by [x], the size grows by one, the
    capacity doubles exactly when the vector was full, and [get] at the
    old size yields [x]; or the vector was full and the storage could not
    be doubled ([realloc] failed, or twice the capacity exceeds
    [INT32_MAX]), and it returns [ERR_NOMEM] with the vector unchanged. *)
Theorem push_back_appends (d : VectorData) (x : Item) (realloc_ok : bool) :
  vec_ok d ->
  (exists d',
     VectorPushBack (Some d) x realloc_ok = Ok (Val SUCC, Some d', [])
     /\ vec_ok d'
     /\ items d' = items d ++ [Some x]
     /\ iSize_ d' = iSize_ d + 1
     /\ iCapacity_ d' = (if iSize_ d =? iCapacity_ d then iCapacity_ d * 2
                         else iCapacity_ d)
     /\ VectorGet (Some d') (iSize_ d) = Ok (SUCC, Some x))
  \/ (iSize_ d = iCapacity_ d
      /\ (realloc_ok = false \/ INT32_MAX < iCapacity_ d * 2)
      /\ VectorPushBack (Some d) x realloc_ok = Ok (Val ERR_NOMEM, Some d, [])).
Proof. apply push_back_cases. Qed.

Lemma push_back_appends_witness :
  vec_ok vec_abc
  /\ exists d', VectorPushBack (Some vec_abc) 40 false = Ok (Val SUCC, Some d', [])
                /\ items d' = items vec_abc ++ [Some 40].
Proof.
  split; [exact vec_abc_ok|].
  destruct (push_back_appends vec_abc 40 false vec_abc_ok)
    as [(d' & H1 & _ & H2 & _)|(H & _)].
  - exists d'. split; assumption.
  - exfalso. vm_compute in H. discriminate.
Defined.

Lemma push_all_appends_from (xs : list Item) : forall d,
  vec_ok d -> iSize_ d + Z.of_nat (length xs) <= 1073741824 ->
  exists d',
    push_all (Some d) xs = Ok (Val SUCC, Some d')
    /\ vec_ok d'
    /\ items d' = items d ++ (Some <$> xs)
    /\ VectorSize (Some d') = Count (iSize_ d + Z.of_nat (length xs)).
Proof.
  induction xs as [|x xs IH]; intros d Hok Hlen.
  - exists d. simpl. rewrite app_nil_r, Z.add_0_r. done.
  - pose proof Hok as (Hs & Hc & _). cbn [length] in Hlen.
    destruct (push_back_cases d x true Hok)
      as [(d1 & Hp & Hok1 & Hit & Hsz & _)|(Hfull & [?|Hover] & _)];
      [|done|unfold INT32_MAX in *; lia].
    destruct (IH d1 Hok1) as (d' & Hrun & Hok' & Hit' & Hsz'); [lia|].
    exists d'. cbn [push_all]. rewrite Hp. cbn [exec_bind]. rewrite Hrun.
    split; [done|]. split; [done|]. split.
    + rewrite Hit', Hit, <- app_assoc. done.
    + rewrite Hsz', Hsz. f_equal. cbn [length]. lia.
Qed.

(** Extra X2.  A run of [push_back] calls whose reallocations
    succeed appends the pushed items in order, as long as the final size
    stays within 2^30: every call returns [SUCC], the vector stays
    well-formed, and [size()] is the old size plus the number of calls. *)
Theorem push_all_appends (xs : list Item) (d : VectorData) :
  vec_ok d -> iSize_ d + Z.of_nat (length xs) <= 1073741824 ->
  exists d',
    push_all (Some d) xs = Ok (Val SUCC, Some d')
    /\ vec_ok d'
    /\ items d' = items d ++ (Some <$> xs)
    /\ VectorSize (Some d') = Count (iSize_ d + Z.of_nat (length xs)).
Proof. apply push_all_appends_from. Qed.

Lemma push_all_appends_witness :
  vec_ok vec_abc /\ iSize_ vec_abc + Z.of_nat (length [1; 2]) <= 1073741824
  /\ exists d', push_all (Some vec_abc) [1; 2] = Ok (Val SUCC, Some d')
                /\ VectorSize (Some d') = Count 5.
Proof.
  assert (H : iSize_ vec_abc + Z.of_nat (length [1; 2]) <= 1073741824)
    by (vm_compute; discriminate).
  split; [exact vec_abc_ok|]. split; [exact H|].
  destruct (push_all_appends [1; 2] vec_abc vec_abc_ok H) as (d' & H1 & _ & _ & H2).
  exists d'. split; assumption.
Defined.

(** Extra X3.  [push_back(x)] is [insert(x, size)]: on a vector
    whose size is not negative the two calls give the same result, the
    same vector and the same destroy calls, whatever [realloc] answers. *)
Theorem push_back_is_insert_at_size (d : VectorData) (x : Item) (realloc_ok : bool) :
  0 <= iSize_ d ->
  VectorPushBack (Some d) x realloc_ok
  = VectorInsert (Some d) x (iSize_ d) realloc_ok.
Proof. apply push_back_insert_eq. Qed.

Lemma push_back_is_insert_at_size_witness :
  0 <= iSize_ vec_full
  /\ VectorPushBack (Some vec_full) 8 true
     = VectorInsert (Some vec_full) 8 (iSize_ vec_full) true.
Proof.
  assert (H : 0 <= iSize_ vec_full) by (vm_compute; discriminate).
  split; [exact H|]. exact (push_back_is_insert_at_size vec_full 8 true H).
Defined.

Lemma pop_back_cases d bClean :
  vec_ok d -> 0 < iSize_ d ->
  exists d' f y,
    pDestroy_ d = Some f
    /\ items d !! Z.to_nat (iSize_ d - 1) = Some (Some y)
    /\ VectorPopBack (Some d) bClean
       = Ok (Val SUCC, Some d', if bClean then [Destroyed f y] else [])
    /\ vec_ok d'
    /\ iSize_ d' = iSize_ d - 1
    /\ iCapacity_ d' = iCapacity_ d
    /\ items d' = take (Z.to_nat (iSize_ d - 1)) (items d).
Proof.
  intros Hok Hpos. pose proof Hok as (Hs & Hc & Hl & Hall & [f Hf]).
  destruct (vec_ok_read d (iSize_ d - 1) Hok ltac:(lia)) as (y & Hr & Hy).
  unfold VectorPopBack. destruct (Z.eqb_spec (iSize_ d) 0); [lia|].
  rewrite wrap32_id by (unfold INT32_MAX in *; lia). simpl.
  assert (Hes : (if bClean
                 then item <- read (aItem_ d) (iSize_ d - 1);;
                      call_destroy (set_size d (iSize_ d - 1)) item
                 else Ok [])
                = Ok (if bClean then [Destroyed f y] else [])).
  { destruct bClean; [|done]. rewrite Hr. simpl. unfold call_destroy. simpl.
    by rewrite Hf. }
  rewrite Hes. simpl. eexists _, f, y. split; [done|].
  split; [unfold items; rewrite lookup_take_lt by lia; done|].
  split; [reflexivity|].
  unfold vec_ok, items; simpl.
  split; [|split; [done|split; [done|]]].
  - split; [lia|]. split; [lia|]. split; [done|]. split; [|by exists f].
    replace (take (Z.to_nat (iSize_ d - 1)) (aItem_ d))
      with (take (Z.to_nat (iSize_ d - 1)) (take (Z.to_nat (iSize_ d)) (aItem_ d)))
      by (rewrite take_take; f_equal; lia).
    apply Forall_take. exact Hall.
  - rewrite take_take. f_equal. lia.
Qed.

(** Extra X4.  On a well-formed vector, [pop_back] of an empty
    vector returns [ERR_IDX] and changes nothing; otherwise it returns
    [SUCC], drops the last item (the one [get(size - 1)] yields), calls
    the destroy routine on it exactly when [bClean] is set, and keeps the
    capacity and the other items.  A [pop_back(false)] after a successful
    [push_back] gives back the items and the size from before the push. *)
Theorem pop_back_removes_last (d : VectorData) (bClean : bool) :
  vec_ok d ->
  (iSize_ d = 0 -> VectorPopBack (Some d) bClean = Ok (Val ERR_IDX, Some d, []))
  /\ (0 < iSize_ d ->
      exists d' f y,
        pDestroy_ d = Some f
        /\ VectorGet (Some d) (iSize_ d - 1) = Ok (SUCC, Some y)
        /\ VectorPopBack (Some d) bClean
           = Ok (Val SUCC, Some d', if bClean then [Destroyed f y] else [])
        /\ vec_ok d'
        /\ iSize_ d' = iSize_ d - 1
        /\ iCapacity_ d' = iCapacity_ d
        /\ items d' = take (Z.to_nat (iSize_ d - 1)) (items d))
  /\ (forall x realloc_ok d1 es,
        VectorPushBack (Some d) x realloc_ok = Ok (Val SUCC, Some d1, es) ->
        exists d2, VectorPopBack (Some d1) false = Ok (Val SUCC, Some d2, [])
                   /\ items d2 = items d /\ iSize_ d2 = iSize_ d).
Proof.
  intros Hok. split; [|split].
  - intros E. unfold VectorPopBack. by rewrite E.
  - intros Hpos.
    destruct (pop_back_cases d bClean Hok Hpos) as (d' & f & y & Hf & Hy & H).
    exists d', f, y. split; [done|]. split; [|exact H].
    destruct (get_in_range d (iSize_ d - 1) Hok ltac:(lia)) as (z & -> & Hz).
    congruence.
  - intros x ok d1 es Hpush.
    destruct (push_back_cases d x ok Hok)
      as [(d1' & Hp & Hok1 & Hit & Hsz & _)|(_ & _ & H)]; [|congruence].
    rewrite Hp in Hpush. injection Hpush as <- <-.
    destruct (pop_back_cases d1' false Hok1 ltac:(pose proof Hok as (? & _); lia))
      as (d2 & f & y & _ & _ & Hpop & _ & Hsz2 & _ & Hit2).
    exists d2. split; [done|]. split; [|lia].
    rewrite Hit2, Hit, Hsz. replace (iSize_ d + 1 - 1) with (iSize_ d) by lia.
    apply take_app_length'. by rewrite items_length.
Qed.

Lemma pop_back_removes_last_witness :
  vec_ok vec_abc
  /\ VectorPopBack (Some vec_abc) true
     = Ok (Val SUCC, Some (mkVectorData 2 4 [Some 10; Some 20; Some 30; None]
                             (Some (user_destroy 0))),
           [Destroyed (user_destroy 0) 30])
  /\ exists d', VectorPopBack (Some vec_abc) false = Ok (Val SUCC, Some d', [])
                /\ vec_ok d'.
Proof.
  split; [exact vec_abc_ok|]. split; [reflexivity|].
  destruct (pop_back_removes_last vec_abc false vec_abc_ok) as (_ & H & _).
  destruct (H ltac:(vm_compute; reflexivity))
    as (d' & f & y & _ & _ & Hpop & Hok & _).
  exists d'. split; assumption.
Defined.

(** Extra X5.  On a well-formed vector and an index in range,
    [set(x, i, bClean)] returns [SUCC], calls the destroy routine on the
    item that was at [i] exactly when [bClean] is set, keeps size and
    capacity, makes [get(i)] yield [x], and leaves what [get] answers at
    every other index. *)
Theorem set_then_get (d : VectorData) (x : Item) (i : Z) (bClean : bool) :
  vec_ok d -> 0 <= i < iSize_ d ->
  exists d' f y,
    pDestroy_ d = Some f
    /\ VectorGet (Some d) i = Ok (SUCC, Some y)
    /\ VectorSet (Some d) x i bClean
       = Ok (Val SUCC, Some d', if bClean then [Destroyed f y] else [])
    /\ vec_ok d'
    /\ iSize_ d' = iSize_ d /\ iCapacity_ d' = iCapacity_ d
    /\ VectorGet (Some d') i = Ok (SUCC, Some x)
    /\ forall j, j <> i -> VectorGet (Some d') j = VectorGet (Some d) j.
Proof.
  intros Hok Hi.
  destruct (set_in_range d x i bClean Hok Hi)
    as (d' & f & y & Hf & Hy & Hset & Hok' & Hsz & Hcap & Hit).
  pose proof (items_length d Hok) as Hlen.
  exists d', f, y. split; [done|]. split.
  { destruct (get_in_range d i Hok Hi) as (z & -> & Hz). congruence. }
  split; [done|]. split; [done|]. split; [done|]. split; [done|]. split.
  - destruct (get_in_range d' i Hok' ltac:(lia)) as (z & -> & Hz).
    rewrite Hit, list_lookup_insert_eq in Hz by lia. congruence.
  - intros j Hj.
    destruct (decide (0 <= j < iSize_ d)) as [Hin|Hout].
    + destruct (get_in_range d' j Hok' ltac:(lia)) as (z & -> & Hz).
      destruct (get_in_range d j Hok Hin) as (w & -> & Hw).
      rewrite Hit, list_lookup_insert_ne in Hz by lia. congruence.
    + rewrite !get_out_of_range by lia. done.
Qed.

Lemma set_then_get_witness :
  vec_ok vec_abc /\ 0 <= 1 < iSize_ vec_abc
  /\ exists d', VectorSet (Some vec_abc) 25 1 true
                = Ok (Val SUCC, Some d', [Destroyed (user_destroy 0) 20])
                /\ VectorGet (Some d') 1 = Ok (SUCC, Some 25).
Proof.
  assert (Hi : 0 <= 1 < iSize_ vec_abc) by (vm_compute; split; [discriminate|reflexivity]).
  split; [exact vec_abc_ok|]. split; [exact Hi|].
  destruct (set_then_get vec_abc 25 1 true vec_abc_ok Hi)
    as (d' & f & y & Hf & Hy & Hset & _ & _ & _ & Hget & _).
  exists d'. split; [|exact Hget].
  rewrite Hset. injection Hf as <-. vm_compute in Hy. injection Hy as <-.
  reflexivity.
Defined.

(** Extra X6.  On a well-formed vector and an index in range,
    [delete(i, bClean)] returns [SUCC], calls the destroy routine on the
    item that was at [i] exactly when [bClean] is set, and shifts the
    items behind [i] one place to the left: [get] answers as before below
    [i], gives the old item of [j + 1] at [j] from [i] on, and [ERR_IDX]
    at the old last index; the size drops by one, the capacity stays. *)
Theorem delete_shifts_left (d : VectorData) (i : Z) (bClean : bool) :
  vec_ok d -> 0 <= i < iSize_ d ->
  exists d' f y,
    pDestroy_ d = Some f
    /\ VectorGet (Some d) i = Ok (SUCC, Some y)
    /\ VectorDelete (Some d) i bClean
       = Ok (Val SUCC, Some d', if bClean then [Destroyed f y] else [])
    /\ vec_ok d'
    /\ iSize_ d' = iSize_ d - 1 /\ iCapacity_ d' = iCapacity_ d
    /\ (forall j, 0 <= j < i -> VectorGet (Some d') j = VectorGet (Some d) j)
    /\ (forall j, i <= j < iSize_ d - 1 ->
          VectorGet (Some d') j = VectorGet (Some d) (j + 1))
    /\ VectorGet (Some d') (iSize_ d - 1) = Ok (ERR_IDX, None).
Proof.
  intros Hok Hi.
  destruct (delete_in_range d i bClean Hok Hi)
    as (d' & f & y & Hf & Hy & Hdel & Hok' & Hsz & Hcap & _ & Hit).
  pose proof (items_length d Hok) as Hlen.
  assert (Hlt : length (take (Z.to_nat i) (items d)) = Z.to_nat i)
    by (rewrite length_take; lia).
  exists d', f, y. split; [done|]. split.
  { destruct (get_in_range d i Hok Hi) as (z & -> & Hz). congruence. }
  split; [done|]. split; [done|]. split; [done|]. split; [done|].
  split; [|split].
  - intros j Hj.
    destruct (get_in_range d' j Hok' ltac:(lia)) as (z & -> & Hz).
    destruct (get_in_range d j Hok ltac:(lia)) as (w & -> & Hw).
    rewrite Hit, lookup_app_l, lookup_take_lt in Hz by lia. congruence.
  - intros j Hj.
    destruct (get_in_range d' j Hok' ltac:(lia)) as (z & -> & Hz).
    destruct (get_in_range d (j + 1) Hok ltac:(lia)) as (w & -> & Hw).
    rewrite Hit, lookup_app_r, Hlt, lookup_drop in Hz by lia.
    replace (S (Z.to_nat i) + (Z.to_nat j - Z.to_nat i))%nat
      with (Z.to_nat (j + 1)) in Hz by lia.
    congruence.
  - apply get_out_of_range. lia.
Qed.

Lemma delete_shifts_left_witness :
  vec_ok vec_abc /\ 0 <= 0 < iSize_ vec_abc
  /\ exists d', VectorDelete (Some vec_abc) 0 false = Ok (Val SUCC, Some d', [])
                /\ VectorGet (Some d') 0 = VectorGet (Some vec_abc) (0 + 1).
Proof.
  assert (Hi : 0 <= 0 < iSize_ vec_abc) by (vm_compute; split; [discriminate|reflexivity]).
  split; [exact vec_abc_ok|]. split; [exact Hi|].
  destruct (delete_shifts_left vec_abc 0 false vec_abc_ok Hi)
    as (d' & f & y & _ & _ & Hdel & _ & _ & _ & _ & Hshift & _).
  exists d'. split; [exact Hdel|]. apply Hshift. vm_compute. split; [discriminate|reflexivity].
Defined.

(** Extra X7.  [resize(n, false)] below the size does not
    lower the size.  On a well-formed vector with [0 <= n < size] the
    call returns [SUCC] and destroys nothing, the storage shrinks to [n]
    items while [iSize_] stays, so the vector ends with its size above
    its capacity: [get] still answers below [n], and a [get] at an index
    from [n] up to the size, which the bounds test admits, reads outside
    the storage. *)
Theorem resize_without_clean_keeps_size (d : VectorData) (n : Z) :
  vec_ok d -> 0 <= n < iSize_ d ->
  exists d',
    VectorResize (Some d) n false true = Ok (Val SUCC, Some d', [])
    /\ iSize_ d' = iSize_ d
    /\ iCapacity_ d' = n
    /\ iCapacity_ d' < iSize_ d'
    /\ Z.of_nat (length (aItem_ d')) = n
    /\ (forall j, 0 <= j < n -> VectorGet (Some d') j = VectorGet (Some d) j)
    /\ (forall j, n <= j < iSize_ d -> VectorGet (Some d') j = Fault).
Proof.
  intros Hok Hn. pose proof Hok as (Hs & Hc & Hl & Hall & Hd).
  unfold VectorResize, _VectorReisze. rewrite andb_false_r. simpl.
  unfold realloc. destruct (Z.ltb_spec n 0); [lia|]. simpl.
  replace (Z.to_nat n - length (aItem_ d))%nat with 0%nat by lia.
  simpl. rewrite app_nil_r.
  eexists. split; [reflexivity|]. simpl.
  split; [done|]. split; [done|]. split; [lia|].
  split; [rewrite length_take; lia|]. split.
  - intros j Hj. unfold VectorGet. simpl.
    destruct (Z.ltb_spec j 0); [lia|]. destruct (Z.leb_spec (iSize_ d) j); [lia|].
    simpl. unfold read. destruct (Z.ltb_spec j 0); [lia|].
    by rewrite lookup_take_lt by lia.
  - intros j Hj. unfold VectorGet. simpl.
    destruct (Z.ltb_spec j 0); [lia|]. destruct (Z.leb_spec (iSize_ d) j); [lia|].
    simpl. unfold read. destruct (Z.ltb_spec j 0); [lia|].
    rewrite lookup_take_ge by lia. done.
Qed.

Lemma resize_without_clean_keeps_size_witness :
  vec_ok vec_abc /\ 0 <= 1 < iSize_ vec_abc
  /\ exists d', VectorResize (Some vec_abc) 1 false true = Ok (Val SUCC, Some d', [])
                /\ VectorSize (Some d') = Count 3
                /\ VectorCapacity (Some d') = Count 1
                /\ VectorGet (Some d') 2 = Fault.
Proof.
  assert (Hi : 0 <= 1 < iSize_ vec_abc) by (vm_compute; split; [discriminate|reflexivity]).
  split; [exact vec_abc_ok|]. split; [exact Hi|].
  destruct (resize_without_clean_keeps_size vec_abc 1 vec_abc_ok Hi)
    as (d' & Hr & Hsz & Hcap & _ & _ & _ & Hget).
  exists d'. split; [exact Hr|]. cbn [VectorSize VectorCapacity]. rewrite Hsz, Hcap.
  split; [reflexivity|]. split; [reflexivity|].
  apply Hget. vm_compute. split; [discriminate|reflexivity].
Defined.

(** Extra X8.  [VectorDeinit] of a well-formed vector nulls the
    handle; with [bClean] set it first calls the destroy routine once on
    every stored item, in index order, and without [bClean] it calls it
    on none. *)
Theorem deinit_destroys_every_item (d : VectorData) :
  vec_ok d ->
  exists f stored,
    pDestroy_ d = Some f
    /\ items d = Some <$> stored
    /\ VectorDeinit (Some d) true = Ok (None, Destroyed f <$> stored)
    /\ VectorDeinit (Some d) false = Ok (None, []).
Proof.
  intros Hok. pose proof Hok as (Hs & Hc & Hl & Hall & [f Hf]).
  assert (Hst : exists stored, items d = Some <$> stored).
  { unfold items. induction Hall as [|o l [y ->] _ [tr ->]];
      [by exists []|by exists (y :: tr)]. }
  destruct Hst as [stored Hst]. exists f, stored.
  split; [done|]. split; [done|]. split; [|done].
  unfold VectorDeinit.
  rewrite (destroy_from_spec d f _ Hf 0 stored); [done|lia|done|].
  apply (f_equal length) in Hst. rewrite length_fmap in Hst.
  by rewrite <- Hst, items_length.
Qed.

Lemma deinit_destroys_every_item_witness :
  vec_ok vec_abc
  /\ VectorDeinit (Some vec_abc) true
     = Ok (None, [Destroyed (user_destroy 0) 10; Destroyed (user_destroy 0) 20;
                  Destroyed (user_destroy 0) 30]).
Proof.
  split; [exact vec_abc_ok|].
  destruct (deinit_destroys_every_item vec_abc vec_abc_ok)
    as (f & stored & Hf & Hst & Hrun & _).
  rewrite Hrun. injection Hf as <-.
  destruct stored as [|a [|b [|c [|? ?]]]]; try discriminate Hst.
  vm_compute in Hst. injection Hst as <- <- <-. reflexivity.
Defined.

(** Extra X9.  On a well-formed vector no call reads or writes
    outside the storage, whatever the index and whatever [realloc]
    answers: [push_back], [insert], [pop_back], [delete] and [set] return
    a code and leave a well-formed vector, [get] returns a code, and so
    does [resize] to a capacity in [1, INT32_MAX] that is not below the
    size or that is asked with [bClean] set. *)
Theorem vector_calls_are_memory_safe (d : VectorData) :
  vec_ok d ->
  (forall x ok, exists rc d' es,
     VectorPushBack (Some d) x ok = Ok (Val rc, Some d', es) /\ vec_ok d')
  /\ (forall x i ok, exists rc d' es,
        VectorInsert (Some d) x i ok = Ok (Val rc, Some d', es) /\ vec_ok d')
  /\ (forall bClean, exists rc d' es,
        VectorPopBack (Some d) bClean = Ok (Val rc, Some d', es) /\ vec_ok d')
  /\ (forall i bClean, exists rc d' es,
        VectorDelete (Some d) i bClean = Ok (Val rc, Some d', es) /\ vec_ok d')
  /\ (forall x i bClean, exists rc d' es,
        VectorSet (Some d) x i bClean = Ok (Val rc, Some d', es) /\ vec_ok d')
  /\ (forall i, exists rc out, VectorGet (Some d) i = Ok (rc, out))
  /\ (forall n bClean ok,
        0 < n <= INT32_MAX -> bClean = true \/ iSize_ d <= n ->
        exists rc d' es,
          VectorResize (Some d) n bClean ok = Ok (Val rc, Some d', es) /\ vec_ok d').
Proof.
  intros Hok. pose proof Hok as (Hs & Hc & Hl & Hall & Hd).
  split; [|split; [|split; [|split; [|split; [|split]]]]].
  - intros x ok. destruct (push_back_cases d x ok Hok)
      as [(d' & H & Hok' & _)|(_ & _ & H)]; eauto 6.
  - intros x i ok. destruct (decide (0 <= i <= iSize_ d)) as [Hi|Hi].
    + destruct (insert_cases d x i ok Hok Hi) as [(d' & H & Hok' & _)|(_ & _ & H)];
        eauto 6.
    + rewrite insert_out_of_range by done. eauto 6.
  - intros bClean. destruct (decide (iSize_ d = 0)) as [E|E].
    + unfold VectorPopBack. rewrite E. simpl. eauto 6.
    + destruct (pop_back_cases d bClean Hok ltac:(lia))
        as (d' & f & y & _ & _ & H & Hok' & _). eauto 6.
  - intros i bClean. destruct (decide (0 <= i < iSize_ d)) as [Hi|Hi].
    + destruct (delete_in_range d i bClean Hok Hi)
        as (d' & f & y & _ & _ & H & Hok' & _). eauto 6.
    + rewrite delete_out_of_range by done. eauto 6.
  - intros x i bClean. destruct (decide (0 <= i < iSize_ d)) as [Hi|Hi].
    + destruct (set_in_range d x i bClean Hok Hi)
        as (d' & f & y & _ & _ & H & Hok' & _). eauto 6.
    + rewrite set_out_of_range by done. eauto 6.
  - intros i. destruct (decide (0 <= i < iSize_ d)) as [Hi|Hi].
    + destruct (get_in_range d i Hok Hi) as (y & H & _). eauto.
    + rewrite get_out_of_range by done. eauto.
  - intros n bClean ok Hn Hmode.
    destruct (Z.lt_ge_cases n (iSize_ d)) as [Hlt|Hge].
    + destruct Hmode as [->|?]; [|lia].
      destruct (resize_shrink_clean d n ok Hok ltac:(lia))
        as (f & tr & d' & Hf & Htr & Hrun & Hsz & Hcap & Hit).
      exists (if ok then SUCC else ERR_NOMEM), d', (Destroyed f <$> tr).
      split; [done|].
      revert Hrun. unfold VectorResize, _VectorReisze.
      destruct (Z.ltb_spec n (iSize_ d)); [|lia]. simpl.
      destruct (destroy_from d _ n) as [es| |]; simpl; try discriminate.
      unfold realloc. destruct (Z.ltb_spec n 0); [lia|]. destruct ok; simpl.
      * intros [= <- _]. unfold vec_ok; simpl.
        replace (Z.to_nat n - length (aItem_ d))%nat with 0%nat by lia.
        simpl. rewrite app_nil_r, length_take.
        split; [lia|]. split; [lia|]. split; [lia|]. split; [|done].
        rewrite take_take.
        replace (take (Z.to_nat n `min` Z.to_nat n) (aItem_ d))
          with (take (Z.to_nat n) (take (Z.to_nat (iSize_ d)) (aItem_ d)))
          by (rewrite take_take; f_equal; lia).
        by apply Forall_take.
      * intros [= <- _]. unfold vec_ok; simpl.
        split; [lia|]. split; [lia|]. split; [lia|]. split; [|done].
        replace (take (Z.to_nat n) (aItem_ d))
          with (take (Z.to_nat n) (take (Z.to_nat (iSize_ d)) (aItem_ d)))
          by (rewrite take_take; f_equal; lia).
        by apply Forall_take.
    + unfold VectorResize, _VectorReisze.
      destruct (Z.ltb_spec n (iSize_ d)); [lia|]. simpl.
      unfold realloc. destruct (Z.ltb_spec n 0); [lia|]. destruct ok; simpl.
      * eexists _, _, _. split; [reflexivity|]. unfold vec_ok; simpl.
        rewrite length_app, length_take, length_replicate.
        split; [lia|]. split; [lia|]. split; [lia|]. split; [|done].
        rewrite take_app_le by (rewrite length_take; lia).
        rewrite take_take.
        replace (Z.to_nat (iSize_ d) `min` Z.to_nat n)%nat
          with (Z.to_nat (iSize_ d)) by lia.
        done.
      * eexists _, _, _. split; [reflexivity|]. done.
Qed.

Lemma vector_calls_are_memory_safe_witness :
  vec_ok vec_full
  /\ exists rc d' es,
       VectorInsert (Some vec_full) 5 1 true = Ok (Val rc, Some d', es) /\ vec_ok d'.
Proof.
  assert (Hok : vec_ok vec_full).
  { unfold vec_ok, INT32_MAX. simpl. repeat split; try lia; eauto;
      try (repeat constructor; eauto). }
  split; [exact Hok|].
  destruct (vector_calls_are_memory_safe vec_full Hok) as (_ & H & _).
  exact (H 5 1 true).
Defined.


(** Extra X10.  [VectorInit], when its three allocations succeed,
    gives an empty vector of capacity 1; any run of at most 2^30
    [push_back] calls on it whose reallocations succeed returns [SUCC]
    throughout, after which [size()] is the number of calls and [get(i)]
    yields the item of the [i]-th call. *)
Theorem init_then_push_all (xs : list Item) :
  Z.of_nat (length xs) <= 1073741824 ->
  exists d0 d',
    VectorInit true true true = (SUCC, Some d0)
    /\ VectorSize (Some d0) = Count 0 /\ VectorCapacity (Some d0) = Count 1
    /\ push_all (Some d0) xs = Ok (Val SUCC, Some d')
    /\ vec_ok d'
    /\ VectorSize (Some d') = Count (Z.of_nat (length xs))
    /\ forall i x, xs !! i = Some x ->
         VectorGet (Some d') (Z.of_nat i) = Ok (SUCC, Some x).
Proof.
  intros Hlen. destruct vector_init_ok as (d0 & Hinit & Hok0).
  assert (Hd0 : iSize_ d0 = 0 /\ iCapacity_ d0 = 1 /\ items d0 = []).
  { injection Hinit as <-. done. }
  destruct Hd0 as (Hs0 & Hc0 & Hi0).
  destruct (push_all_appends_from xs d0 Hok0) as (d' & Hrun & Hok' & Hit & Hsz);
    [lia|].
  exists d0, d'. split; [done|]. cbn [VectorSize VectorCapacity]. rewrite Hs0, Hc0.
  split; [done|]. split; [done|]. split; [done|]. split; [done|].
  rewrite Hs0 in Hsz. split; [exact Hsz|].
  intros i x Hx. pose proof (lookup_lt_Some _ _ _ Hx) as Hi.
  injection Hsz as Hsz.
  destruct (get_in_range d' (Z.of_nat i) Hok' ltac:(lia)) as (y & Hg & Hy).
  rewrite Hg.
  rewrite Hit, Hi0, Nat2Z.id in Hy. simpl in Hy.
  rewrite list_lookup_fmap, Hx in Hy. simpl in Hy. congruence.
Qed.

Lemma init_then_push_all_witness :
  Z.of_nat (length [4; 5; 6]) <= 1073741824
  /\ exists d0 d',
       VectorInit true true true = (SUCC, Some d0)
       /\ push_all (Some d0) [4; 5; 6] = Ok (Val SUCC, Some d')
       /\ VectorSize (Some d') = Count 3.
Proof.
  assert (H : Z.of_nat (length [4; 5; 6]) <= 1073741824) by (vm_compute; discriminate).
  split; [exact H|].
  destruct (init_then_push_all [4; 5; 6] H) as (d0 & d' & H1 & _ & _ & H2 & _ & H3 & _).
  exists d0, d'. split; [exact H1|]. split; [exact H2|exact H3].
Defined.

End VectorExtra.

(** ** The hash map: further properties *)

Module HashMapExtra.
Import HashMap HashMapSpec.

Lemma pairs_at_cons (h : gmap addr SlotNode) a n l :
  h !! a = Some n -> pairs_at h (a :: l) = pPair n :: pairs_at h l.
Proof. intros Ha. unfold pairs_at. simpl. by rewrite Ha. Qed.

Lemma pairs_at_app (h : gmap addr SlotNode) l1 l2 :
  pairs_at h (l1 ++ l2) = pairs_at h l1 ++ pairs_at h l2.
Proof. apply omap_app. Qed.

Lemma pairs_at_ext (h h' : gmap addr SlotNode) l :
  (forall a, a ∈ l -> pPair <$> h' !! a = pPair <$> h !! a) ->
  pairs_at h' l = pairs_at h l.
Proof.
  assert (Hcons : forall (g : gmap addr SlotNode) a l,
            pairs_at g (a :: l)
            = match pPair <$> g !! a with
              | Some y => y :: pairs_at g l
              | None => pairs_at g l
              end) by reflexivity.
  induction l as [|a l IH]; intros H; [done|].
  rewrite !Hcons, (H a) by left.
  rewrite IH; [done|]. intros b Hb. apply H. by right.
Qed.

Lemma first_match_app ps1 q ps2 k size :
  first_match ps1 k size = None ->
  memcmp (key q) k (N.to_nat size) = 0 ->
  first_match (ps1 ++ q :: ps2) k size = Some q
  /\ bucket_remove (ps1 ++ q :: ps2) k size = ps1 ++ ps2.
Proof.
  intros Hnone Hq. induction ps1 as [|x ps1 IH]; simpl in *.
  - by rewrite Hq.
  - destruct (memcmp (key x) k (N.to_nat size) =? 0); [done|].
    destruct (IH Hnone) as [-> ->]. done.
Qed.

Lemma bucket_replace_app ps1 q ps2 p size :
  first_match ps1 (key p) size = None ->
  memcmp (key q) (key p) (N.to_nat size) = 0 ->
  bucket_replace (ps1 ++ q :: ps2) p size = ps1 ++ p :: ps2.
Proof.
  intros Hnone Hq. induction ps1 as [|x ps1 IH]; simpl in *.
  - by rewrite Hq.
  - destruct (memcmp (key x) (key p) (N.to_nat size) =? 0); [done|].
    by rewrite (IH Hnone).
Qed.

(** The walk over a chain stops at the first node whose pair matches. *)
Lemma scan_split h p l : chain pNext h p l ->
  forall fuel pred k size, (length l < fuel)%nat ->
  (scan fuel h pred p k size = Ok None
   /\ first_match (pairs_at h l) k size = None)
  \/ exists l1 c n l2,
       l = l1 ++ c :: l2 /\ h !! c = Some n
       /\ memcmp (key (pPair n)) k (N.to_nat size) = 0
       /\ first_match (pairs_at h l1) k size = None
       /\ scan fuel h pred p k size
          = Ok (Some (from_option Some pred (last l1), c, n)).
Proof.
  induction 1 as [|a n l Ha _ IH]; intros fuel pred k size Hfuel.
  - destruct fuel; [lia|]. by left.
  - destruct fuel as [|fuel]; [simpl in Hfuel; lia|].
    cbn [scan]. rewrite Ha, (pairs_at_cons _ _ _ _ Ha). cbn [first_match].
    destruct (Z.eqb_spec (memcmp (key (pPair n)) k (N.to_nat size)) 0) as [E|E].
    + right. exists [], a, n, l. done.
    + destruct (IH fuel (Some a) k size) as [[Hs Hf]|(l1 & c & nc & l2 & -> & Hc & Hm & Hf & Hs)];
        [simpl in Hfuel; lia| |].
      * by left.
      * right. exists (a :: l1), c, nc, l2. split; [done|]. split; [done|].
        split; [done|]. rewrite (pairs_at_cons _ _ _ _ Ha). cbn [first_match].
        destruct (Z.eqb_spec (memcmp (key (pPair n)) k (N.to_nat size)) 0); [done|].
        split; [done|]. rewrite Hs, last_cons. by destruct (last l1).
Qed.

(** The slot of a key, its chain and its bucket. *)
Lemma linked_slot d ls k size :
  linked d ls ->
  exists u head lu,
    slot_index d k size = Ok u /\ 0 <= u < iCountSlot_ d
    /\ slot_read (aSlot_ d) u = Ok head
    /\ aSlot_ d !! Z.to_nat u = Some head
    /\ ls !! Z.to_nat u = Some lu
    /\ chain pNext (nodes d) head lu
    /\ buckets d ls !! Z.to_nat u = Some (pairs_at (nodes d) lu).
Proof.
  intros (Hok & Hall & _).
  destruct (map_ok_slot d k size Hok) as (u & head & l & Hu & Hr & Hrd & Hh & _).
  destruct (Forall2_lookup_l _ _ _ _ _ Hall Hh) as (lu & Hlu & Hc).
  exists u, head, lu. unfold buckets. rewrite list_lookup_fmap, Hlu. done.
Qed.

Lemma chains_Forall (h : gmap addr SlotNode) slots ls :
  Forall2 (chain pNext h) slots ls ->
  Forall (fun p => exists l, chain pNext h p l) slots.
Proof. induction 1; constructor; eauto. Qed.

(** Putting the chain [l'] under the slot [u] of a linked map. *)
Lemma relink d d' ls u lu l' p' :
  linked d ls -> ls !! u = Some lu ->
  iCountSlot_ d' = iCountSlot_ d ->
  aSlot_ d' = <[u := p']> (aSlot_ d) ->
  chain pNext (nodes d') p' l' ->
  (forall a, a ∈ l' -> a ∈ lu \/ a ∉ concat ls) ->
  (forall i x y, i <> u -> aSlot_ d !! i = Some x -> ls !! i = Some y ->
                 chain pNext (nodes d') x y) ->
  linked d' (<[u := l']> ls).
Proof.
  intros ((Hc & Hlen & _) & Hall & Hnd) Hu Hcnt Hslots Hl' Hsub Hoff.
  assert (HF : Forall2 (chain pNext (nodes d')) (aSlot_ d') (<[u := l']> ls)).
  { rewrite Hslots. apply Forall2_same_length_lookup_2.
    - rewrite !length_insert. by eapply Forall2_length.
    - intros i x y Hx Hy. destruct (decide (i = u)) as [->|Hne].
      + pose proof (lookup_lt_Some _ _ _ Hu) as Hlt.
        rewrite list_lookup_insert_eq in Hx
          by (by rewrite (Forall2_length _ _ _ Hall)).
        rewrite list_lookup_insert_eq in Hy by done. congruence.
      + rewrite list_lookup_insert_ne in Hx by done.
        rewrite list_lookup_insert_ne in Hy by done. by eapply Hoff. }
  split; [|split; [done|]].
  - split; [by rewrite Hcnt|]. split.
    + by rewrite Hslots, length_insert, Hcnt.
    + by eapply chains_Forall.
  - eapply NoDup_concat_insert; eauto. by eapply chain_NoDup.
Qed.

Lemma buckets_update d d' ls u lu l' :
  ls !! u = Some lu ->
  (forall i y, i <> u -> ls !! i = Some y ->
               pairs_at (nodes d') y = pairs_at (nodes d) y) ->
  buckets d' (<[u := l']> ls) = <[u := pairs_at (nodes d') l']> (buckets d ls).
Proof.
  intros Hu Hoff. unfold buckets. rewrite list_fmap_insert.
  pose proof (lookup_lt_Some _ _ _ Hu) as Hlt.
  apply list_eq. intros i. destruct (decide (i = u)) as [->|Hne].
  - by rewrite !list_lookup_insert_eq by (by rewrite length_fmap).
  - rewrite !list_lookup_insert_ne by done. rewrite !list_lookup_fmap.
    destruct (ls !! i) as [y|] eqn:Hy; [|done]. simpl. f_equal. by eapply Hoff.
Qed.

Lemma get_refines fuel d ls k size :
  linked d ls -> size <> 0%N -> (length (concat ls) < fuel)%nat ->
  exists u b,
    slot_index d k size = Ok u /\ 0 <= u < iCountSlot_ d
    /\ buckets d ls !! Z.to_nat u = Some b
    /\ HashMapGet fuel (Some d) k size true
       = Ok (match first_match b k size with
             | Some q => (SUCC, Some (value q))
             | None => (NOKEY, Some NULL)
             end)
    /\ HashMapFind fuel (Some d) k size
       = Ok (match first_match b k size with Some _ => SUCC | None => NOKEY end).
Proof.
  intros Hl Hsize Hfuel.
  destruct (linked_slot d ls k size Hl)
    as (u & head & lu & Hu & Hr & Hrd & Hh & Hlu & Hc & Hb).
  exists u, (pairs_at (nodes d) lu). split; [done|]. split; [done|].
  split; [done|].
  pose proof (length_concat_lookup _ _ _ Hlu) as Hle.
  unfold HashMapGet, HashMapFind. apply N.eqb_neq in Hsize. rewrite Hsize.
  cbn [negb]. rewrite Hu. cbn [exec_bind]. rewrite Hrd. cbn [exec_bind].
  destruct (scan_split _ _ _ Hc fuel None k size ltac:(lia))
    as [[Hs Hf]|(l1 & c & n & l2 & -> & Hcn & Hm & Hf & Hs)].
  - rewrite Hs, Hf. done.
  - rewrite Hs. cbn [exec_bind].
    rewrite pairs_at_app, (pairs_at_cons _ _ _ _ Hcn).
    destruct (first_match_app _ (pPair n) (pairs_at (nodes d) l2) _ _ Hf Hm)
      as [-> _]. done.
Qed.

Lemma remove_refines fuel d ls k size :
  linked d ls -> size <> 0%N -> (length (concat ls) < fuel)%nat ->
  exists u b,
    slot_index d k size = Ok u /\ 0 <= u < iCountSlot_ d
    /\ buckets d ls !! Z.to_nat u = Some b
    /\ match first_match b k size with
       | None => HashMapRemove fuel (Some d) k size = Ok (ERR_NODATA, Some d, [])
       | Some q =>
           exists d' ls',
             HashMapRemove fuel (Some d) k size
             = Ok (SUCC, Some d', destroy_if_set d q)
             /\ linked d' ls'
             /\ buckets d' ls'
                = <[Z.to_nat u := bucket_remove b k size]> (buckets d ls)
             /\ S (length (concat ls')) = length (concat ls)
             /\ base.size (nodes d') = pred (base.size (nodes d))
             /\ (exists c nc,
                   nodes d !! c = Some nc /\ pPair nc = q
                   /\ nodes d' !! c = None
                   /\ forall a, a <> c ->
                        pPair <$> nodes d' !! a = pPair <$> nodes d !! a)
             /\ iSize_ d' = iSize_ d /\ iCountSlot_ d' = iCountSlot_ d
             /\ pHash_ d' = pHash_ d /\ pDestroy_ d' = pDestroy_ d
       end.
Proof.
  intros Hl Hsize Hfuel. pose proof Hl as ((Hcnt & Hlen & _) & Hall & Hnd).
  destruct (linked_slot d ls k size Hl)
    as (u & head & lu & Hu & Hr & Hrd & Hh & Hlu & Hc & Hb).
  exists u, (pairs_at (nodes d) lu). split; [done|]. split; [done|].
  split; [done|].
  pose proof (length_concat_lookup _ _ _ Hlu) as Hle.
  unfold HashMapRemove. apply N.eqb_neq in Hsize. rewrite Hsize.
  rewrite Hu. cbn [exec_bind]. rewrite Hrd. cbn [exec_bind].
  destruct (scan_split _ _ _ Hc fuel None k size ltac:(lia))
    as [[Hs Hf]|(l1 & c & n & l2 & -> & Hcn & Hm & Hf & Hs)].
  { rewrite Hs, Hf. done. }
  rewrite Hs. cbn [exec_bind].
  rewrite pairs_at_app, (pairs_at_cons _ _ _ _ Hcn).
  destruct (first_match_app _ (pPair n) (pairs_at (nodes d) l2) _ _ Hf Hm)
    as [-> ->].
  pose proof (NoDup_concat_lookup _ _ _ Hnd Hlu) as Hndl.
  assert (Hc1 : c ∉ l1).
  { intros Hin. apply NoDup_app in Hndl as (_ & Hd & _). apply (Hd c Hin). left. }
  assert (Hc2 : c ∉ l2).
  { apply NoDup_app in Hndl as (_ & _ & Hd). by apply NoDup_cons in Hd as [? _]. }
  assert (Hoffc : forall i y, i <> Z.to_nat u -> ls !! i = Some y -> c ∉ y).
  { intros i y Hne Hy. apply (NoDup_concat_disjoint ls _ _ _ _ c Hnd Hlu Hy); [done|].
    apply elem_of_app. right. left. }
  assert (Hsub : forall a, a ∈ l1 ++ l2 -> a ∈ l1 ++ c :: l2 \/ a ∉ concat ls).
  { intros a Ha. left. apply elem_of_app in Ha as [Ha|Ha]; apply elem_of_app;
      [by left|right; by right]. }
  assert (Hcount : S (length (concat (<[Z.to_nat u := l1 ++ l2]> ls)))
                   = length (concat ls)).
  { rewrite (concat_insert_split ls _ _ _ Hlu), (concat_lookup_split ls _ _ Hlu).
    rewrite !length_app. simpl. lia. }
  pose proof (chain_unlink pNext _ _ _ _ _ _ Hc Hcn) as Hun.
  destruct (last l1) as [a|] eqn:Hlast; cbn [from_option].
  - (* the node has a predecessor on the chain *)
    assert (Ha : a ∈ l1) by (apply last_Some in Hlast as [l' ->];
                             apply elem_of_app; right; left).
    destruct (chain_allocated pNext _ _ _ a Hc) as [na Hna];
      [apply elem_of_app; by left|].
    rewrite Hna. cbn [exec_bind nodes set_nodes].
    destruct (Hun (mkSlotNode (pPair na) (pNext n)) eq_refl) as [Hac Hch].
    set (h' := delete c (<[a := mkSlotNode (pPair na) (pNext n)]> (nodes d))) in *.
    assert (Hpair : forall b, b <> c -> pPair <$> h' !! b = pPair <$> nodes d !! b).
    { intros b Hbc. unfold h'. rewrite lookup_delete_ne by done.
      destruct (decide (b = a)) as [->|Hba].
      - by rewrite lookup_insert_eq, Hna.
      - by rewrite lookup_insert_ne. }
    eexists _, (<[Z.to_nat u := l1 ++ l2]> ls). split; [reflexivity|].
    split; [|split; [|split; [done|split; [|split]]]].
    + eapply (relink d _ ls _ _ _ head Hl Hlu); cbn [iCountSlot_ aSlot_ nodes set_nodes];
        [done|by rewrite list_insert_id|exact Hch|exact Hsub|].
      intros i x y Hne Hx Hy. fold h'. unfold h'.
      apply chain_delete_off; [by eapply Hoffc|].
      apply chain_insert_off; [|by eapply Forall2_lookup_lr].
      apply (NoDup_concat_disjoint ls _ _ _ _ a Hnd Hlu Hy); [done|].
      apply elem_of_app. by left.
    + rewrite (buckets_update d _ ls _ _ _ Hlu); cbn [nodes set_nodes]; fold h'.
      * rewrite pairs_at_app.
        rewrite (pairs_at_ext (nodes d) h' l1), (pairs_at_ext (nodes d) h' l2);
          [done| |]; intros b Hb'; apply Hpair; by intros ->.
      * intros i y Hne Hy. apply pairs_at_ext. intros b Hb'. apply Hpair.
        intros ->. by eapply Hoffc.
    + cbn [nodes set_nodes]. fold h'. unfold h'.
      rewrite map_size_delete_Some.
      2:{ rewrite lookup_insert_ne by done. by eexists. }
      f_equal. rewrite map_size_insert_Some; [done|by eexists].
    + exists c, n. split; [done|]. split; [done|]. split; [|exact Hpair].
      cbn [nodes set_nodes set_aSlot]. apply lookup_delete_eq.
    + done.
  - (* the node is the head of the slot *)
    apply last_None in Hlast as ->. destruct Hun as [-> Hch].
    cbn [app] in *. unfold slot_write.
    destruct (Z.ltb_spec u 0); [lia|].
    destruct (Z.leb_spec (Z.of_nat (length (aSlot_ d))) u); [lia|].
    cbn [orb exec_bind nodes set_nodes set_aSlot].
    set (h' := delete c (nodes d)) in *.
    assert (Hpair : forall b, b <> c -> pPair <$> h' !! b = pPair <$> nodes d !! b).
    { intros b Hbc. unfold h'. by rewrite lookup_delete_ne. }
    eexists _, (<[Z.to_nat u := l2]> ls). split; [reflexivity|].
    split; [|split; [|split; [done|split; [|split]]]].
    + eapply (relink d _ ls _ _ _ (pNext n) Hl Hlu);
        cbn [iCountSlot_ aSlot_ nodes set_nodes set_aSlot];
        [done|done|exact Hch|exact Hsub|].
      intros i x y Hne Hx Hy. fold h'. unfold h'.
      apply chain_delete_off; [by eapply Hoffc|]. by eapply Forall2_lookup_lr.
    + rewrite (buckets_update d _ ls _ _ _ Hlu); cbn [nodes set_nodes set_aSlot];
        fold h'.
      * rewrite (pairs_at_ext (nodes d) h' l2); [done|].
        intros b Hb'; apply Hpair; by intros ->.
      * intros i y Hne Hy. apply pairs_at_ext. intros b Hb'. apply Hpair.
        intros ->. by eapply Hoffc.
    + cbn [nodes set_nodes set_aSlot]. fold h'. unfold h'.
      rewrite map_size_delete_Some; [done|by eexists].
    + exists c, n. split; [done|]. split; [done|]. split; [|exact Hpair].
      cbn [nodes set_nodes set_aSlot]. apply lookup_delete_eq.
    + done.
Qed.

Lemma put_refines fuel d ls p size :
  linked d ls -> size <> 0%N -> (length (concat ls) < fuel)%nat ->
  exists u b d' ls',
    slot_index d (key p) size = Ok u /\ 0 <= u < iCountSlot_ d
    /\ buckets d ls !! Z.to_nat u = Some b
    /\ HashMapPut fuel (Some d) p size true
       = Ok (SUCC, Some d',
             match first_match b (key p) size with
             | Some q => destroy_if_set d q
             | None => []
             end)
    /\ linked d' ls'
    /\ buckets d' ls' = <[Z.to_nat u := bucket_put b p size]> (buckets d ls)
    /\ iSize_ d' = match first_match b (key p) size with
                   | Some _ => iSize_ d
                   | None => wrap32 (iSize_ d + 1)
                   end
    /\ (length (concat ls') <= S (length (concat ls)))%nat
    /\ iCountSlot_ d' = iCountSlot_ d
    /\ pHash_ d' = pHash_ d /\ pDestroy_ d' = pDestroy_ d
    /\ HashMapPut fuel (Some d) p size false
       = match first_match b (key p) size with
         | Some _ => HashMapPut fuel (Some d) p size true
         | None => Fault
         end.
Proof.
  intros Hl Hsize Hfuel. pose proof Hl as ((Hcnt & Hlen & _) & Hall & Hnd).
  destruct (linked_slot d ls (key p) size Hl)
    as (u & head & lu & Hu & Hr & Hrd & Hh & Hlu & Hc & Hb).
  exists u, (pairs_at (nodes d) lu).
  pose proof (length_concat_lookup _ _ _ Hlu) as Hle.
  unfold HashMapPut, bucket_put. apply N.eqb_neq in Hsize. rewrite Hsize.
  rewrite Hu. cbn [exec_bind]. rewrite Hrd. cbn [exec_bind].
  pose proof (chains_allocated _ _ _ Hall) as Halloc.
  destruct (scan_split _ _ _ Hc fuel None (key p) size ltac:(lia))
    as [[Hs Hf]|(l1 & c & n & l2 & -> & Hcn & Hm & Hf & Hs)].
  - (* no pair of the bucket has the key: a new node at the head *)
    rewrite Hs, Hf. cbn [exec_bind negb]. unfold slot_write.
    destruct (Z.ltb_spec u 0); [lia|].
    destruct (Z.leb_spec (Z.of_nat (length (aSlot_ d))) u); [lia|].
    cbn [orb exec_bind].
    set (new := fresh (dom (nodes d))).
    assert (Hnew : nodes d !! new = None).
    { apply not_elem_of_dom. apply is_fresh. }
    assert (Hnotin : new ∉ concat ls).
    { intros Hin. rewrite Forall_forall in Halloc.
      destruct (Halloc new Hin) as [? ?]. congruence. }
    set (h' := <[new := mkSlotNode p head]> (nodes d)).
    assert (Hpair : forall y, (forall a, a ∈ y -> a ∈ concat ls) ->
                              pairs_at h' y = pairs_at (nodes d) y).
    { intros y Hy. apply pairs_at_ext. intros a Ha. unfold h'.
      rewrite lookup_insert_ne; [done|]. intros <-. by apply Hnotin, Hy. }
    eexists _, (<[Z.to_nat u := new :: lu]> ls).
    split; [done|]. split; [done|]. split; [done|]. split; [reflexivity|].
    split; [|split; [|split; [done|split; [|done]]]].
    + eapply (relink d _ ls _ _ _ (Some new) Hl Hlu);
        cbn [iCountSlot_ aSlot_ nodes set_nodes set_aSlot set_iSize].
      * done.
      * done.
      * fold h'. econstructor; [by apply lookup_insert_eq|].
        by apply chain_insert_fresh.
      * intros a Ha. apply elem_of_cons in Ha as [->|Ha]; [by right|by left].
      * intros i x y Hne Hx Hy. apply chain_insert_fresh; [done|].
        by eapply Forall2_lookup_lr.
    + rewrite (buckets_update d _ ls _ _ _ Hlu);
        cbn [nodes set_nodes set_aSlot set_iSize]; fold h'.
      * rewrite (pairs_at_cons h' new (mkSlotNode p head))
          by (by apply lookup_insert_eq).
        cbn [pPair]. rewrite Hpair; [done|].
        intros a Ha. by eapply elem_of_concat_lookup.
      * intros i y Hne Hy. apply Hpair. intros a Ha.
        by eapply elem_of_concat_lookup.
    + by rewrite (length_concat_insert ls _ _ _ Hlu).
  - (* the first pair with the key is replaced in its node *)
    rewrite Hs. cbn [exec_bind].
    assert (Hbucket : pairs_at (nodes d) (l1 ++ c :: l2)
                      = pairs_at (nodes d) l1 ++ pPair n :: pairs_at (nodes d) l2).
    { by rewrite pairs_at_app, (pairs_at_cons _ _ _ _ Hcn). }
    destruct (first_match_app _ (pPair n) (pairs_at (nodes d) l2) _ _ Hf Hm)
      as [Hfm _].
    rewrite <- Hbucket in Hfm. rewrite Hfm.
    pose proof (NoDup_concat_lookup _ _ _ Hnd Hlu) as Hndl.
    assert (Hc1 : c ∉ l1).
    { intros Hin. apply NoDup_app in Hndl as (_ & Hd & _). apply (Hd c Hin). left. }
    assert (Hc2 : c ∉ l2).
    { apply NoDup_app in Hndl as (_ & _ & Hd). by apply NoDup_cons in Hd as [? _]. }
    set (h' := <[c := mkSlotNode p (pNext n)]> (nodes d)).
    assert (Hpair : forall y, c ∉ y -> pairs_at h' y = pairs_at (nodes d) y).
    { intros y Hy. apply pairs_at_ext. intros a Ha. unfold h'.
      rewrite lookup_insert_ne; [done|]. by intros <-. }
    assert (Hkeep : forall q l, chain pNext (nodes d) q l -> chain pNext h' q l).
    { intros q l Hq. by apply (chain_insert_same_next _ _ _ _ _ n). }
    eexists _, (<[Z.to_nat u := l1 ++ c :: l2]> ls).
    split; [done|]. split; [done|]. split; [done|]. split; [reflexivity|].
    split; [|split; [|split; [done|split; [|done]]]].
    + eapply (relink d _ ls _ _ _ head Hl Hlu);
        cbn [iCountSlot_ aSlot_ nodes set_nodes].
      * done.
      * by rewrite list_insert_id.
      * fold h'. by apply Hkeep.
      * intros a Ha. by left.
      * intros i x y Hne Hx Hy. apply Hkeep. by eapply Forall2_lookup_lr.
    + rewrite (buckets_update d _ ls _ _ _ Hlu); cbn [nodes set_nodes]; fold h'.
      * rewrite Hbucket, (bucket_replace_app _ _ _ _ _ Hf Hm), pairs_at_app.
        rewrite (pairs_at_cons h' c (mkSlotNode p (pNext n)))
          by (by apply lookup_insert_eq).
        cbn [pPair]. by rewrite !Hpair.
      * intros i y Hne Hy. apply Hpair.
        apply (NoDup_concat_disjoint ls _ _ _ _ c Hnd Hlu Hy); [done|].
        apply elem_of_app. right. left.
    + rewrite list_insert_id by done. lia.
Qed.

Lemma first_match_Some b k size q :
  first_match b k size = Some q ->
  q ∈ b /\ memcmp (key q) k (N.to_nat size) = 0.
Proof.
  induction b as [|x b IH]; [done|]. simpl.
  destruct (Z.eqb_spec (memcmp (key x) k (N.to_nat size)) 0) as [E|E].
  - intros [= <-]. split; [left|done].
  - intros H. destruct (IH H). split; [by right|done].
Qed.

Lemma memcmp_other q k k2 n :
  memcmp (key q) k n = 0 -> memcmp k k2 n <> 0 -> memcmp (key q) k2 n <> 0.
Proof. rewrite !memcmp_eq_iff. intros ->. done. Qed.

Lemma first_match_remove_other b k k2 size :
  memcmp k k2 (N.to_nat size) <> 0 ->
  first_match (bucket_remove b k size) k2 size = first_match b k2 size.
Proof.
  intros Hne. induction b as [|x b IH]; [done|]. simpl.
  destruct (Z.eqb_spec (memcmp (key x) k (N.to_nat size)) 0) as [E|E].
  - pose proof (memcmp_other _ _ _ _ E Hne) as Hx.
    by destruct (Z.eqb_spec (memcmp (key x) k2 (N.to_nat size)) 0).
  - simpl. by rewrite IH.
Qed.

Lemma first_match_replace_other b p k2 size :
  memcmp (key p) k2 (N.to_nat size) <> 0 ->
  first_match (bucket_replace b p size) k2 size = first_match b k2 size.
Proof.
  intros Hne. induction b as [|x b IH]; [done|]. simpl.
  destruct (Z.eqb_spec (memcmp (key x) (key p) (N.to_nat size)) 0) as [E|E].
  - pose proof (memcmp_other _ _ _ _ E Hne) as Hx. simpl.
    destruct (Z.eqb_spec (memcmp (key p) k2 (N.to_nat size)) 0); [done|].
    by destruct (Z.eqb_spec (memcmp (key x) k2 (N.to_nat size)) 0).
  - simpl. by rewrite IH.
Qed.

Lemma first_match_put_other b p k2 size :
  memcmp (key p) k2 (N.to_nat size) <> 0 ->
  first_match (bucket_put b p size) k2 size = first_match b k2 size.
Proof.
  intros Hne. unfold bucket_put.
  destruct (first_match b (key p) size); [by apply first_match_replace_other|].
  simpl. by destruct (Z.eqb_spec (memcmp (key p) k2 (N.to_nat size)) 0).
Qed.

Lemma memcmp_refl k n : memcmp k k n = 0.
Proof. by apply memcmp_eq_iff. Qed.

Lemma slot_index_same d d' k size :
  pHash_ d' = pHash_ d -> iCountSlot_ d' = iCountSlot_ d ->
  slot_index d' k size = slot_index d k size.
Proof. intros Hh Hc. unfold slot_index. by rewrite Hh, Hc. Qed.

Lemma pairs_at_concat (h : gmap addr SlotNode) ls :
  pairs_at h (concat ls) = concat (pairs_at h <$> ls).
Proof.
  induction ls as [|l ls IH]; [done|]. simpl. by rewrite pairs_at_app, IH.
Qed.

Lemma elem_of_pairs_at (h : gmap addr SlotNode) l q :
  q ∈ pairs_at h l -> exists a n, h !! a = Some n /\ pPair n = q.
Proof.
  unfold pairs_at. intros H. apply list_elem_of_omap in H as (a & _ & Ha). simpl in Ha.
  destruct (h !! a) as [n|] eqn:Hn; [|done]. injection Ha as <-. by exists a, n.
Qed.

Lemma fresh_map_linked hash : linked (fresh_map hash) (replicate 769%nat []).
Proof.
  split; [apply fresh_map_ok|]. split; [apply empty_chains|].
  rewrite concat_replicate_nil. constructor.
Qed.

Lemma map_a_linked : linked map_a chains_a.
Proof.
  eapply (relink (fresh_map zero_hash) map_a _ 0 [] _ (Some 1%positive)).
  - apply fresh_map_linked.
  - done.
  - done.
  - done.
  - econstructor; [by apply lookup_singleton_eq|]. constructor.
  - intros a _. right. rewrite concat_replicate_nil. apply not_elem_of_nil.
  - intros i x y _ Hx Hy. apply lookup_replicate in Hx as [-> _].
    apply lookup_replicate in Hy as [-> _]. constructor.
Qed.

Lemma chains_a_length : (length (concat chains_a) < 2)%nat.
Proof. vm_compute. lia. Qed.

(** Extra X11.  [HashMapFind] returns the code that [HashMapGet]
    returns for the same map, key and key size (with an output pointer
    that is not null), and fails or runs out of steps exactly when it
    does. *)
Theorem find_agrees_with_get (fuel : nat) (self : HashMap) (k : Key) (size : N) :
  HashMapFind fuel self k size
  = (r <- HashMapGet fuel self k size true ;; Ok (fst r)).
Proof.
  unfold HashMapFind, HashMapGet. destruct self as [d|]; [|done]. cbn [negb].
  destruct (size =? 0)%N; [done|].
  destruct (slot_index d k size); try done. cbn [exec_bind].
  destruct (slot_read _ _); try done. cbn [exec_bind].
  destruct (scan _ _ _ _ _ _) as [[[[? ?] ?]|]| |]; done.
Qed.

(** Extra X12.  Lookup reads one bucket.  On a linked map, with a
    key size that is not 0, [get] and [find] look at the bucket whose
    index is the hash of the key modulo the slot count: [get] stores the
    value of the first pair of that bucket whose key is byte-equal to the
    key and returns [SUCC], or stores [NULL] and returns [NOKEY] when the
    bucket has none; [find] returns the same code. *)
Theorem get_returns_first_match (fuel : nat) (d : HashMapData)
    (ls : list (list addr)) (k : Key) (size : N) :
  linked d ls -> size <> 0%N -> (length (concat ls) < fuel)%nat ->
  exists u b,
    slot_index d k size = Ok u /\ 0 <= u < iCountSlot_ d
    /\ buckets d ls !! Z.to_nat u = Some b
    /\ HashMapGet fuel (Some d) k size true
       = Ok (match first_match b k size with
             | Some q => (SUCC, Some (value q))
             | None => (NOKEY, Some NULL)
             end)
    /\ HashMapFind fuel (Some d) k size
       = Ok (match first_match b k size with Some _ => SUCC | None => NOKEY end).
Proof. apply get_refines. Qed.

Lemma get_returns_first_match_witness :
  linked map_a chains_a /\ 1%N <> 0%N /\ (length (concat chains_a) < 2)%nat
  /\ HashMapGet 2 (Some map_a) key_a 1 true = Ok (SUCC, Some 1).
Proof.
  assert (H1 : linked map_a chains_a) by apply map_a_linked.
  assert (H2 : 1%N <> 0%N) by discriminate.
  assert (H3 : (length (concat chains_a) < 2)%nat) by apply chains_a_length.
  split; [exact H1|]. split; [exact H2|]. split; [exact H3|].
  destruct (get_returns_first_match 2 map_a chains_a key_a 1 H1 H2 H3)
    as (u & b & _ & _ & _ & _ & _).
  vm_compute. reflexivity.
Defined.

(** Extra X13.  On a linked map, with a key size that is not 0,
    [put] returns [SUCC] and changes the bucket of the key only.  When
    the bucket holds a pair with a byte-equal key, the first such pair is
    replaced in place, the destroy routine (when one is set) is called on
    the replaced pair, and [size()] stays, whatever [malloc] would
    answer; otherwise the new pair is put in front of the bucket, nothing
    is destroyed and [size()] grows by one, and if [malloc] fails the
    null result is dereferenced.  The map stays linked. *)
Theorem put_replaces_or_prepends (fuel : nat) (d : HashMapData)
    (ls : list (list addr)) (p : Pair) (size : N) :
  linked d ls -> size <> 0%N -> (length (concat ls) < fuel)%nat ->
  exists u b d' ls',
    slot_index d (key p) size = Ok u /\ 0 <= u < iCountSlot_ d
    /\ buckets d ls !! Z.to_nat u = Some b
    /\ HashMapPut fuel (Some d) p size true
       = Ok (SUCC, Some d',
             match first_match b (key p) size with
             | Some q => destroy_if_set d q
             | None => []
             end)
    /\ linked d' ls'
    /\ buckets d' ls' = <[Z.to_nat u := bucket_put b p size]> (buckets d ls)
    /\ HashMapSize (Some d')
       = Count (match first_match b (key p) size with
                | Some _ => iSize_ d
                | None => wrap32 (iSize_ d + 1)
                end)
    /\ HashMapPut fuel (Some d) p size false
       = match first_match b (key p) size with
         | Some _ => HashMapPut fuel (Some d) p size true
         | None => Fault
         end.
Proof.
  intros Hl Hs Hf.
  destruct (put_refines fuel d ls p size Hl Hs Hf)
    as (u & b & d' & ls' & H1 & H2 & H3 & H4 & H5 & H6 & H7 & _ & _ & _ & _ & H8).
  exists u, b, d', ls'. cbn [HashMapSize]. rewrite H7. done.
Qed.

Lemma put_replaces_or_prepends_witness :
  linked map_a chains_a /\ 1%N <> 0%N /\ (length (concat chains_a) < 2)%nat
  /\ exists d',
       HashMapPut 2 (Some map_a) (mkPair key_a 5) 1 true = Ok (SUCC, Some d', [])
       /\ HashMapSize (Some d') = Count 1.
Proof.
  assert (H1 : linked map_a chains_a) by apply map_a_linked.
  assert (H2 : 1%N <> 0%N) by discriminate.
  assert (H3 : (length (concat chains_a) < 2)%nat) by apply chains_a_length.
  split; [exact H1|]. split; [exact H2|]. split; [exact H3|].
  destruct (put_replaces_or_prepends 2 map_a chains_a (mkPair key_a 5) 1 H1 H2 H3)
    as (u & b & d' & ls' & _ & _ & _ & _ & _ & _ & _ & _).
  eexists. split; vm_compute; reflexivity.
Defined.

(** Extra X14.  On a linked map, with a key size that is not 0,
    [remove] of a key whose bucket holds no byte-equal key returns
    [ERR_NODATA] and leaves the map as it was; otherwise it returns
    [SUCC], takes the first pair with a byte-equal key out of the bucket
    and leaves every other bucket, calls the destroy routine (when one is
    set) on that pair, frees exactly one node, keeps the map linked, and
    leaves what [size()] reports. *)
Theorem remove_unlinks_first_match (fuel : nat) (d : HashMapData)
    (ls : list (list addr)) (k : Key) (size : N) :
  linked d ls -> size <> 0%N -> (length (concat ls) < fuel)%nat ->
  exists u b,
    slot_index d k size = Ok u /\ 0 <= u < iCountSlot_ d
    /\ buckets d ls !! Z.to_nat u = Some b
    /\ match first_match b k size with
       | None => HashMapRemove fuel (Some d) k size = Ok (ERR_NODATA, Some d, [])
       | Some q =>
           exists d' ls',
             HashMapRemove fuel (Some d) k size
             = Ok (SUCC, Some d', destroy_if_set d q)
             /\ linked d' ls'
             /\ buckets d' ls'
                = <[Z.to_nat u := bucket_remove b k size]> (buckets d ls)
             /\ S (length (concat ls')) = length (concat ls)
             /\ base.size (nodes d') = pred (base.size (nodes d))
             /\ HashMapSize (Some d') = HashMapSize (Some d)
       end.
Proof.
  intros Hl Hs Hf.
  destruct (remove_refines fuel d ls k size Hl Hs Hf) as (u & b & H1 & H2 & H3 & H4).
  exists u, b. split; [done|]. split; [done|]. split; [done|].
  destruct (first_match b k size) as [q|]; [|done].
  destruct H4 as (d' & ls' & H5 & H6 & H7 & H8 & H9 & _ & H10 & _).
  exists d', ls'. cbn [HashMapSize]. rewrite H10. done.
Qed.

Lemma remove_unlinks_first_match_witness :
  linked map_a chains_a /\ 1%N <> 0%N /\ (length (concat chains_a) < 2)%nat
  /\ exists d',
       HashMapRemove 2 (Some map_a) key_a 1 = Ok (SUCC, Some d', [])
       /\ nodes d' = ∅ /\ HashMapSize (Some d') = Count 1.
Proof.
  assert (H1 : linked map_a chains_a) by apply map_a_linked.
  assert (H2 : 1%N <> 0%N) by discriminate.
  assert (H3 : (length (concat chains_a) < 2)%nat) by apply chains_a_length.
  split; [exact H1|]. split; [exact H2|]. split; [exact H3|].
  destruct (remove_unlinks_first_match 2 map_a chains_a key_a 1 H1 H2 H3)
    as (u & b & _ & _ & _ & _).
  eexists. split; [vm_compute; reflexivity|]. split; vm_compute; reflexivity.
Defined.

Lemma bucket_lookup_update (bs : list (list Pair)) u u2 b b2 x :
  bs !! u = Some b -> (<[u := x]> bs) !! u2 = Some b2 ->
  (u2 = u /\ b2 = x) \/ (u2 <> u /\ bs !! u2 = Some b2).
Proof.
  intros Hu H. destruct (decide (u2 = u)) as [->|Hne].
  - left. rewrite list_lookup_insert_eq in H by (by eapply lookup_lt_Some).
    split; [done|congruence].
  - right. by rewrite list_lookup_insert_ne in H.
Qed.

(** Extra X15.  After a successful [remove(k)] on a linked map, [get]
    of every key that is not byte-equal to [k] answers as before; and
    when no two nodes of the map had keys byte-equal to [k], [get(k)]
    returns [NOKEY] and [find(k)] returns [NOKEY]. *)
Theorem remove_then_get (fuel : nat) (d d' : HashMapData)
    (ls : list (list addr)) (k : Key) (size : N) (es : list event) :
  linked d ls -> size <> 0%N -> (length (concat ls) < fuel)%nat ->
  HashMapRemove fuel (Some d) k size = Ok (SUCC, Some d', es) ->
  (forall k2, memcmp k k2 (N.to_nat size) <> 0 ->
     HashMapGet fuel (Some d') k2 size true = HashMapGet fuel (Some d) k2 size true)
  /\ ((forall a b na nb,
         nodes d !! a = Some na -> nodes d !! b = Some nb ->
         memcmp (key (pPair na)) k (N.to_nat size) = 0 ->
         memcmp (key (pPair nb)) k (N.to_nat size) = 0 -> a = b) ->
      HashMapGet fuel (Some d') k size true = Ok (NOKEY, Some NULL)
      /\ HashMapFind fuel (Some d') k size = Ok NOKEY).
Proof.
  intros Hl Hs Hf Hrm.
  destruct (remove_refines fuel d ls k size Hl Hs Hf) as (u & b & Hu & Hur & Hb & H).
  destruct (first_match b k size) as [q|] eqn:Hq; [|congruence].
  destruct H as (d1 & ls' & Hrm' & Hl' & Hb' & Hlen & _ & Hnode & _ & Hcnt & Hh & _).
  rewrite Hrm in Hrm'. injection Hrm' as -> _.
  assert (Hf' : (length (concat ls') < fuel)%nat) by lia.
  split.
  - intros k2 Hne.
    destruct (get_refines fuel d ls k2 size Hl Hs Hf)
      as (u2 & b2 & Hu2 & _ & Hb2 & -> & _).
    destruct (get_refines fuel d1 ls' k2 size Hl' Hs Hf')
      as (u3 & b3 & Hu3 & _ & Hb3 & -> & _).
    rewrite (slot_index_same d d1 k2 size Hh Hcnt), Hu2 in Hu3.
    injection Hu3 as <-. rewrite Hb' in Hb3.
    destruct (bucket_lookup_update _ _ _ _ _ _ Hb Hb3) as [[He ->]|[_ Hb3']].
    + rewrite He, Hb in Hb2. injection Hb2 as <-.
      by rewrite first_match_remove_other.
    + rewrite Hb2 in Hb3'. by injection Hb3' as <-.
  - intros Huniq.
    destruct Hnode as (c & nc & Hc & Hpc & Hfree & Hpair).
    destruct (first_match_Some _ _ _ _ Hq) as [_ Hqm]. rewrite <- Hpc in Hqm.
    destruct (get_refines fuel d1 ls' k size Hl' Hs Hf')
      as (u3 & b3 & _ & _ & Hb3 & -> & ->).
    destruct (first_match b3 k size) as [q3|] eqn:Hq3; [exfalso|done].
    destruct (first_match_Some _ _ _ _ Hq3) as [Hin Hm3].
    unfold buckets in Hb3. rewrite list_lookup_fmap in Hb3.
    destruct (ls' !! Z.to_nat u3) as [y|]; [|done]. injection Hb3 as <-.
    destruct (elem_of_pairs_at _ _ _ Hin) as (a & n3 & Ha & Hp3).
    assert (Hac : a <> c) by (intros ->; congruence).
    pose proof (Hpair a Hac) as Hpa. rewrite Ha in Hpa.
    destruct (nodes d !! a) as [na|] eqn:Hna; [|done].
    injection Hpa as Hpa. apply Hac.
    apply (Huniq a c na nc Hna Hc); [|done]. by rewrite <- Hpa, Hp3.
Qed.

Lemma remove_then_get_witness :
  linked map_a chains_a /\ 1%N <> 0%N /\ (length (concat chains_a) < 2)%nat
  /\ HashMapRemove 2 (Some map_a) key_a 1
     = Ok (SUCC, Some (set_aSlot (set_nodes map_a ∅) (replicate 769%nat None)), [])
  /\ HashMapGet 2 (Some (set_aSlot (set_nodes map_a ∅) (replicate 769%nat None)))
       key_b 1 true
     = HashMapGet 2 (Some map_a) key_b 1 true.
Proof.
  assert (H1 : linked map_a chains_a) by apply map_a_linked.
  assert (H2 : 1%N <> 0%N) by discriminate.
  assert (H3 : (length (concat chains_a) < 2)%nat) by apply chains_a_length.
  assert (H4 : HashMapRemove 2 (Some map_a) key_a 1
               = Ok (SUCC, Some (set_aSlot (set_nodes map_a ∅)
                                   (replicate 769%nat None)), []))
    by (vm_compute; reflexivity).
  split; [exact H1|]. split; [exact H2|]. split; [exact H3|]. split; [exact H4|].
  destruct (remove_then_get 2 map_a _ chains_a key_a 1 [] H1 H2 H3 H4) as [H _].
  apply H. vm_compute. discriminate.
Defined.

(** Extra X16.  A [put] on a linked map that returns leaves what
    [get] answers for every key that is not byte-equal to the key put
    (key sizes equal). *)
Theorem put_keeps_other_keys (fuel : nat) (d d' : HashMapData)
    (ls : list (list addr)) (p : Pair) (size : N) (ok : bool) (rc : RtnCode)
    (es : list event) :
  linked d ls -> size <> 0%N -> (length (concat ls) < fuel)%nat ->
  HashMapPut fuel (Some d) p size ok = Ok (rc, Some d', es) ->
  forall k2, memcmp (key p) k2 (N.to_nat size) <> 0 ->
    HashMapGet (S fuel) (Some d') k2 size true
    = HashMapGet fuel (Some d) k2 size true.
Proof.
  intros Hl Hs Hf Hput k2 Hne.
  destruct (put_refines fuel d ls p size Hl Hs Hf)
    as (u & b & d1 & ls' & Hu & _ & Hb & Hput' & Hl' & Hb' & _ & Hlen & Hcnt
        & Hh & _ & Hfalse).
  assert (Hd : d' = d1).
  { destruct ok; [congruence|]. rewrite Hfalse in Hput.
    destruct (first_match b (key p) size); [congruence|discriminate]. }
  subst d'.
  destruct (get_refines fuel d ls k2 size Hl Hs Hf)
    as (u2 & b2 & Hu2 & _ & Hb2 & -> & _).
  destruct (get_refines (S fuel) d1 ls' k2 size Hl' Hs ltac:(lia))
    as (u3 & b3 & Hu3 & _ & Hb3 & -> & _).
  rewrite (slot_index_same d d1 k2 size Hh Hcnt), Hu2 in Hu3.
  injection Hu3 as <-. rewrite Hb' in Hb3.
  destruct (bucket_lookup_update _ _ _ _ _ _ Hb Hb3) as [[He ->]|[_ Hb3']].
  - rewrite He, Hb in Hb2. injection Hb2 as <-.
    by rewrite first_match_put_other.
  - rewrite Hb2 in Hb3'. by injection Hb3' as <-.
Qed.

Lemma put_keeps_other_keys_witness :
  linked map_a chains_a /\ 1%N <> 0%N /\ (length (concat chains_a) < 2)%nat
  /\ exists d',
       HashMapPut 2 (Some map_a) (mkPair key_b 2) 1 true = Ok (SUCC, Some d', [])
       /\ HashMapGet 3 (Some d') key_a 1 true = Ok (SUCC, Some 1).
Proof.
  assert (H1 : linked map_a chains_a) by apply map_a_linked.
  assert (H2 : 1%N <> 0%N) by discriminate.
  assert (H3 : (length (concat chains_a) < 2)%nat) by apply chains_a_length.
  split; [exact H1|]. split; [exact H2|]. split; [exact H3|].
  assert (Hp : exists d', HashMapPut 2 (Some map_a) (mkPair key_b 2) 1 true
                          = Ok (SUCC, Some d', []))
    by (eexists; vm_compute; reflexivity).
  destruct Hp as [d' Hp]. exists d'. split; [exact Hp|].
  rewrite (put_keeps_other_keys 2 map_a d' chains_a (mkPair key_b 2) 1 true SUCC []
             H1 H2 H3 Hp key_a); [vm_compute; reflexivity|].
  vm_compute. discriminate.
Defined.

(** Extra X17.  On a linked map, [put] of a pair whose key
    [find] reports absent, followed by [remove] of that key, returns
    [SUCC] twice, hands the pair to the destroy routine when one is set,
    and gives back the buckets as they were, so that [get] answers for
    every key as before the two calls; [size()], which [remove] does not
    lower, stays one above. *)
Theorem put_then_remove_restores (fuel : nat) (d : HashMapData)
    (ls : list (list addr)) (p : Pair) (size : N) :
  linked d ls -> size <> 0%N -> (length (concat ls) < fuel)%nat ->
  HashMapFind fuel (Some d) (key p) size = Ok NOKEY ->
  exists d1 d2 ls2,
    HashMapPut fuel (Some d) p size true = Ok (SUCC, Some d1, [])
    /\ HashMapRemove (S fuel) (Some d1) (key p) size
       = Ok (SUCC, Some d2, destroy_if_set d p)
    /\ linked d2 ls2 /\ buckets d2 ls2 = buckets d ls
    /\ (forall k2 size2, size2 <> 0%N ->
          HashMapGet fuel (Some d2) k2 size2 true
          = HashMapGet fuel (Some d) k2 size2 true)
    /\ HashMapSize (Some d1) = Count (wrap32 (iSize_ d + 1))
    /\ HashMapSize (Some d2) = Count (wrap32 (iSize_ d + 1)).
Proof.
  intros Hl Hs Hf Hfind.
  destruct (get_refines fuel d ls (key p) size Hl Hs Hf)
    as (u0 & b0 & Hu0 & _ & Hb0 & _ & Hfind').
  rewrite Hfind in Hfind'.
  destruct (put_refines fuel d ls p size Hl Hs Hf)
    as (u & b & d1 & ls1 & Hu & _ & Hb & Hput & Hl1 & Hb1 & Hsz1 & Hlen1 & Hcnt1
        & Hh1 & Hd1 & _).
  rewrite Hu0 in Hu. injection Hu as <-. rewrite Hb0 in Hb. injection Hb as <-.
  destruct (first_match b0 (key p) size) as [?|] eqn:Hnone; [discriminate|].
  destruct (remove_refines (S fuel) d1 ls1 (key p) size Hl1 Hs ltac:(lia))
    as (u2 & b2 & Hu2 & _ & Hb2 & Hrm).
  rewrite (slot_index_same d d1 (key p) size Hh1 Hcnt1), Hu0 in Hu2.
  injection Hu2 as <-.
  pose proof (lookup_lt_Some _ _ _ Hb0) as Hlt.
  rewrite Hb1, list_lookup_insert_eq in Hb2 by done. injection Hb2 as <-.
  unfold bucket_put in Hrm. rewrite Hnone in Hrm. cbn [first_match bucket_remove] in Hrm.
  rewrite memcmp_refl in Hrm. cbn [Z.eqb] in Hrm.
  destruct Hrm as (d2 & ls2 & Hrm & Hl2 & Hb2 & Hlen2 & _ & _ & Hsz2 & Hcnt2 & Hh2 & _).
  exists d1, d2, ls2. split; [exact Hput|]. split.
  { rewrite Hrm. unfold destroy_if_set. by rewrite Hd1. }
  split; [done|].
  assert (Hbs : buckets d2 ls2 = buckets d ls).
  { rewrite Hb2, Hb1, list_insert_insert_eq. by apply list_insert_id. }
  split; [done|]. split.
  - intros k2 size2 Hs2.
    destruct (get_refines fuel d ls k2 size2 Hl Hs2 Hf)
      as (v & c & Hv & _ & Hc & -> & _).
    destruct (get_refines fuel d2 ls2 k2 size2 Hl2 Hs2 ltac:(lia))
      as (v' & c' & Hv' & _ & Hc' & -> & _).
    rewrite (slot_index_same d1 d2 k2 size2 Hh2 Hcnt2),
      (slot_index_same d d1 k2 size2 Hh1 Hcnt1), Hv in Hv'.
    injection Hv' as <-. rewrite Hbs, Hc in Hc'. by injection Hc' as <-.
  - cbn [HashMapSize]. by rewrite Hsz2, Hsz1.
Qed.

Lemma put_then_remove_restores_witness :
  linked map_a chains_a /\ 1%N <> 0%N /\ (length (concat chains_a) < 2)%nat
  /\ HashMapFind 2 (Some map_a) key_b 1 = Ok NOKEY
  /\ exists d1 d2,
       HashMapPut 2 (Some map_a) (mkPair key_b 2) 1 true = Ok (SUCC, Some d1, [])
       /\ HashMapRemove 3 (Some d1) key_b 1 = Ok (SUCC, Some d2, [])
       /\ HashMapSize (Some d2) = Count 2
       /\ HashMapGet 2 (Some d2) key_a 1 true = HashMapGet 2 (Some map_a) key_a 1 true.
Proof.
  assert (H1 : linked map_a chains_a) by apply map_a_linked.
  assert (H2 : 1%N <> 0%N) by discriminate.
  assert (H3 : (length (concat chains_a) < 2)%nat) by apply chains_a_length.
  assert (H4 : HashMapFind 2 (Some map_a) key_b 1 = Ok NOKEY)
    by (vm_compute; reflexivity).
  split; [exact H1|]. split; [exact H2|]. split; [exact H3|]. split; [exact H4|].
  destruct (put_then_remove_restores 2 map_a chains_a (mkPair key_b 2) 1 H1 H2 H3 H4)
    as (d1 & d2 & ls2 & Hp & Hr & _ & _ & Hg & _ & Hsz).
  exists d1, d2. split; [exact Hp|]. split; [exact Hr|]. split; [exact Hsz|].
  apply Hg. discriminate.
Defined.

(** Extra X18.  One pass of the iterator over a linked map,
    [iterate(true, ...)] followed by [iterate(false, &pair)] until a call
    does not return [SUCC], yields the pairs of the buckets, bucket after
    bucket in slot order and each bucket front to back, every pair once;
    the pass changes the cursor only, and every later call without reset
    returns [END]. *)
Theorem pass_visits_every_pair_once (d : HashMapData) (ls : list (list addr))
    (calls fuel : nat) :
  linked d ls ->
  (Z.to_nat (iCountSlot_ d) < fuel)%nat ->
  (length (concat ls) < calls)%nat ->
  exists d',
    pass calls fuel (Some d) = Ok (concat (buckets d ls), Some d')
    /\ same_table d d'
    /\ forall fuel',
         HashMapIterate fuel' (Some d') false true = Ok (END, Some d', Some None).
Proof.
  intros (Hok & Hall & _) Hfuel Hcalls. unfold buckets.
  rewrite <- pairs_at_concat.
  by apply pass_yields_every_node_once.
Qed.

Lemma pass_visits_every_pair_once_witness :
  linked map_a chains_a
  /\ (Z.to_nat (iCountSlot_ map_a) < 770)%nat
  /\ (length (concat chains_a) < 2)%nat
  /\ exists d', pass 2 770 (Some map_a) = Ok ([mkPair key_a 1], Some d').
Proof.
  assert (H1 : linked map_a chains_a) by apply map_a_linked.
  assert (H2 : (Z.to_nat (iCountSlot_ map_a) < 770)%nat) by (vm_compute; lia).
  assert (H3 : (length (concat chains_a) < 2)%nat) by apply chains_a_length.
  split; [exact H1|]. split; [exact H2|]. split; [exact H3|].
  destruct (pass_visits_every_pair_once map_a chains_a 2 770 H1 H2 H3)
    as (d' & Hp & _).
  exists d'. exact Hp.
Defined.

(** Extra X19.  [put] keeps [size()] equal to the number of
    stored pairs: on an initialized map whose [iSize_] counts the nodes
    of the chains (and is below [INT32_MAX]), a [put] that returns leaves
    an initialized map whose [iSize_] again counts them, and a pass of
    the iterator over it yields exactly [size()] pairs. *)
Theorem put_keeps_size_counting_pairs (fuel : nat) (d d' : HashMapData)
    (ls : list (list addr)) (p : Pair) (size : N) (ok : bool) (rc : RtnCode)
    (es : list event) :
  map_ok d -> counted d ls -> iSize_ d < INT32_MAX ->
  HashMapPut fuel (Some d) p size ok = Ok (rc, Some d', es) ->
  exists ls',
    map_ok d' /\ counted d' ls'
    /\ forall calls fuel',
         (Z.to_nat (iCountSlot_ d') < fuel')%nat ->
         (length (concat ls') < calls)%nat ->
         exists pairs d'',
           pass calls fuel' (Some d') = Ok (pairs, Some d'')
           /\ HashMapSize (Some d') = Count (Z.of_nat (length pairs)).
Proof.
  intros Hok Hcnt Hmax Hput.
  pose proof (put_map_ok _ _ _ _ _ _ _ _ Hok Hput) as Hok'.
  destruct (put_counted _ _ _ _ _ _ _ _ _ Hok Hcnt Hmax Hput) as [ls' Hcnt'].
  exists ls'. split; [done|]. split; [done|].
  intros calls fuel' Hf Hc. by eapply pass_yields_size_pairs.
Qed.

Lemma put_keeps_size_counting_pairs_witness :
  map_ok (fresh_map zero_hash)
  /\ counted (fresh_map zero_hash) (replicate 769%nat [])
  /\ iSize_ (fresh_map zero_hash) < INT32_MAX
  /\ HashMapPut 1 (Some (fresh_map zero_hash)) (mkPair key_a 1) 1 true
     = Ok (SUCC, Some map_a, [])
  /\ exists ls', counted map_a ls'.
Proof.
  assert (H1 : map_ok (fresh_map zero_hash)) by apply fresh_map_ok.
  assert (H2 : counted (fresh_map zero_hash) (replicate 769%nat []))
    by apply fresh_map_counted.
  assert (H3 : iSize_ (fresh_map zero_hash) < INT32_MAX) by (vm_compute; reflexivity).
  assert (H4 : HashMapPut 1 (Some (fresh_map zero_hash)) (mkPair key_a 1) 1 true
               = Ok (SUCC, Some map_a, [])) by (vm_compute; reflexivity).
  split; [exact H1|]. split; [exact H2|]. split; [exact H3|]. split; [exact H4|].
  destruct (put_keeps_size_counting_pairs 1 _ _ _ _ _ _ _ _ H1 H2 H3 H4)
    as (ls' & _ & Hc & _).
  exists ls'. exact Hc.
Defined.

(** Extra X20.  [remove] does not move the cursor of the iterator:
    it leaves [bEnd_], [iIterIdx_] and [pIterNode_] as they were.  So
    when the cursor stands on the node that [remove] frees, the next
    [iterate(false, &pair)] reads the freed node. *)
Theorem remove_leaves_cursor (fuel : nat) (d d' : HashMapData) (k : Key)
    (size : N) (rc : RtnCode) (es : list event) :
  HashMapRemove fuel (Some d) k size = Ok (rc, Some d', es) ->
  bEnd_ d' = bEnd_ d /\ iIterIdx_ d' = iIterIdx_ d /\ pIterNode_ d' = pIterNode_ d
  /\ forall c, bEnd_ d = Val false -> pIterNode_ d = Val (Some c) ->
       nodes d' !! c = None ->
       forall fuel', HashMapIterate (S fuel') (Some d') false true = Fault.
Proof.
  intros H.
  assert (Hcur : bEnd_ d' = bEnd_ d /\ iIterIdx_ d' = iIterIdx_ d
                 /\ pIterNode_ d' = pIterNode_ d).
  { unfold HashMapRemove in H. destruct (size =? 0)%N; [by injection H as _ <- _|].
    destruct (slot_index d k size) as [u| |]; try discriminate. cbn [exec_bind] in H.
    destruct (slot_read (aSlot_ d) u) as [head| |]; try discriminate.
    cbn [exec_bind] in H.
    destruct (scan fuel (nodes d) None head k size) as [[[[pp c] n]|]| |];
      try discriminate; cbn [exec_bind] in H.
    - destruct pp as [a|].
      + destruct (nodes d !! a); [|discriminate]. cbn [exec_bind] in H.
        by injection H as _ <- _.
      + destruct (slot_write (aSlot_ d) u (pNext n)); try discriminate.
        cbn [exec_bind] in H. by injection H as _ <- _.
    - by injection H as _ <- _. }
  destruct Hcur as (He & Hi & Hn). split; [done|]. split; [done|]. split; [done|].
  intros c Hend Hcur Hfree fuel'. rewrite <- He in Hend. rewrite <- Hn in Hcur.
  unfold HashMapIterate. cbn [negb]. rewrite Hend. cbn [load exec_bind iterate_loop].
  rewrite Hcur. cbn [load exec_bind]. by rewrite Hfree.
Qed.

Lemma remove_leaves_cursor_witness :
  exists d',
    HashMapRemove 2 (Some map_a_iterating) key_a 1 = Ok (SUCC, Some d', [])
    /\ bEnd_ map_a_iterating = Val false
    /\ pIterNode_ map_a_iterating = Val (Some 1%positive)
    /\ nodes d' !! 1%positive = None
    /\ HashMapIterate 1 (Some d') false true = Fault.
Proof.
  assert (Hr : exists d', HashMapRemove 2 (Some map_a_iterating) key_a 1
                          = Ok (SUCC, Some d', [])
                          /\ nodes d' !! 1%positive = None).
  { eexists. split; [vm_compute; reflexivity|]. vm_compute. reflexivity. }
  destruct Hr as (d' & Hr & Hfree). exists d'.
  split; [exact Hr|]. split; [reflexivity|]. split; [reflexivity|].
  split; [exact Hfree|].
  destruct (remove_leaves_cursor 2 map_a_iterating d' key_a 1 SUCC [] Hr)
    as (_ & _ & _ & H).
  exact (H 1%positive eq_refl eq_refl Hfree 0%nat).
Defined.

(** Extra X21.  The map [HashMapInit] builds when its three
    allocations succeed is empty: [size()] is 0, and for every key, with
    a key size that is not 0, [get] returns [NOKEY] and stores [NULL],
    [find] returns [NOKEY], [remove] returns [ERR_NODATA] and changes
    nothing, and a pass of the iterator yields no pair.  When one of the
    three allocations fails, [HashMapInit] returns [ERR_NOMEM] and a null
    handle. *)
Theorem empty_map_behaviour (hash : hash_fn) (k : Key) (size : N) (fuel : nat) :
  size <> 0%N -> (0 < fuel)%nat ->
  exists d,
    HashMapInit hash true true true = (SUCC, Some d)
    /\ HashMapSize (Some d) = Count 0
    /\ HashMapGet fuel (Some d) k size true = Ok (NOKEY, Some NULL)
    /\ HashMapFind fuel (Some d) k size = Ok NOKEY
    /\ HashMapRemove fuel (Some d) k size = Ok (ERR_NODATA, Some d, [])
    /\ (forall calls fuel', (0 < calls)%nat -> (769 < fuel')%nat ->
          exists d', pass calls fuel' (Some d) = Ok ([], Some d'))
    /\ forall m1 m2 m3, m1 && m2 && m3 = false ->
          HashMapInit hash m1 m2 m3 = (ERR_NOMEM, None).
Proof.
  intros Hs Hf. exists (fresh_map hash). split; [done|]. split; [done|].
  pose proof (fresh_map_linked hash) as Hl.
  assert (Hlen : (length (concat (replicate 769%nat (@nil addr))) < fuel)%nat).
  { by rewrite concat_replicate_nil. }
  assert (Hb : forall u b, buckets (fresh_map hash) (replicate 769%nat []) !! u = Some b
                           -> b = []).
  { intros u b H. unfold buckets in H. rewrite list_lookup_fmap in H.
    destruct (replicate 769%nat [] !! u) as [y|] eqn:Hy; [|done].
    apply lookup_replicate in Hy as [-> _]. by injection H as <-. }
  destruct (get_refines fuel _ _ k size Hl Hs Hlen) as (u & b & _ & _ & Hbu & Hg & Hfd).
  rewrite (Hb _ _ Hbu) in Hg, Hfd. split; [exact Hg|]. split; [exact Hfd|].
  destruct (remove_refines fuel _ _ k size Hl Hs Hlen) as (u' & b' & _ & _ & Hbu' & Hr).
  rewrite (Hb _ _ Hbu') in Hr. split; [exact Hr|]. split.
  - intros calls fuel' Hc Hf'.
    destruct Hl as (Hok & Hall & _).
    destruct (pass_yields_every_node_once (fresh_map hash) (replicate 769%nat [])
                calls fuel' Hok Hall) as (d' & Hp & _).
    + cbn [iCountSlot_ fresh_map]. lia.
    + by rewrite concat_replicate_nil.
    + exists d'. by rewrite concat_replicate_nil in Hp.
  - intros [] [] []; done.
Qed.

Lemma empty_map_behaviour_witness :
  1%N <> 0%N /\ (0 < 1)%nat
  /\ exists d,
       HashMapInit zero_hash true true true = (SUCC, Some d)
       /\ HashMapGet 1 (Some d) key_a 1 true = Ok (NOKEY, Some NULL)
       /\ HashMapRemove 1 (Some d) key_a 1 = Ok (ERR_NODATA, Some d, []).
Proof.
  assert (H1 : 1%N <> 0%N) by discriminate.
  assert (H2 : (0 < 1)%nat) by lia.
  split; [exact H1|]. split; [exact H2|].
  destruct (empty_map_behaviour zero_hash key_a 1 1 H1 H2)
    as (d & Hi & _ & Hg & _ & Hr & _).
  exists d. split; [exact Hi|]. split; [exact Hg|exact Hr].
Defined.

End HashMapExtra.

(** ** The singly linked list: further properties *)

Module SLListExtra.
Import SLList SLListSpec.

Lemma items_at_ext (h h' : heap) l :
  (forall a, a ∈ l -> pItem <$> h' !! a = pItem <$> h !! a) ->
  items_at h' l = items_at h l.
Proof.
  intros H. unfold items_at. apply list_fmap_ext. intros i a Ha.
  apply H. by eapply list_elem_of_lookup_2.
Qed.

Lemma items_at_app (h : heap) l1 l2 :
  items_at h (l1 ++ l2) = items_at h l1 ++ items_at h l2.
Proof. apply fmap_app. Qed.

Lemma items_at_stored (h : heap) p l :
  chain pNext h p l -> exists xs, items_at h l = Some <$> xs.
Proof.
  induction 1 as [|a n l Ha _ [xs IH]]; [by exists []|].
  exists (pItem n :: xs).
  change (items_at h (a :: l)) with ((pItem <$> h !! a) :: items_at h l).
  by rewrite Ha, IH.
Qed.

(** The loop that walks to the index [n] stops between the first [n]
    nodes of the chain and the rest. *)
Lemma walk_chain (h : heap) : forall n p l pred0,
  chain pNext h p l -> (n <= length l)%nat ->
  exists q,
    walk h n pred0 p = Ok (from_option Some pred0 (last (take n l)), q)
    /\ chain pNext h q (drop n l)
    /\ match last (take n l) with
       | Some a => exists na, h !! a = Some na /\ pNext na = q
       | None => q = p
       end.
Proof.
  induction n as [|n IH]; intros p l pred0 Hl Hn.
  - exists p. by rewrite take_0, drop_0.
  - destruct Hl as [|a nd l Ha Hl]; [simpl in Hn; lia|].
    simpl in Hn. cbn [walk]. rewrite Ha.
    destruct (IH (pNext nd) l (Some a) Hl ltac:(lia)) as (q & Hw & Hq & Hlast).
    exists q. rewrite Hw. cbn [take drop]. rewrite last_cons.
    destruct (last (take n l)) as [b|]; [done|].
    split; [done|]. split; [done|]. exists nd. by subst q.
Qed.

(** Unlinking the node [c] of the chain of a list. *)
Lemma unlink_chain (h : heap) self l1 c l2 n :
  chain pNext h (pHead self) (l1 ++ c :: l2) -> h !! c = Some n ->
  exists h' self',
    unlink h self (last l1) c (pNext n) = Ok (h', self')
    /\ chain pNext h' (pHead self') (l1 ++ l2)
    /\ iSize self' = iSize self - 1 /\ pTail self' = pTail self
    /\ compare self' = compare self /\ destroy self' = destroy self
    /\ h' !! c = None
    /\ (forall a, a <> c -> pItem <$> h' !! a = pItem <$> h !! a)
    /\ match last l1 with
       | None => h' = delete c h /\ self' = set_iSize (set_pHead self (pNext n))
                                                     (iSize self - 1)
       | Some a => exists na, h !! a = Some na
                              /\ h' = <[a := mkNode (pItem na) (pNext n)]> (delete c h)
                              /\ self' = set_iSize self (iSize self - 1)
       end.
Proof.
  intros Hl Hc. pose proof (chain_unlink pNext _ _ _ _ _ _ Hl Hc) as Hun.
  unfold unlink. destruct (last l1) as [a|] eqn:Hlast.
  - assert (Ha : a ∈ l1 ++ c :: l2).
    { apply last_Some in Hlast as [l' ->]. apply elem_of_app. left.
      apply elem_of_app. right. left. }
    destruct (chain_allocated pNext _ _ _ a Hl Ha) as [na Hna].
    destruct (Hun (mkNode (pItem na) (pNext n)) eq_refl) as [Hac Hch].
    cbn [store_next]. rewrite lookup_delete_ne, Hna by done. cbn [exec_bind].
    eexists _, _. split; [reflexivity|].
    rewrite delete_insert_ne in Hch by done.
    split; [exact Hch|]. split; [done|]. split; [done|]. split; [done|].
    split; [done|]. split; [by rewrite lookup_insert_ne, lookup_delete_eq|].
    split; [|by exists na].
    intros b Hbc. destruct (decide (b = a)) as [->|Hba].
    + by rewrite lookup_insert_eq, Hna.
    + by rewrite lookup_insert_ne, lookup_delete_ne.
  - destruct Hun as [_ Hch]. apply last_None in Hlast as ->. cbn [exec_bind].
    eexists _, _. split; [reflexivity|]. split; [exact Hch|].
    split; [done|]. split; [done|]. split; [done|]. split; [done|].
    split; [apply lookup_delete_eq|]. split; [|done].
    intros b Hbc. by rewrite lookup_delete_ne.
Qed.

Lemma list_record_eta (self : SinglyLinkedList) :
  mkList (pHead self) (pTail self) (iSize self) (compare self) (destroy self) = self.
Proof. by destruct self. Qed.

Lemma list_insert_cases (h : heap) self l idx x :
  listed h self l -> Z.of_N idx <= iSize self ->
  exists succ h' self',
    SLListInsert h self idx x true = Ok (Some (fresh (dom h)), h', self')
    /\ SLListInsert h self idx x false = Ok (None, h, self)
    /\ chain pNext h' (pHead self')
         (take (N.to_nat idx) l ++ fresh (dom h) :: drop (N.to_nat idx) l)
    /\ h' !! fresh (dom h) = Some (mkNode x succ)
    /\ (forall a, a <> fresh (dom h) -> pItem <$> h' !! a = pItem <$> h !! a)
    /\ match last (take (N.to_nat idx) l) with
       | None => succ = pHead self
                 /\ h' = <[fresh (dom h) := mkNode x succ]> h
                 /\ self' = set_iSize (set_pHead self (Some (fresh (dom h))))
                                      (iSize self + 1)
       | Some a => exists na, h !! a = Some na /\ pNext na = succ
                              /\ a <> fresh (dom h)
                              /\ h' = <[a := mkNode (pItem na) (Some (fresh (dom h)))]>
                                        (<[fresh (dom h) := mkNode x succ]> h)
                              /\ self' = set_iSize self (iSize self + 1)
       end.
Proof.
  intros [Hl Hsz] Hidx. set (n := N.to_nat idx). set (new := fresh (dom h)).
  assert (Hnew : h !! new = None) by apply not_elem_of_dom, is_fresh.
  assert (Hn : (n <= length l)%nat) by (unfold n; lia).
  destruct (walk_chain h n (pHead self) l None Hl Hn) as (succ & Hw & Hq & Hlast).
  unfold SLListInsert. destruct (Z.leb_spec (Z.of_N idx) (iSize self)); [|lia].
  fold n. rewrite Hw. cbn [exec_bind negb]. fold new.
  pose proof (chain_insert_at pNext h (pHead self) (take n l) (drop n l) new
                (mkNode x succ) Hnew) as Hins.
  rewrite take_drop in Hins. specialize (Hins Hl Hq).
  exists succ. destruct (last (take n l)) as [a|] eqn:Ha; cbn [from_option].
  - destruct Hlast as (na & Hna & Hnext).
    assert (Hane : a <> new) by congruence.
    cbn [store_next]. rewrite lookup_insert_ne, Hna by done. cbn [exec_bind].
    eexists _, _. split; [reflexivity|]. split; [done|].
    split; [by apply Hins|]. split; [by rewrite lookup_insert_ne, lookup_insert_eq|].
    split; [|by exists na].
    intros b Hb. destruct (decide (b = a)) as [->|Hba].
    + by rewrite lookup_insert_eq, Hna.
    + by rewrite !lookup_insert_ne.
  - cbn [exec_bind]. eexists _, _. split; [reflexivity|]. split; [done|].
    apply last_None in Ha. rewrite Ha.
    split; [exact Hins|]. split; [apply lookup_insert_eq|].
    split; [|done]. intros b Hb. by rewrite lookup_insert_ne.
Qed.

Lemma list_pop_cases (h : heap) self l idx :
  listed h self l -> Z.of_N idx < iSize self ->
  exists c nd,
    l !! N.to_nat idx = Some c /\ h !! c = Some nd
    /\ l = take (N.to_nat idx) l ++ c :: drop (S (N.to_nat idx)) l
    /\ SLListPop h self idx
       = (r <- unlink h self (last (take (N.to_nat idx) l)) c (pNext nd) ;;
          let '(h, self) := r in Ok (pItem nd, h, self)).
Proof.
  intros [Hl Hsz] Hidx. set (n := N.to_nat idx).
  assert (Hn : (n < length l)%nat) by (unfold n; lia).
  destruct (walk_chain h n (pHead self) l None Hl ltac:(lia)) as (q & Hw & Hq & _).
  destruct (lookup_lt_is_Some_2 l n Hn) as [c Hc].
  pose proof (take_drop_middle l n c Hc) as Hsplit.
  rewrite (drop_S l c n Hc) in Hq. inversion Hq as [|? nd ? Hnd Hrest]; subst.
  exists c, nd. split; [done|]. split; [done|]. split; [done|].
  unfold SLListPop. destruct (Z.ltb_spec (Z.of_N idx) (iSize self)); [|lia].
  fold n. rewrite Hw. cbn [exec_bind from_option]. rewrite Hnd.
  by destruct (last (take n l)).
Qed.

Lemma heap_two_chain : chain pNext heap_two (Some 1%positive) [1%positive; 2%positive].
Proof.
  econstructor; [reflexivity|]. econstructor; [reflexivity|]. constructor.
Qed.

Lemma self_two_listed : listed heap_two self_two [1%positive; 2%positive].
Proof. split; [apply heap_two_chain|done]. Qed.

Lemma list_append_cases (h : heap) (self : SinglyLinkedList) (l : list addr)
    (x : Item) :
  chain pNext h (pHead self) l -> iSize self = Z.of_nat (length l) ->
  pTail self = last l ->
  SLListAppend h self x false = Ok (None, h, self)
  /\ exists new h' self',
       SLListAppend h self x true = Ok (Some new, h', self')
       /\ h !! new = None
       /\ chain pNext h' (pHead self') (l ++ [new])
       /\ iSize self' = iSize self + 1
       /\ pTail self' = Some new
       /\ items_at h' (l ++ [new]) = items_at h l ++ [Some x]
       /\ h' !! new = Some (mkNode x None)
       /\ compare self' = compare self.
Proof.
  intros Hl Hsz Htail. split; [done|].
  assert (Hnew : h !! fresh (dom h) = None) by apply not_elem_of_dom, is_fresh.
  unfold SLListAppend. cbn [negb].
  destruct l as [|a l].
  - rewrite (chain_head_nil _ _ Hl). cbn [exec_bind].
    eexists _, _, _. split; [reflexivity|]. split; [done|]. split.
    + econstructor; [apply lookup_insert_eq|constructor].
    + split; [done|]. split; [done|]. split; [|split; [apply lookup_insert_eq|done]].
      unfold items_at. simpl. by rewrite lookup_insert_eq.
  - assert (Hhead : pHead self = Some a) by (by inversion Hl).
    rewrite Hhead.
    destruct (last (a :: l)) as [t|] eqn:Hlast.
    2:{ by apply last_None in Hlast. }
    destruct (chain_allocated _ _ _ _ t Hl) as [nt Ht].
    { by apply last_Some_elem_of. }
    assert (Htn : t <> fresh (dom h)) by congruence.
    rewrite Htail. cbn [store_next].
    rewrite lookup_insert_ne, Ht by congruence. cbn [exec_bind].
    eexists _, _, _. split; [reflexivity|]. split; [done|]. split.
    + apply (chain_snoc _ _ (a :: l) Hl t nt); done.
    + split; [done|]. split; [done|].
      split; [|split; [by rewrite lookup_insert_ne, lookup_insert_eq|done]].
      rewrite items_at_app. f_equal.
      * apply items_at_ext. intros b Hb.
        destruct (chain_allocated _ _ _ _ b Hl Hb) as [nb Hnb].
        destruct (decide (b = t)) as [->|Hbt].
        -- by rewrite lookup_insert_eq, Ht.
        -- rewrite !lookup_insert_ne; [done|congruence|done].
      * unfold items_at. simpl.
        by rewrite lookup_insert_ne, lookup_insert_eq.
Qed.

(** Extra X22.  On a list that satisfies the invariant (the nodes
    reachable from [pHead] are counted by [iSize] and [pTail] is the last
    of them), [append(x)] with a failing [malloc] returns null and
    changes nothing; otherwise it returns a new node that becomes the
    last node and the tail, holding [x], behind the old nodes with their
    items, and the size grows by one. *)
Theorem append_adds_last (h : heap) (self : SinglyLinkedList) (l : list addr)
    (x : Item) :
  chain pNext h (pHead self) l -> iSize self = Z.of_nat (length l) ->
  pTail self = last l ->
  SLListAppend h self x false = Ok (None, h, self)
  /\ exists new h' self',
       SLListAppend h self x true = Ok (Some new, h', self')
       /\ h !! new = None
       /\ chain pNext h' (pHead self') (l ++ [new])
       /\ iSize self' = iSize self + 1
       /\ pTail self' = Some new
       /\ items_at h' (l ++ [new]) = items_at h l ++ [Some x].
Proof.
  intros Hl Hsz Htail.
  destruct (list_append_cases h self l x Hl Hsz Htail)
    as (Hf & new & h' & self' & H1 & H2 & H3 & H4 & H5 & H6 & _).
  split; [done|]. by exists new, h', self'.
Qed.

Lemma append_adds_last_witness :
  chain pNext heap_two (pHead self_two) [1%positive; 2%positive]
  /\ iSize self_two = Z.of_nat (length [1%positive; 2%positive])
  /\ pTail self_two = last [1%positive; 2%positive]
  /\ exists new h' self',
       SLListAppend heap_two self_two 30 true = Ok (Some new, h', self')
       /\ items_at h' ([1%positive; 2%positive] ++ [new])
          = items_at heap_two [1%positive; 2%positive] ++ [Some 30].
Proof.
  assert (H1 : chain pNext heap_two (pHead self_two) [1%positive; 2%positive])
    by apply heap_two_chain.
  assert (H2 : iSize self_two = Z.of_nat (length [1%positive; 2%positive]))
    by reflexivity.
  assert (H3 : pTail self_two = last [1%positive; 2%positive]) by reflexivity.
  split; [exact H1|]. split; [exact H2|]. split; [exact H3|].
  destruct (append_adds_last heap_two self_two _ 30 H1 H2 H3)
    as (_ & new & h' & self' & Ha & _ & _ & _ & _ & Hi).
  exists new, h', self'. split; [exact Ha|exact Hi].
Defined.

(** Extra X23.  On a list whose [iSize] counts the nodes reachable
    from [pHead], [insert(idx, x)] with [idx <= size] links a new node
    holding [x] in front of the node at [idx] (behind the last node when
    [idx] is the size): the items become the first [idx] old items, [x],
    and the remaining old items; the size grows by one and [pTail] is not
    assigned; with a failing [malloc] it returns null and changes
    nothing.  With [idx > size] it returns null and changes nothing. *)
Theorem insert_at_index (h : heap) (self : SinglyLinkedList) (l : list addr)
    (idx : N) (x : Item) :
  listed h self l ->
  (Z.of_N idx <= iSize self ->
     SLListInsert h self idx x false = Ok (None, h, self)
     /\ exists new h' self',
          SLListInsert h self idx x true = Ok (Some new, h', self')
          /\ h !! new = None
          /\ listed h' self' (take (N.to_nat idx) l ++ new :: drop (N.to_nat idx) l)
          /\ items_at h' (take (N.to_nat idx) l ++ new :: drop (N.to_nat idx) l)
             = take (N.to_nat idx) (items_at h l) ++ Some x
               :: drop (N.to_nat idx) (items_at h l)
          /\ pTail self' = pTail self)
  /\ (iSize self < Z.of_N idx ->
      forall ok, SLListInsert h self idx x ok = Ok (None, h, self)).
Proof.
  intros Hlisted. split.
  - intros Hidx. pose proof Hlisted as [Hl Hsz].
    destruct (list_insert_cases h self l idx x Hlisted Hidx)
      as (succ & h' & self' & Hins & Hfail & Hch & Hnew & Hitem & Hform).
    assert (Hfresh : h !! fresh (dom h) = None) by apply not_elem_of_dom, is_fresh.
    split; [done|]. exists (fresh (dom h)), h', self'.
    split; [done|]. split; [done|].
    assert (Hself : iSize self' = iSize self + 1 /\ pTail self' = pTail self).
    { destruct (last (take (N.to_nat idx) l)).
      - by destruct Hform as (na & _ & _ & _ & _ & ->).
      - by destruct Hform as (_ & _ & ->). }
    destruct Hself as [Hsz' Htl]. split; [|split; [|done]].
    + split; [done|]. rewrite Hsz', Hsz, length_app. cbn [length].
      rewrite length_take, length_drop. lia.
    + assert (Hold : forall l', (forall a, a ∈ l' -> a ∈ l) ->
                                items_at h' l' = items_at h l').
      { intros l' Hsub. apply items_at_ext. intros a Ha. apply Hitem.
        intros ->. destruct (chain_allocated _ _ _ _ _ Hl (Hsub _ Ha)) as [? ?].
        congruence. }
      rewrite items_at_app.
      change (items_at h' (fresh (dom h) :: drop (N.to_nat idx) l))
        with ((pItem <$> h' !! fresh (dom h)) :: items_at h' (drop (N.to_nat idx) l)).
      rewrite Hnew. cbn [fmap option_fmap option_map pItem].
      rewrite !Hold.
      * unfold items_at. by rewrite fmap_take, fmap_drop.
      * intros a Ha. exact (elem_of_sublist _ _ _ Ha (sublist_drop l _)).
      * intros a Ha. exact (elem_of_sublist _ _ _ Ha (sublist_take l _)).
  - intros Hidx ok. unfold SLListInsert.
    destruct (Z.leb_spec (Z.of_N idx) (iSize self)); [lia|done].
Qed.

Lemma insert_at_index_witness :
  listed heap_two self_two [1%positive; 2%positive]
  /\ Z.of_N 1 <= iSize self_two
  /\ exists new h' self',
       SLListInsert heap_two self_two 1 15 true = Ok (Some new, h', self')
       /\ items_at h' [1%positive; new; 2%positive] = [Some 10; Some 15; Some 20].
Proof.
  assert (H1 : listed heap_two self_two [1%positive; 2%positive])
    by apply self_two_listed.
  assert (H2 : Z.of_N 1 <= iSize self_two) by (vm_compute; discriminate).
  split; [exact H1|]. split; [exact H2|].
  destruct (insert_at_index heap_two self_two _ 1 15 H1) as [H _].
  destruct (H H2) as (_ & new & h' & self' & Hi & _ & _ & Hit & _).
  exists new, h', self'. split; [exact Hi|exact Hit].
Defined.

(** Extra X24.  On a list whose [iSize] counts the nodes reachable
    from [pHead], [pop(idx)] with [idx < size] returns the item of the
    node at [idx], unlinks and frees that node, keeps the other items in
    order, lowers the size by one and does not assign [pTail]; with
    [idx >= size] it returns [NULL] and changes nothing. *)
Theorem pop_at_index (h : heap) (self : SinglyLinkedList) (l : list addr)
    (idx : N) :
  listed h self l ->
  (Z.of_N idx < iSize self ->
     exists c nd h' self',
       l !! N.to_nat idx = Some c /\ h !! c = Some nd
       /\ SLListPop h self idx = Ok (pItem nd, h', self')
       /\ listed h' self' (delete (N.to_nat idx) l)
       /\ h' !! c = None
       /\ items_at h' (delete (N.to_nat idx) l)
          = delete (N.to_nat idx) (items_at h l)
       /\ pTail self' = pTail self)
  /\ (iSize self <= Z.of_N idx -> SLListPop h self idx = Ok (NULL, h, self)).
Proof.
  intros Hlisted. split.
  - intros Hidx. pose proof Hlisted as [Hl Hsz].
    destruct (list_pop_cases h self l idx Hlisted Hidx) as (c & nd & Hc & Hnd & Hsplit & Hpop).
    set (n := N.to_nat idx) in *.
    rewrite Hsplit in Hl.
    destruct (unlink_chain h self _ c _ nd Hl Hnd)
      as (h' & self' & Hun & Hch & Hsz' & Htl & _ & _ & Hfree & Hitem & _).
    pose proof (chain_NoDup _ _ _ _ Hl) as Hnd'.
    exists c, nd, h', self'. split; [done|]. split; [done|].
    rewrite Hpop, Hun. split; [done|]. rewrite !delete_take_drop.
    split; [|split; [done|split; [|done]]].
    + split; [done|]. rewrite Hsz', Hsz. rewrite Hsplit at 1.
      rewrite !length_app. cbn [length]. lia.
    + unfold items_at at 2 3. rewrite <- fmap_take, <- fmap_drop, <- fmap_app.
      apply items_at_ext. intros a Ha. apply Hitem. intros ->.
      apply NoDup_app in Hnd' as (_ & Hd1 & Hd2).
      apply NoDup_cons in Hd2 as [Hd2 _].
      apply elem_of_app in Ha as [Ha|Ha]; [|done].
      apply (Hd1 c Ha). left.
  - intros Hidx. unfold SLListPop.
    destruct (Z.ltb_spec (Z.of_N idx) (iSize self)); [lia|done].
Qed.

Lemma pop_at_index_witness :
  listed heap_two self_two [1%positive; 2%positive]
  /\ Z.of_N 0 < iSize self_two
  /\ exists h' self',
       SLListPop heap_two self_two 0 = Ok (10, h', self')
       /\ items_at h' [2%positive] = [Some 20].
Proof.
  assert (H1 : listed heap_two self_two [1%positive; 2%positive])
    by apply self_two_listed.
  assert (H2 : Z.of_N 0 < iSize self_two) by (vm_compute; reflexivity).
  split; [exact H1|]. split; [exact H2|].
  destruct (pop_at_index heap_two self_two _ 0 H1) as [H _].
  destruct (H H2) as (c & nd & h' & self' & Hc & Hn & Hp & _ & _ & Hit & _).
  injection Hc as <-. vm_compute in Hn. injection Hn as <-.
  exists h', self'. split; [exact Hp|exact Hit].
Defined.

(** Extra X25.  [insert(idx, x)] followed by [pop(idx)] is a
    round trip: on a list whose [iSize] counts the nodes reachable from
    [pHead], with [idx <= size] and a successful [malloc], the [pop]
    returns [x] and gives back the heap and the list record exactly as
    they were before the [insert]. *)
Theorem insert_then_pop_restores (h : heap) (self : SinglyLinkedList)
    (l : list addr) (idx : N) (x : Item) :
  listed h self l -> Z.of_N idx <= iSize self ->
  exists new h1 self1,
    SLListInsert h self idx x true = Ok (Some new, h1, self1)
    /\ SLListPop h1 self1 idx = Ok (x, h, self).
Proof.
  intros Hlisted Hidx. pose proof Hlisted as [Hl Hsz].
  destruct (list_insert_cases h self l idx x Hlisted Hidx)
    as (succ & h1 & self1 & Hins & _ & Hch & Hnew & _ & Hform).
  set (n := N.to_nat idx) in *. set (new := fresh (dom h)) in *.
  assert (Hfresh : h !! new = None) by apply not_elem_of_dom, is_fresh.
  assert (Hn : (n <= length l)%nat) by (unfold n; lia).
  exists new, h1, self1. split; [done|].
  assert (Hsz1 : iSize self1 = iSize self + 1).
  { destruct (last (take n l)).
    - by destruct Hform as (na & _ & _ & _ & _ & ->).
    - by destruct Hform as (_ & _ & ->). }
  assert (Hlisted1 : listed h1 self1 (take n l ++ new :: drop n l)).
  { split; [done|]. rewrite Hsz1, Hsz, length_app. cbn [length].
    rewrite length_take, length_drop. lia. }
  destruct (list_pop_cases h1 self1 _ idx Hlisted1 ltac:(lia))
    as (c & nd & Hc & Hnd & _ & Hpop).
  fold n in Hc, Hpop.
  rewrite lookup_app_r, length_take in Hc by (rewrite length_take; lia).
  replace (n - n `min` length l)%nat with 0%nat in Hc by lia.
  injection Hc as <-. rewrite Hnew in Hnd. injection Hnd as <-.
  rewrite take_app_le, take_take in Hpop by (rewrite length_take; lia).
  replace (n `min` n)%nat with n in Hpop by lia.
  rewrite Hpop. cbn [pNext pItem]. unfold unlink.
  destruct (last (take n l)) as [a|].
  - destruct Hform as (na & Hna & Hnext & Hane & -> & ->).
    cbn [store_next].
    rewrite lookup_delete_ne, lookup_insert_eq by done. cbn [exec_bind pItem].
    rewrite delete_insert_ne, (delete_insert_id _ _ _ Hfresh) by done.
    rewrite insert_insert_eq.
    rewrite (insert_id h a) by (rewrite Hna; by destruct na; simpl in *; subst).
    destruct self; unfold set_iSize; cbn. do 3 f_equal. lia.
  - destruct Hform as (-> & -> & ->). cbn [exec_bind].
    rewrite (delete_insert_id _ _ _ Hfresh).
    destruct self; unfold set_iSize, set_pHead; cbn. do 3 f_equal. lia.
Qed.

Lemma insert_then_pop_restores_witness :
  listed heap_two self_two [1%positive; 2%positive]
  /\ Z.of_N 2 <= iSize self_two
  /\ exists new h1 self1,
       SLListInsert heap_two self_two 2 30 true = Ok (Some new, h1, self1)
       /\ SLListPop h1 self1 2 = Ok (30, heap_two, self_two).
Proof.
  assert (H1 : listed heap_two self_two [1%positive; 2%positive])
    by apply self_two_listed.
  assert (H2 : Z.of_N 2 <= iSize self_two) by (vm_compute; discriminate).
  split; [exact H1|]. split; [exact H2|].
  exact (insert_then_pop_restores heap_two self_two _ 2 30 H1 H2).
Defined.

Lemma remove_loop_split (h : heap) self x p l : chain pNext h p l ->
  forall fuel pred, (length l < fuel)%nat ->
  (remove_loop fuel h self x pred p = Ok (NULL, h, self)
   /\ forall a n, a ∈ l -> h !! a = Some n -> compare self x (pItem n) <> 0)
  \/ exists l1 c n l2,
       l = l1 ++ c :: l2 /\ h !! c = Some n
       /\ compare self x (pItem n) = 0
       /\ (forall a na, a ∈ l1 -> h !! a = Some na ->
            compare self x (pItem na) <> 0)
       /\ remove_loop fuel h self x pred p
          = (r <- unlink h self (from_option Some pred (last l1)) c (pNext n) ;;
             let '(h, self) := r in Ok (pItem n, h, self)).
Proof.
  induction 1 as [|a n l Ha _ IH]; intros fuel pred Hfuel.
  - destruct fuel; [lia|]. left. split; [done|]. intros a n Hin.
    by apply elem_of_nil in Hin.
  - destruct fuel as [|fuel]; [simpl in Hfuel; lia|].
    cbn [remove_loop]. rewrite Ha.
    destruct (Z.eqb_spec (compare self x (pItem n)) 0) as [E|E].
    + right. exists [], a, n, l. split; [done|]. split; [done|]. split; [done|].
      split; [|done]. intros b nb Hin. by apply elem_of_nil in Hin.
    + destruct (IH fuel (Some a)) as [[Hr Hno]|(l1 & c & nc & l2 & -> & Hc & Hm & Hno & Hr)];
        [simpl in Hfuel; lia| |].
      * left. split; [done|]. intros b nb Hin Hb.
        apply elem_of_cons in Hin as [->|Hin]; [congruence|by eapply Hno].
      * right. exists (a :: l1), c, nc, l2. split; [done|]. split; [done|].
        split; [done|]. split.
        -- intros b nb Hin Hb.
           apply elem_of_cons in Hin as [->|Hin]; [congruence|by eapply Hno].
        -- rewrite Hr, last_cons. by destruct (last l1).
Qed.

(** Extra X26.  On a list whose [iSize] counts the nodes reachable
    from [pHead], [remove(x)] either finds no node whose item the compare
    routine reports equal to [x], returns [NULL] and changes nothing; or
    it unlinks and frees the first such node and returns its item, keeps
    the other items in order, lowers the size by one and does not assign
    [pTail]. *)
Theorem remove_first_equal (fuel : nat) (h : heap) (self : SinglyLinkedList)
    (l : list addr) (x : Item) :
  listed h self l -> (length l < fuel)%nat ->
  (SLListRemove fuel h self x = Ok (NULL, h, self)
   /\ forall a n, a ∈ l -> h !! a = Some n -> compare self x (pItem n) <> 0)
  \/ exists l1 c n l2 h' self',
       l = l1 ++ c :: l2 /\ h !! c = Some n
       /\ compare self x (pItem n) = 0
       /\ (forall a na, a ∈ l1 -> h !! a = Some na ->
            compare self x (pItem na) <> 0)
       /\ SLListRemove fuel h self x = Ok (pItem n, h', self')
       /\ listed h' self' (l1 ++ l2)
       /\ items_at h' (l1 ++ l2) = items_at h l1 ++ items_at h l2
       /\ h' !! c = None
       /\ pTail self' = pTail self.
Proof.
  intros [Hl Hsz] Hfuel. unfold SLListRemove.
  destruct (remove_loop_split h self x _ _ Hl fuel None Hfuel)
    as [H|(l1 & c & n & l2 & -> & Hc & Hm & Hno & Hr)]; [by left|].
  right. cbn [from_option] in Hr.
  replace (from_option Some None (last l1)) with (last l1) in Hr
    by (by destruct (last l1)).
  destruct (unlink_chain h self _ c _ n Hl Hc)
    as (h' & self' & Hun & Hch & Hsz' & Htl & _ & _ & Hfree & Hitem & _).
  pose proof (chain_NoDup _ _ _ _ Hl) as Hnd.
  exists l1, c, n, l2, h', self'. rewrite Hr, Hun.
  split; [done|]. split; [done|]. split; [done|]. split; [done|]. split; [done|].
  split; [|split; [|done]].
  - split; [done|]. rewrite Hsz', Hsz, !length_app. cbn [length]. lia.
  - rewrite <- items_at_app. apply items_at_ext. intros a Ha. apply Hitem.
    intros ->. apply NoDup_app in Hnd as (_ & Hd1 & Hd2).
    apply NoDup_cons in Hd2 as [Hd2 _].
    apply elem_of_app in Ha as [Ha|Ha]; [|done]. apply (Hd1 c Ha). left.
Qed.

Lemma remove_first_equal_witness :
  listed heap_two self_two [1%positive; 2%positive]
  /\ (length [1%positive; 2%positive] < 3)%nat
  /\ exists h' self', SLListRemove 3 heap_two self_two 20 = Ok (20, h', self').
Proof.
  assert (H1 : listed heap_two self_two [1%positive; 2%positive])
    by apply self_two_listed.
  assert (H2 : (length [1%positive; 2%positive] < 3)%nat) by (simpl; lia).
  split; [exact H1|]. split; [exact H2|].
  destruct (remove_first_equal 3 heap_two self_two _ 20 H1 H2) as [_|_];
    eexists _, _; vm_compute; reflexivity.
Defined.

Lemma search_loop_chain (h : heap) self x p l : chain pNext h p l ->
  forall fuel, (length l < fuel)%nat ->
  exists b, search_loop fuel h self x p = Ok b
    /\ (b = true <-> exists a n, a ∈ l /\ h !! a = Some n
                                 /\ compare self x (pItem n) = 0).
Proof.
  induction 1 as [|a n l Ha _ IH]; intros fuel Hfuel.
  - destruct fuel; [lia|]. exists false. split; [done|]. split; [done|].
    intros (a & n & Hin & _). by apply elem_of_nil in Hin.
  - destruct fuel as [|fuel]; [simpl in Hfuel; lia|].
    cbn [search_loop]. rewrite Ha.
    destruct (Z.eqb_spec (compare self x (pItem n)) 0) as [E|E].
    + exists true. split; [done|]. split; [|done]. intros _.
      exists a, n. split; [left|done].
    + destruct (IH fuel ltac:(simpl in Hfuel; lia)) as (b & Hb & Hiff).
      exists b. split; [done|]. rewrite Hiff. split.
      * intros (c & nc & Hin & Hc). exists c, nc. split; [by right|done].
      * intros (c & nc & Hin & Hc & Hm).
        apply elem_of_cons in Hin as [->|Hin]; [congruence|by exists c, nc].
Qed.

(** Extra X27.  [search(x)] on a list whose nodes form a chain from
    [pHead] returns, and it returns true exactly when the compare routine
    reports some node's item equal to [x]. *)
Theorem search_finds (fuel : nat) (h : heap) (self : SinglyLinkedList)
    (l : list addr) (x : Item) :
  chain pNext h (pHead self) l -> (length l < fuel)%nat ->
  exists b, SLListSearch fuel h self x = Ok b
    /\ (b = true <-> exists a n, a ∈ l /\ h !! a = Some n
                                 /\ compare self x (pItem n) = 0).
Proof. intros Hl Hfuel. by apply search_loop_chain. Qed.

Lemma search_finds_witness :
  chain pNext heap_two (pHead self_two) [1%positive; 2%positive]
  /\ (length [1%positive; 2%positive] < 3)%nat
  /\ SLListSearch 3 heap_two self_two 20 = Ok true
  /\ SLListSearch 3 heap_two self_two 30 = Ok false.
Proof.
  assert (H1 : chain pNext heap_two (pHead self_two) [1%positive; 2%positive])
    by apply heap_two_chain.
  assert (H2 : (length [1%positive; 2%positive] < 3)%nat) by (simpl; lia).
  split; [exact H1|]. split; [exact H2|].
  destruct (search_finds 3 heap_two self_two _ 20 H1 H2) as (b & _ & _).
  split; vm_compute; reflexivity.
Defined.

(** Extra X28.  After [append(x)] on a list that satisfies the
    invariant, [search(x)] returns true, for every compare routine that
    reports [x] equal to itself (the default [_SLListCompare] does). *)
Theorem append_then_search (h : heap) (self : SinglyLinkedList) (l : list addr)
    (x : Item) (fuel : nat) :
  chain pNext h (pHead self) l -> iSize self = Z.of_nat (length l) ->
  pTail self = last l -> compare self x x = 0 -> (S (length l) < fuel)%nat ->
  exists new h' self',
    SLListAppend h self x true = Ok (Some new, h', self')
    /\ SLListSearch fuel h' self' x = Ok true.
Proof.
  intros Hl Hsz Htail Hcmp Hfuel.
  destruct (list_append_cases h self l x Hl Hsz Htail)
    as (_ & new & h' & self' & Happ & _ & Hch & _ & _ & _ & Hnew & Hc).
  exists new, h', self'. split; [done|].
  destruct (search_loop_chain h' self' x _ _ Hch fuel) as (b & Hb & Hiff).
  { rewrite length_app. simpl. lia. }
  unfold SLListSearch. rewrite Hb. f_equal. apply Hiff.
  exists new, (mkNode x None). split; [apply elem_of_app; right; left|].
  split; [done|]. by rewrite Hc.
Qed.

Lemma append_then_search_witness :
  chain pNext heap_two (pHead self_two) [1%positive; 2%positive]
  /\ iSize self_two = Z.of_nat (length [1%positive; 2%positive])
  /\ pTail self_two = last [1%positive; 2%positive]
  /\ compare self_two 30 30 = 0
  /\ (S (length [1%positive; 2%positive]) < 4)%nat
  /\ exists new h' self',
       SLListAppend heap_two self_two 30 true = Ok (Some new, h', self')
       /\ SLListSearch 4 h' self' 30 = Ok true.
Proof.
  assert (H1 : chain pNext heap_two (pHead self_two) [1%positive; 2%positive])
    by apply heap_two_chain.
  assert (H2 : iSize self_two = Z.of_nat (length [1%positive; 2%positive]))
    by reflexivity.
  assert (H3 : pTail self_two = last [1%positive; 2%positive]) by reflexivity.
  assert (H4 : compare self_two 30 30 = 0) by reflexivity.
  assert (H5 : (S (length [1%positive; 2%positive]) < 4)%nat) by (simpl; lia).
  split; [exact H1|]. split; [exact H2|]. split; [exact H3|]. split; [exact H4|].
  split; [exact H5|].
  exact (append_then_search heap_two self_two _ 30 4 H1 H2 H3 H4 H5).
Defined.

Lemma deinit_loop_chain l : forall (h : heap) self fuel,
  chain pNext h (pHead self) l -> (length l < fuel)%nat ->
  exists xs h',
    items_at h l = Some <$> xs
    /\ deinit_loop fuel h self
       = Ok (h', set_pHead self None, Destroyed (destroy self) <$> xs)
    /\ (forall a, a ∈ l -> h' !! a = None)
    /\ (forall a, a ∉ l -> h' !! a = h !! a).
Proof.
  induction l as [|a l IH]; intros h self fuel Hl Hfuel.
  - destruct fuel; [lia|]. pose proof (chain_head_nil _ _ Hl) as Hh.
    exists [], h. cbn [deinit_loop]. rewrite Hh. split; [done|].
    split; [by destruct self; simpl in *; subst|]. split; [|done].
    intros a Hin. by apply elem_of_nil in Hin.
  - destruct fuel as [|fuel]; [simpl in Hfuel; lia|].
    pose proof (chain_NoDup _ _ _ _ Hl) as Hnd.
    apply NoDup_cons in Hnd as [Hal _].
    inversion Hl as [|? n ? Ha Hrest Hhead]; subst.
    destruct (IH (delete a h) (set_pHead self (pNext n)) fuel)
      as (xs & h' & Hit & Hrun & Hin & Hout).
    { by apply chain_delete_off. }
    { simpl in Hfuel. lia. }
    exists (pItem n :: xs), h'. cbn [deinit_loop]. rewrite <- Hhead, Ha, Hrun.
    cbn [exec_bind]. split; [|split; [done|split]].
    + change (items_at h (a :: l)) with ((pItem <$> h !! a) :: items_at h l).
      rewrite Ha. cbn. f_equal. rewrite <- Hit. symmetry.
      apply items_at_ext. intros b Hb. rewrite lookup_delete_ne; [done|].
      by intros ->.
    + intros b Hb. apply elem_of_cons in Hb as [->|Hb]; [|by apply Hin].
      rewrite Hout by done. apply lookup_delete_eq.
    + intros b Hb. apply not_elem_of_cons in Hb as [Hba Hb].
      rewrite Hout by done. by rewrite lookup_delete_ne.
Qed.

(** Extra X29.  [SLListDeinit] on a list whose nodes form a
    chain from [pHead] calls the destroy routine once on every item, in
    list order, frees every node of the chain and no other block, and
    leaves [pHead] null; it assigns neither [pTail] nor [iSize], which
    keep their old values. *)
Theorem list_deinit_frees_every_node (fuel : nat) (h : heap)
    (self : SinglyLinkedList) (l : list addr) :
  chain pNext h (pHead self) l -> (length l < fuel)%nat ->
  exists xs h' self',
    items_at h l = Some <$> xs
    /\ SLListDeinit fuel h self = Ok (h', self', Destroyed (destroy self) <$> xs)
    /\ (forall a, a ∈ l -> h' !! a = None)
    /\ (forall a, a ∉ l -> h' !! a = h !! a)
    /\ pHead self' = None
    /\ pTail self' = pTail self /\ iSize self' = iSize self.
Proof.
  intros Hl Hfuel.
  destruct (deinit_loop_chain l h self fuel Hl Hfuel) as (xs & h' & H1 & H2 & H3 & H4).
  by exists xs, h', (set_pHead self None).
Qed.

Lemma list_deinit_frees_every_node_witness :
  chain pNext heap_two (pHead self_two) [1%positive; 2%positive]
  /\ (length [1%positive; 2%positive] < 3)%nat
  /\ SLListDeinit 3 heap_two self_two
     = Ok (∅, set_pHead self_two None,
           [Destroyed _SLListDestroy 10; Destroyed _SLListDestroy 20]).
Proof.
  assert (H1 : chain pNext heap_two (pHead self_two) [1%positive; 2%positive])
    by apply heap_two_chain.
  assert (H2 : (length [1%positive; 2%positive] < 3)%nat) by (simpl; lia).
  split; [exact H1|]. split; [exact H2|].
  destruct (list_deinit_frees_every_node 3 heap_two self_two _ H1 H2)
    as (xs & h' & self' & _).
  vm_compute. reflexivity.
Defined.

Lemma append_all_chain (xs : list Item) : forall (h : heap) self l,
  chain pNext h (pHead self) l -> iSize self = Z.of_nat (length l) ->
  pTail self = last l ->
  exists h' self' l',
    append_all h self xs = Ok (h', self')
    /\ chain pNext h' (pHead self') (l ++ l')
    /\ iSize self' = Z.of_nat (length (l ++ l'))
    /\ pTail self' = last (l ++ l')
    /\ length l' = length xs
    /\ items_at h' (l ++ l') = items_at h l ++ (Some <$> xs).
Proof.
  induction xs as [|x xs IH]; intros h self l Hl Hsz Htail.
  - exists h, self, []. rewrite !app_nil_r. done.
  - destruct (list_append_cases h self l x Hl Hsz Htail)
      as (_ & new & h1 & self1 & Happ & _ & Hch & Hsz1 & Htl1 & Hit & _).
    destruct (IH h1 self1 (l ++ [new]) Hch) as (h' & self' & l' & Hrun & H1 & H2 & H3 & H4 & H5).
    { rewrite Hsz1, Hsz, length_app. simpl. lia. }
    { by rewrite last_snoc. }
    exists h', self', (new :: l'). cbn [append_all]. rewrite Happ. cbn [exec_bind].
    rewrite <- !app_assoc in *. cbn [app] in *.
    split; [done|]. split; [done|]. split; [done|]. split; [done|].
    split; [simpl; by rewrite H4|].
    rewrite H5, Hit, <- app_assoc. done.
Qed.

(** Extra X30.  A run of [append] calls whose allocations succeed,
    on a list that satisfies the invariant (the list [SLListInit] builds
    does), returns with the invariant kept: the new nodes follow the old
    ones, the items are the old items followed by the appended items in
    call order, and the size is the old size plus the number of calls. *)
Theorem append_all_appends (xs : list Item) (h : heap) (self : SinglyLinkedList)
    (l : list addr) :
  chain pNext h (pHead self) l -> iSize self = Z.of_nat (length l) ->
  pTail self = last l ->
  exists h' self' l',
    append_all h self xs = Ok (h', self')
    /\ invariant h' self'
    /\ chain pNext h' (pHead self') (l ++ l')
    /\ iSize self' = iSize self + Z.of_nat (length xs)
    /\ items_at h' (l ++ l') = items_at h l ++ (Some <$> xs).
Proof.
  intros Hl Hsz Htail.
  destruct (append_all_chain xs h self l Hl Hsz Htail)
    as (h' & self' & l' & H1 & H2 & H3 & H4 & H5 & H6).
  exists h', self', l'. split; [done|]. split; [by exists (l ++ l')|].
  split; [done|]. split; [|done]. rewrite H3, Hsz, length_app. lia.
Qed.

Lemma append_all_appends_witness :
  chain pNext (∅ : heap) (pHead SLListInit) []
  /\ iSize SLListInit = Z.of_nat (length (@nil addr))
  /\ pTail SLListInit = last []
  /\ exists h' self' l',
       append_all ∅ SLListInit [10; 20] = Ok (h', self')
       /\ items_at h' l' = [Some 10; Some 20].
Proof.
  assert (H1 : chain pNext (∅ : heap) (pHead SLListInit) []) by constructor.
  assert (H2 : iSize SLListInit = Z.of_nat (length (@nil addr))) by reflexivity.
  assert (H3 : pTail SLListInit = last []) by reflexivity.
  split; [exact H1|]. split; [exact H2|]. split; [exact H3|].
  destruct (append_all_appends [10; 20] ∅ SLListInit [] H1 H2 H3)
    as (h' & self' & l' & Hrun & _ & _ & _ & Hit).
  exists h', self', l'. split; [exact Hrun|exact Hit].
Defined.

End SLListExtra.
